(** * Backport and enterprise-sync actions: a shallow embedding

    The development follows [src/backport/backport.ts] and the compiled
    enterprise-check action.  Pure helpers are Rocq functions; the
    asynchronous code is written in a state-and-exception monad whose
    state records the external calls made so far, the diagnostics
    written, and the one array that the source mutates in place
    ([labelsToAdd]).  The outside world (git, the GitHub REST API, the
    betterer tool) is an arbitrary function from the history of calls
    to the outcome of the next one. *)

From Stdlib Require Import List String Ascii ZArith NArith Bool Lia Arith Permutation.
From Stdlib Require Import DecimalString.
From Stdlib Require DecimalPos DecimalFacts.
Import ListNotations.

Open Scope list_scope.
Open Scope string_scope.

(** ** JavaScript strings

    A string is a sequence of code units; the model keeps the code
    units below 256. *)

Definition space : ascii := " "%char.
Definition LF : string := String (ascii_of_nat 10) "".

(** [Array.prototype.includes] on an array of strings. *)
Fixpoint includes (l : list string) (x : string) : bool :=
  match l with
  | [] => false
  | y :: t => if String.eqb y x then true else includes t x
  end.

(** [Array.prototype.join]. *)
Fixpoint join (sep : string) (l : list string) : string :=
  match l with
  | [] => ""
  | [x] => x
  | x :: t => x ++ sep ++ join sep t
  end.

(** [String(n)] for a number [n] that is a safe integer (an integer of
    magnitude below 2^53, which a number holds exactly): its decimal
    digits, after a minus sign when it is negative.  Pull-request
    numbers are such integers. *)
Definition Number_toString (n : Z) : string :=
  NilZero.string_of_int (Z.to_int n).

(** [s.startsWith(p)], returning what follows the prefix. *)
Fixpoint strip_prefix (p s : string) : option string :=
  match p with
  | EmptyString => Some s
  | String a p' =>
      match s with
      | EmptyString => None
      | String b s' => if Ascii.eqb a b then strip_prefix p' s' else None
      end
  end.

(** White space and line terminators removed by [String.prototype.trim]. *)
Definition is_white (a : ascii) : bool :=
  let n := nat_of_ascii a in
  existsb (Nat.eqb n) [9; 10; 11; 12; 13; 32; 160]%nat.

Fixpoint trimStart (s : string) : string :=
  match s with
  | EmptyString => EmptyString
  | String a t => if is_white a then trimStart t else s
  end.

Fixpoint trimEnd (s : string) : string :=
  match s with
  | EmptyString => EmptyString
  | String a t =>
      match trimEnd t with
      | EmptyString => if is_white a then EmptyString else String a EmptyString
      | t' => String a t'
      end
  end.

Definition trim (s : string) : string := trimEnd (trimStart s).

(** ** A backtracking matcher for the regular expressions of the source

    Only the constructs that [labelRegExp] uses are present.  The
    matcher is written in continuation-passing style, as the
    ECMAScript specification does: a quantifier tries the longest
    repetition first and gives characters back when the continuation
    fails. *)

Inductive regex : Type :=
| Chr (a : ascii)                (* a literal character *)
| NotChr (a : ascii)             (* [^a] *)
| Cat (r1 r2 : regex)            (* r1 r2 *)
| Plus (r : regex)               (* r+ , greedy *)
| Opt (r : regex)                (* r? , greedy *)
| Group (i : nat) (r : regex)    (* the i-th capturing group *)
| NonCapturing (r : regex)       (* (?: r ) *)
| EndAnchor.                     (* $ , no multiline flag *)

Definition captures := list (nat * string).
Definition cont := string -> captures -> option captures.

Fixpoint capture (i : nat) (c : captures) : option string :=
  match c with
  | [] => None
  | (j, v) :: t => if Nat.eqb i j then Some v else capture i t
  end.

Definition or_else {A} (x : option A) (y : option A) : option A :=
  match x with Some _ => x | None => y end.

Fixpoint plus_loop (step : string -> captures -> cont -> option captures)
    (fuel : nat) (s : string) (c : captures) (k : cont) : option captures :=
  match fuel with
  | O => None
  | S fuel' =>
      step s c (fun s' c' =>
        if Nat.ltb (String.length s') (String.length s)
        then or_else (plus_loop step fuel' s' c' k) (k s' c')
        else k s' c')
  end.

Fixpoint rmatch (r : regex) (s : string) (c : captures) (k : cont)
    {struct r} : option captures :=
  match r with
  | Chr a =>
      match s with
      | String b s' => if Ascii.eqb a b then k s' c else None
      | EmptyString => None
      end
  | NotChr a =>
      match s with
      | String b s' => if Ascii.eqb a b then None else k s' c
      | EmptyString => None
      end
  | Cat r1 r2 => rmatch r1 s c (fun s' c' => rmatch r2 s' c' k)
  | Plus r1 => plus_loop (rmatch r1) (S (String.length s)) s c k
  | Opt r1 => or_else (rmatch r1 s c k) (k s c)
  | Group i r1 =>
      rmatch r1 s c (fun s' c' =>
        k s' ((i, substring 0 (String.length s - String.length s') s) :: c'))
  | NonCapturing r1 => rmatch r1 s c k
  | EndAnchor =>
      match s with
      | EmptyString => k s c
      | String _ _ => None
      end
  end.

(** A literal run of characters. *)
Fixpoint lit (p : string) (r : regex) : regex :=
  match p with
  | EmptyString => r
  | String a p' => Cat (Chr a) (lit p' r)
  end.

(** [re.exec(s)] for a regex without the global or sticky flag: the
    match is attempted at every start index from the left. *)
Fixpoint regex_exec (r : regex) (s : string) : option captures :=
  match rmatch r s [] (fun _ c => Some c) with
  | Some c => Some c
  | None =>
      match s with
      | EmptyString => None
      | String _ s' => regex_exec r s'
      end
  end.

(** ** Constants of [backport.ts] *)

Definition BETTERER_RESULTS_PATH : string := ".betterer.results".

(** [/backport ([^ ]+)(?: ([^ ]+))?$/] *)
Definition labelRegExp : regex :=
  lit "backport "
    (Cat (Group 1 (Plus (NotChr space)))
      (Cat (Opt (NonCapturing (Cat (Chr space) (Group 2 (Plus (NotChr space))))))
           EndAnchor)).

Definition backportLabels : list string :=
  ["type/docs"; "type/bug"; "product-approved"].

Definition missingLabels : string := "missing-labels".

(** [labelRegExp.exec(labelName)], keeping the two groups: the base
    always takes part in a match, the head is [undefined] when the
    optional group does not. *)
Definition labelRegExp_exec (labelName : string) : option (string * option string) :=
  match regex_exec labelRegExp labelName with
  | None => None
  | Some c =>
      match capture 1 c with
      | Some base => Some (base, capture 2 c)
      | None => None
      end
  end.

Definition labelRegExp_test (labelName : string) : bool :=
  match regex_exec labelRegExp labelName with
  | Some _ => true
  | None => false
  end.

(** ** Thrown values and results *)

Inductive error_class : Type := NotAnError | PlainError | TypeError | RequestError.

Record js_error : Type := { err_class : error_class; err_message : string }.

Definition instanceof_Error (e : js_error) : bool :=
  match err_class e with NotAnError => false | _ => true end.

Definition instanceof_RequestError (e : js_error) : bool :=
  match err_class e with RequestError => true | _ => false end.

Inductive result (A : Type) : Type :=
| Ok (a : A)
| Throw (e : js_error).
Arguments Ok {A} a.
Arguments Throw {A} e.

(** ** Objects used as string-keyed maps

    [baseToHead] is a plain object, created by [{}], whose keys are
    branch names.  Its own properties are kept as an association list
    in the order of their creation.

    An assignment [o[k] = v] with a string [v] replaces the value of
    an own property [k] in place and otherwise creates the property at
    the end, with one exception: the key [__proto__] is an accessor of
    [Object.prototype], whose setter ignores a value that is neither an
    object nor [null], so the assignment creates nothing.  (The other
    properties of [Object.prototype] are writable data properties and
    do not stand in the way of an own property of the same name.)

    [Object.keys] and [Object.entries] list the own properties whose
    key is an array index first, in ascending numeric order, then the
    others in the order of their creation. *)

Definition JSObject := list (string * string).

(** The value of a decimal digit. *)
Definition digit_value (a : ascii) : option N :=
  let n := N_of_ascii a in
  if N.leb 48 n && N.leb n 57 then Some (n - 48)%N else None.

(** The value of a string of decimal digits read from the left,
    continuing from [acc]. *)
Fixpoint digits_value (s : string) (acc : N) : option N :=
  match s with
  | EmptyString => Some acc
  | String a t =>
      match digit_value a with
      | Some d => digits_value t (10 * acc + d)%N
      | None => None
      end
  end.

(** A canonical numeral: decimal digits, at least one, and no leading
    zero except for ["0"] itself. *)
Definition canonical_numeral (s : string) : option N :=
  match s with
  | EmptyString => None
  | String a t =>
      if Ascii.eqb a "0" && negb (String.eqb t "") then None else digits_value s 0
  end.

(** An array index: the canonical numeral of an integer below 2^32 - 1. *)
Definition array_index (k : string) : option N :=
  match canonical_numeral k with
  | Some n => if N.ltb n 4294967295 then Some n else None
  | None => None
  end.

(** Creating or overwriting an own data property. *)
Fixpoint set_own (k v : string) (o : JSObject) : JSObject :=
  match o with
  | [] => [(k, v)]
  | (k', v') :: t => if String.eqb k k' then (k, v) :: t else (k', v') :: set_own k v t
  end.

(** The key that [Object.prototype] answers with an accessor. *)
Definition proto : string := "__proto__".

(** [o[k] = v] for a string [v]. *)
Definition obj_set (k v : string) (o : JSObject) : JSObject :=
  if String.eqb k proto then o else set_own k v o.

(** The value of the own property [k], if there is one. *)
Fixpoint obj_get (k : string) (o : JSObject) : option string :=
  match o with
  | [] => None
  | (k', v') :: t => if String.eqb k k' then Some v' else obj_get k t
  end.

(** Insertion of an indexed property into a list sorted by index. *)
Fixpoint index_insert (n : N) (e : string * string)
    (l : list (N * (string * string))) : list (N * (string * string)) :=
  match l with
  | [] => [(n, e)]
  | (m, e') :: t =>
      if N.leb n m then (n, e) :: l else (m, e') :: index_insert n e t
  end.

(** The own properties whose key is an array index, in ascending order. *)
Fixpoint index_entries (o : JSObject) : list (N * (string * string)) :=
  match o with
  | [] => []
  | (k, v) :: t =>
      match array_index k with
      | Some n => index_insert n (k, v) (index_entries t)
      | None => index_entries t
      end
  end.

(** The other own properties, in the order of their creation. *)
Fixpoint string_entries (o : JSObject) : JSObject :=
  match o with
  | [] => []
  | (k, v) :: t =>
      match array_index k with
      | Some _ => string_entries t
      | None => (k, v) :: string_entries t
      end
  end.

Definition Object_entries (o : JSObject) : list (string * string) :=
  (map snd (index_entries o) ++ string_entries o)%list.

Definition Object_keys (o : JSObject) : list string := map fst (Object_entries o).

(** ** Label resolution *)

Definition getLabelNames (action : string) (label : option string)
    (labels : list string) : result (list string) :=
  if String.eqb action "closed" then Ok labels
  else if String.eqb action "labeled" then
    match label with
    | Some name => Ok [name]
    | None =>
        Throw {| err_class := TypeError;
                 err_message := "Cannot read properties of undefined (reading 'name')" |}
    end
  else Ok [].

Fixpoint matched_in (prLabel : string) (backportLabels : list string) : list string :=
  match backportLabels with
  | [] => []
  | backportLabel :: t =>
      if String.eqb backportLabel prLabel
      then backportLabel :: matched_in prLabel t
      else matched_in prLabel t
  end.

Fixpoint getMatchedBackportLabels (labelsPR backportLabels : list string) : list string :=
  match labelsPR with
  | [] => []
  | prLabel :: t =>
      (matched_in prLabel backportLabels ++ getMatchedBackportLabels t backportLabels)%list
  end.

(** [const [, base, head = `backport-${pullRequestNumber}-to-${base}`] = matches]:
    the base and the head that the callback of [getBackportBaseToHead]
    takes from a match, the head falling back to its default when the
    second group is [undefined]. *)
Definition destructure (pullRequestNumber : Z) (matches : string * option string)
    : string * string :=
  let (base, head) := matches in
  (base,
   match head with
   | Some h => h
   | None => "backport-" ++ Number_toString pullRequestNumber ++ "-to-" ++ base
   end).

(** The callback handed to [forEach] in [getBackportBaseToHead]. *)
Definition addLabelName (pullRequestNumber : Z) (baseToHead : JSObject)
    (labelName : string) : JSObject :=
  match labelRegExp_exec labelName with
  | Some matches =>
      let (base, head) := destructure pullRequestNumber matches in
      obj_set base head baseToHead
  | None => baseToHead
  end.

Definition getBackportBaseToHead (action : string) (label : option string)
    (labels : list string) (pullRequestNumber : Z) : result JSObject :=
  match getLabelNames action label labels with
  | Throw e => Throw e
  | Ok names => Ok (fold_left (addLabelName pullRequestNumber) names [])
  end.

(** ** Title templating

    [title.replace(new RegExp(escapeRegExp(p), 'g'), value)]: every
    occurrence of the literal [p], scanning from the left, is replaced
    by [value], in which [$$], [$&], [$`] and [$'] keep their special
    meaning (the pattern has no capturing group). *)

Fixpoint expand_replacement (value matched before after : string) : string :=
  match value with
  | EmptyString => EmptyString
  | String a r =>
      if Ascii.eqb a "$" then
        match r with
        | String b r' =>
            if Ascii.eqb b "$" then String "$" (expand_replacement r' matched before after)
            else if Ascii.eqb b "&" then matched ++ expand_replacement r' matched before after
            else if Ascii.eqb b "`" then before ++ expand_replacement r' matched before after
            else if Ascii.eqb b "'" then after ++ expand_replacement r' matched before after
            else String a (expand_replacement r matched before after)
        | EmptyString => String a EmptyString
        end
      else String a (expand_replacement r matched before after)
  end.

Fixpoint replace_from (p value whole : string) (pos skip : nat) (s : string) : string :=
  match s with
  | EmptyString => EmptyString
  | String a t =>
      match skip with
      | S skip' => replace_from p value whole (S pos) skip' t
      | O =>
          match strip_prefix p s with
          | Some after =>
              expand_replacement value p (substring 0 pos whole) after
              ++ replace_from p value whole (S pos) (String.length p - 1) t
          | None => String a (replace_from p value whole (S pos) 0 t)
          end
      end
  end.

Definition replace_all (p value s : string) : string :=
  replace_from p value s 0 0 s.

Definition renderTitle (titleTemplate base originalTitle : string) : string :=
  replace_all "{{originalTitle}}" originalTitle
    (replace_all "{{base}}" base titleTemplate).

(** ** External calls

    One constructor per call the two actions make on the outside
    world, with the arguments in the order of the source. *)

Inductive call : Type :=
| Exec (commandLine : string) (args : list string) (cwd : string)
| GetExecOutput (commandLine : string) (args : list string) (cwd : string)
| Betterer (update : bool) (cwd : string)
| CloneRepo (token owner repo : string)
| PullsCreate (base body head owner repo title : string)
| IssuesUpdate (repo owner : string) (issue_number milestone : Z)
| PullsDeleteReviewRequest (pull_number : Z) (repo owner : string) (reviewers : list string)
| PullsCreateReviewRequest (pull_number : Z) (repo owner : string) (reviewers : list string)
| IssuesAddLabels (issue_number : Z) (labels : list string) (owner repo : string)
| IssuesCreateComment (body : string) (issue_number : Z) (owner repo : string)
| IssuesRemoveLabel (owner repo : string) (issue_number : Z) (name : string)
| ReposGetBranch (branch owner repo : string)
| GitCreateRef (owner repo ref sha : string)
| GitUpdateRef (owner repo ref sha : string) (force : bool).

Record ExecOutput : Type := { stdout : string }.
Record PullData : Type :=
  { data_number : Z; data_requested_reviewers : option (list string) }.
Record BranchData : Type := { commit_sha : string }.

(** What a call resolves to when it does not reject. *)
Definition response (c : call) : Type :=
  match c with
  | GetExecOutput _ _ _ => ExecOutput
  | PullsCreate _ _ _ _ _ _ => PullData
  | ReposGetBranch _ _ _ => BranchData
  | _ => unit
  end.

(** The outside world: the outcome of a call given the calls made
    before it. *)
Definition oracle : Type := list call -> forall c : call, result (response c).

(** Diagnostics ([console.log] and the logging helpers of
    [@actions/core]); they never fail and never influence control. *)
Inductive out_event : Type :=
| ConsoleLog (msg : string)
| CoreInfo (msg : string)
| CoreError (msg : string)
| GroupStart (name : string)
| GroupEnd.

Record state : Type :=
  { calls : list call;             (* external calls, oldest first *)
    output : list out_event;       (* diagnostics, oldest first *)
    labelsToAdd : list string }.   (* the caller's array, shared by reference *)

Definition M (A : Type) : Type := state -> result A * state.

Definition ret {A} (a : A) : M A := fun s => (Ok a, s).

Definition bind {A B} (m : M A) (f : A -> M B) : M B :=
  fun s =>
    match m s with
    | (Ok a, s') => f a s'
    | (Throw e, s') => (Throw e, s')
    end.

Definition throw {A} (e : js_error) : M A := fun s => (Throw e, s).

Definition try_catch {A} (m : M A) (handler : js_error -> M A) : M A :=
  fun s =>
    match m s with
    | (Ok a, s') => (Ok a, s')
    | (Throw e, s') => handler e s'
    end.

Definition lift {A} (r : result A) : M A := fun s => (r, s).

Definition log (e : out_event) : M unit :=
  fun s => (Ok tt, {| calls := calls s; output := (output s ++ [e])%list;
                      labelsToAdd := labelsToAdd s |}).

(** [labelsToAdd.push(...xs)] *)
Definition push_labelsToAdd (xs : list string) : M unit :=
  fun s => (Ok tt, {| calls := calls s; output := output s;
                      labelsToAdd := (labelsToAdd s ++ xs)%list |}).

Definition read_labelsToAdd : M (list string) :=
  fun s => (Ok (labelsToAdd s), s).

Declare Scope monad_scope.
Delimit Scope monad_scope with monad.
Notation "x <- m ;; k" := (bind m (fun x => k))
  (at level 61, m at next level, right associativity) : monad_scope.
Notation "m ;; k" := (bind m (fun _ => k))
  (at level 61, right associativity) : monad_scope.
Open Scope monad_scope.

Fixpoint for_of {A} (l : list A) (body : A -> M unit) : M unit :=
  match l with
  | [] => ret tt
  | x :: t => body x ;; for_of t body
  end.

(** [try { ... } finally { ... }] *)
Definition finally {A} (m : M A) (fin : M unit) : M A :=
  fun s =>
    match m s with
    | (r, s') =>
        match fin s' with
        | (Ok _, s'') => (r, s'')
        | (Throw e, s'') => (Throw e, s'')
        end
    end.

(** [group(name, fn)] of [@actions/core]. *)
Definition group (name : string) (fn : M unit) : M unit :=
  log (GroupStart name) ;; finally fn (log GroupEnd).

(** ** The webhook payload, as far as [backport] reads it *)

Record Milestone : Type := { milestone_id : Z; milestone_number : Z }.

Record PullRequest : Type :=
  { labels : list string;                (* the [name] of each label *)
    merge_commit_sha : option string;
    merged : bool;
    number : Z;
    title : string;
    milestone : option Milestone;
    merged_by : option string }.         (* the [login] of the merger *)

Record Payload : Type :=
  { action : string;
    label : option string;               (* [label.name], when there is a label *)
    pull_request : PullRequest;
    repository_name : string;
    repository_owner_login : string }.

Record BackportArgs : Type :=
  { payload : Payload;
    titleTemplate : string;
    token : string;
    sender_login : string }.

Definition getFailedBackportCommentBody (base commitToBackport errorMessage head : string)
    : string :=
  join LF
    [ "The backport to `" ++ base ++ "` failed:";
      "```";
      errorMessage;
      "```";
      "To backport manually, run these commands in your terminal:";
      "```bash";
      "# Fetch latest updates from GitHub";
      "git fetch";
      "# Create a new branch";
      "git switch --create " ++ head ++ " origin/" ++ base;
      "# Cherry-pick the merged commit of this pull request and resolve the conflicts";
      "git cherry-pick -x " ++ commitToBackport;
      "# Push it to GitHub";
      "git push --set-upstream origin " ++ head;
      "git switch main";
      "# Remove the local backport branch";
      "git branch -D " ++ head;
      "```";
      "Then, create a pull request where the `base` branch is `" ++ base
        ++ "` and the `compare`/`head` branch is `" ++ head ++ "`." ].

Definition missingLabelsCommentBody (sender_login : string) : string :=
  join LF
    [ "Hello " ++ "@" ++ sender_login ++ "!";
      "Backport pull requests need to be either:";
      "* Pull requests which address bugs,";
      "* Urgent fixes which need product approval, in order to get merged,";
      "* Docs changes." ++ LF;
      "Please, if the current pull request addresses a bug fix, label it with the `type/bug` label.";
      "If it already has the product approval, please add the `product-approved` label. For docs changes, please add the `type/docs` label.";
      "If none of the above applies, please consider removing the backport label and target the next major/minor release.";
      "Thanks!" ].

(** The loop of [backport] that sets [matches]: it stops at the first
    label the pattern accepts. *)
Fixpoint anyLabelMatches (labelsString : list string) : bool :=
  match labelsString with
  | [] => false
  | l :: t => if labelRegExp_test l then true else anyLabelMatches t
  end.

Definition isEmptyList {A} (l : list A) : bool :=
  match l with [] => true | _ => false end.

(** The trigger gate at the top of [backport], read from the global
    [context.payload]: [true] when the invocation returns at once. *)
Definition gateReturns (ctx : Payload) : bool :=
  if String.eqb (action ctx) "closed" then false
  else
    let payloadLabel := match label ctx with Some name => name | None => "" end in
    negb (labelRegExp_test payloadLabel || includes backportLabels payloadLabel).

Section World.

Variable world : oracle.

(** An awaited external call: it is recorded, then the world decides. *)
Definition perform (c : call) : M (response c) :=
  fun s =>
    (world (calls s) c,
     {| calls := (calls s ++ [c])%list; output := output s;
        labelsToAdd := labelsToAdd s |}).

(** *** [backportOnce] *)

Definition git (repo : string) (args : list string) : M unit :=
  perform (Exec "git" args repo).

Definition isBettererConflict (repo : string) : M bool :=
  out <- perform (GetExecOutput "git" ["diff"; "--name-only"; "--diff-filter=U"] repo) ;;
  ret (String.eqb (trim (stdout out)) BETTERER_RESULTS_PATH).

Definition fixBettererConflict (repo : string) : M unit :=
  perform (Betterer true repo) ;;
  git repo ["add"; BETTERER_RESULTS_PATH] ;;
  git repo ["-c"; "core.editor=true"; "cherry-pick"; "--continue"].

(** The cherry-pick with its conflict policy (the [try] of [backportOnce]). *)
Definition cherryPick (repo commitToBackport : string) : M unit :=
  try_catch (git repo ["cherry-pick"; "-x"; commitToBackport])
    (fun error =>
       conflict <- isBettererConflict repo ;;
       if (conflict : bool) then
         try_catch (fixBettererConflict repo)
           (fun error => git repo ["cherry-pick"; "--abort"] ;; throw error)
       else
         git repo ["cherry-pick"; "--abort"] ;; throw error).

(** What follows the cherry-pick in [backportOnce]. *)
Definition publish (base body head owner repo title : string)
    (milestone : option Milestone) (mergedBy : option string) : M unit :=
  git repo ["push"; "--set-upstream"; "origin"; head] ;;
  createRsp <- perform (PullsCreate base body head owner repo title) ;;
  let pullRequestNumber := data_number createRsp in
  (match milestone with
   | Some m =>
       if Z.eqb (milestone_id m) 0 then ret tt
       else perform (IssuesUpdate repo owner pullRequestNumber (milestone_number m))
   | None => ret tt
   end) ;;
  (match data_requested_reviewers createRsp with
   | Some reviewers =>
       perform (PullsDeleteReviewRequest pullRequestNumber repo owner reviewers)
   | None => ret tt
   end) ;;
  (match mergedBy with
   | Some login => perform (PullsCreateReviewRequest pullRequestNumber repo owner [login])
   | None => ret tt
   end) ;;
  labelsToAdd <- read_labelsToAdd ;;
  if Nat.ltb 0 (List.length labelsToAdd)
  then perform (IssuesAddLabels pullRequestNumber labelsToAdd owner repo)
  else ret tt.

Definition backportOnce (base body commitToBackport head owner repo title : string)
    (milestone : option Milestone) (mergedBy : option string) : M unit :=
  git repo ["switch"; base] ;;
  git repo ["switch"; "--create"; head] ;;
  cherryPick repo commitToBackport ;;
  publish base body head owner repo title milestone mergedBy.

(** *** [backport] *)

(** The [catch] of the per-branch [try]. *)
Definition reportFailure (base commitToBackport head owner repo : string)
    (pullRequestNumber : Z) (error : js_error) : M unit :=
  let errorMessage :=
    if instanceof_Error error then err_message error
    else "Unknown error while backporting" in
  log (CoreError errorMessage) ;;
  perform (IssuesCreateComment
             (getFailedBackportCommentBody base commitToBackport errorMessage head)
             pullRequestNumber owner repo) ;;
  perform (IssuesAddLabels pullRequestNumber ["backport-failed"] owner repo).

(** One turn of the [for ... of Object.entries(backportBaseToHead)] loop. *)
Definition backportEntry (args : BackportArgs) (matchedLabels : list string)
    (commitToBackport : string) (entry : string * string) : M unit :=
  let pr := pull_request (payload args) in
  let repo := repository_name (payload args) in
  let owner := repository_owner_login (payload args) in
  let pullRequestNumber := number pr in
  let '(base, head) := entry in
  let body := "Backport " ++ commitToBackport ++ " from #" ++ Number_toString pullRequestNumber in
  let title := renderTitle (titleTemplate args) base (title pr) in
  push_labelsToAdd matchedLabels ;;
  group ("Backporting to " ++ base ++ " on " ++ head)
    (try_catch
       (backportOnce base body commitToBackport head owner repo title
          (milestone pr) (merged_by pr))
       (reportFailure base commitToBackport head owner repo pullRequestNumber)).

(** From the [merged] test to the end of [backport]. *)
Definition backportMerged (args : BackportArgs) (matchedLabels : list string) : M unit :=
  let pr := pull_request (payload args) in
  let repo := repository_name (payload args) in
  let owner := repository_owner_login (payload args) in
  let pullRequestNumber := number pr in
  if negb (merged pr) then log (ConsoleLog "PR not merged")
  else
    log (ConsoleLog "This is a merge action") ;;
    backportBaseToHead <-
      lift (getBackportBaseToHead (action (payload args)) (label (payload args))
              (labels pr) pullRequestNumber) ;;
    if Nat.eqb (List.length (Object_keys backportBaseToHead)) 0 then ret tt
    else
      let commitToBackport :=
        match merge_commit_sha pr with Some sha => sha | None => "null" end in
      log (CoreInfo ("Backporting " ++ commitToBackport ++ " from #"
                       ++ Number_toString pullRequestNumber)) ;;
      perform (CloneRepo (token args) owner repo) ;;
      for_of (Object_entries backportBaseToHead)
        (backportEntry args matchedLabels commitToBackport).

Definition backport (context_payload : Payload) (args : BackportArgs) : M unit :=
  let pr := pull_request (payload args) in
  let repo := repository_name (payload args) in
  let owner := repository_owner_login (payload args) in
  let pullRequestNumber := number pr in
  log (ConsoleLog ("payloadAction: " ++ action context_payload)) ;;
  if gateReturns context_payload then ret tt
  else
    let labelsString := labels pr in
    let matchedLabels := getMatchedBackportLabels labelsString backportLabels in
    let matches := anyLabelMatches labelsString in
    if matches && Nat.eqb (List.length matchedLabels) 0
       && negb (includes labelsString missingLabels)
    then
      log (ConsoleLog ("PR intended to be backported, but not labeled properly. Labels: "
                         ++ join "," labelsString ++ LF ++ " Author: "
                         ++ sender_login args)) ;;
      perform (IssuesCreateComment (missingLabelsCommentBody (sender_login args))
                 pullRequestNumber owner repo) ;;
      perform (IssuesAddLabels pullRequestNumber [missingLabels] owner repo)
    else
      (if matches && negb (Nat.eqb (List.length matchedLabels) 0)
          && includes labelsString missingLabels
       then perform (IssuesRemoveLabel owner repo pullRequestNumber missingLabels)
       else ret tt) ;;
      backportMerged args matchedLabels.

(** *** The enterprise check *)

Record Inputs : Type :=
  { source_branch : string; pr_number : string;
    source_sha : string; target_branch : string }.

Definition getBranch (branch : string) : M (option BranchData) :=
  try_catch
    (res <- perform (ReposGetBranch branch "grafana" "grafana-enterprise") ;;
     ret (Some res))
    (fun err => log (ConsoleLog ("err: " ++ err_message err)) ;; ret None).

Definition createOrUpdateRef (prNumber branch sha sourceSha : string) : M unit :=
  try_catch
    (perform (GitCreateRef "grafana" "grafana-enterprise"
                ("refs/heads/prc-" ++ prNumber ++ "-" ++ sourceSha ++ "/" ++ branch) sha))
    (fun err =>
       if instanceof_RequestError err
          && String.eqb (err_message err) "Reference already exists"
       then
         perform (GitUpdateRef "grafana" "grafana-enterprise"
                    ("heads/prc-" ++ prNumber ++ "-" ++ sourceSha ++ "/" ++ branch)
                    sha true)
       else throw err).

Definition plainError (msg : string) : js_error :=
  {| err_class := PlainError; err_message := msg |}.

Definition onTriggered (inputs : Inputs) : M unit :=
  let sourceBranch := source_branch inputs in
  if String.eqb sourceBranch "" then throw (plainError "Missing source branch")
  else
    let prNumber := pr_number inputs in
    if String.eqb prNumber "" then throw (plainError "Missing OSS PR number")
    else
      let sourceSha := source_sha inputs in
      if String.eqb sourceSha "" then throw (plainError "Missing OSS source SHA")
      else
        branch <- getBranch sourceBranch ;;
        match branch with
        | Some b => createOrUpdateRef prNumber sourceBranch (commit_sha b) sourceSha
        | None =>
            let targetBranch :=
              if String.eqb (target_branch inputs) "" then "main"
              else target_branch inputs in
            branch <- getBranch targetBranch ;;
            match branch with
            | Some b => createOrUpdateRef prNumber sourceBranch (commit_sha b) sourceSha
            | None =>
                branch <- getBranch "main" ;;
                match branch with
                | None => throw (plainError "error retrieving main branch")
                | Some b =>
                    createOrUpdateRef prNumber sourceBranch (commit_sha b) sourceSha
                end
            end
        end.

End World.

(** ** A direct reading of [labelRegExp]

    What one attempt of the matcher at a given start index amounts to,
    written without backtracking; the two are proved equal below. *)

(** What is left of [s] after its longest prefix free of spaces. *)
Fixpoint word_end (s : string) : string :=
  match s with
  | EmptyString => EmptyString
  | String a t => if Ascii.eqb space a then s else word_end t
  end.

(** A non-empty run of characters other than the space: [[^ ]+]. *)
Fixpoint no_space (s : string) : bool :=
  match s with
  | EmptyString => true
  | String a t => negb (Ascii.eqb space a) && no_space t
  end.

Definition is_word (s : string) : bool :=
  match s with EmptyString => false | _ => no_space s end.

Definition parse_here (s : string) : option (string * option string) :=
  match strip_prefix "backport " s with
  | None => None
  | Some t =>
      if is_word (substring 0 1 t) then
        let r := word_end t in
        let base := substring 0 (String.length t - String.length r) t in
        match r with
        | EmptyString => Some (base, None)
        | String _ u =>
            if is_word u then Some (base, Some u) else None
        end
      else None
  end.

Fixpoint find_parse (s : string) : option (string * option string) :=
  match parse_here s with
  | Some x => Some x
  | None =>
      match s with
      | EmptyString => None
      | String _ t => find_parse t
      end
  end.

(** The text of a label that carries [base] and, optionally, [head]. *)
Definition backportLabelText (base : string) (head : option string) : string :=
  "backport " ++ base ++ match head with Some h => " " ++ h | None => "" end.

(** A label that the pattern accepts with the base [__proto__]. *)
Definition names_proto (l : string) : bool :=
  match labelRegExp_exec l with
  | Some (base, _) => String.eqb base proto
  | None => false
  end.

(** A label that the pattern accepts with a base that the object can
    hold as a key. *)
Definition storable (l : string) : bool :=
  match labelRegExp_exec l with
  | Some (base, _) => negb (String.eqb base proto)
  | None => false
  end.

(** The head branch that [getBackportBaseToHead] records for a match. *)
Definition headFor (pullRequestNumber : Z) (base : string) (head : option string) : string :=
  match head with
  | Some h => h
  | None => "backport-" ++ Number_toString pullRequestNumber ++ "-to-" ++ base
  end.

(** ** The output of [git diff --name-only]

    One path per line, each line ended by a line feed; the paths
    considered are non-empty and free of white space (git quotes the
    others). *)

Fixpoint listing (files : list string) : string :=
  match files with
  | [] => ""
  | f :: rest => f ++ LF ++ listing rest
  end.

Fixpoint no_white (s : string) : bool :=
  match s with
  | EmptyString => true
  | String a t => negb (is_white a) && no_white t
  end.

Definition is_path (f : string) : bool :=
  match f with EmptyString => false | _ => no_white f end.

(** ** Sample events and worlds

    Concrete inputs on which the model is run below. *)

Definition default_response (h : list call) (c : call) : response c :=
  match c return response c with
  | GetExecOutput _ _ _ => {| stdout := "" |}
  | PullsCreate _ _ _ _ _ _ =>
      {| data_number := 1000 + Z.of_nat (List.length h);
         data_requested_reviewers := None |}
  | ReposGetBranch _ _ _ => {| commit_sha := "c0ffee" |}
  | _ => tt
  end.

(** A world in which every call succeeds. *)
Definition world_ok : oracle := fun h c => Ok (default_response h c).

(** A world in which the calls selected by [fails] reject and the
    others succeed with [answer]. *)
Definition world_with (fails : call -> option js_error)
    (answer : forall (h : list call) (c : call), response c) : oracle :=
  fun h c =>
    match fails c with
    | Some e => Throw e
    | None => Ok (answer h c)
    end.

Definition sample_pr (labels : list string) (merged : bool) : PullRequest :=
  {| labels := labels; merge_commit_sha := Some "abc123"; merged := merged;
     number := 42; title := "Fix the thing"; milestone := None;
     merged_by := Some "alice" |}.

Definition sample_payload (action : string) (label : option string)
    (labels : list string) (merged : bool) : Payload :=
  {| action := action; label := label; pull_request := sample_pr labels merged;
     repository_name := "grafana"; repository_owner_login := "grafana" |}.

Definition sample_args (p : Payload) : BackportArgs :=
  {| payload := p; titleTemplate := "[{{base}}] {{originalTitle}}";
     token := "t0ken"; sender_login := "bob" |}.

Definition initial_state (labelsToAdd : list string) : state :=
  {| calls := []; output := []; labelsToAdd := labelsToAdd |}.

Definition conflict_error : js_error :=
  {| err_class := PlainError;
     err_message := "The process '/usr/bin/git' failed with exit code 1" |}.

Definition betterer_error : js_error :=
  {| err_class := PlainError; err_message := "betterer: could not update results" |}.

Definition is_cherry_pick (c : call) : bool :=
  match c with
  | Exec _ (a :: b :: _) _ => String.eqb a "cherry-pick" && String.eqb b "-x"
  | _ => false
  end.

Definition is_betterer (c : call) : bool :=
  match c with Betterer _ _ => true | _ => false end.

(** Responses in which [git diff --name-only --diff-filter=U] prints [out]. *)
Definition response_with_stdout (out : string) (h : list call) (c : call) : response c :=
  match c return response c with
  | GetExecOutput _ _ _ => {| stdout := out |}
  | PullsCreate _ _ _ _ _ _ =>
      {| data_number := 1000 + Z.of_nat (List.length h);
         data_requested_reviewers := None |}
  | ReposGetBranch _ _ _ => {| commit_sha := "c0ffee" |}
  | _ => tt
  end.

(** Every cherry-pick conflicts on the file [pkg/api/api.go]. *)
Definition world_conflict : oracle :=
  world_with (fun c => if is_cherry_pick c then Some conflict_error else None)
    (response_with_stdout ("pkg/api/api.go" ++ LF)).

(** Every cherry-pick conflicts on [.betterer.results] alone, and the
    betterer tool then fails. *)
Definition world_betterer_fails : oracle :=
  world_with (fun c => if is_cherry_pick c then Some conflict_error
                       else if is_betterer c then Some betterer_error else None)
    (response_with_stdout (BETTERER_RESULTS_PATH ++ LF)).

(** Every cherry-pick conflicts on [.betterer.results] alone, and the
    betterer tool resolves it. *)
Definition world_betterer_fixes : oracle :=
  world_with (fun c => if is_cherry_pick c then Some conflict_error else None)
    (response_with_stdout (BETTERER_RESULTS_PATH ++ LF)).

Definition already_exists_error : js_error :=
  {| err_class := RequestError; err_message := "Reference already exists" |}.

Definition not_found_error : js_error :=
  {| err_class := RequestError; err_message := "Branch not found" |}.

(** The enterprise repository has no branch [feature-x], and the
    namespaced ref is already there. *)
Definition world_enterprise : oracle :=
  world_with
    (fun c =>
       match c with
       | ReposGetBranch b _ _ =>
           if String.eqb b "feature-x" then Some not_found_error else None
       | GitCreateRef _ _ _ _ => Some already_exists_error
       | _ => None
       end)
    default_response.

Definition sample_inputs : Inputs :=
  {| source_branch := "feature-x"; pr_number := "4711";
     source_sha := "abc123"; target_branch := "v9.2.x" |}.

Definition forbidden_error : js_error :=
  {| err_class := RequestError; err_message := "Resource not accessible by integration" |}.

Definition is_github_write (c : call) : bool :=
  match c with
  | PullsCreate _ _ _ _ _ _ | IssuesCreateComment _ _ _ _ | IssuesAddLabels _ _ _ _ => true
  | _ => false
  end.

(** The token may not write to the repository: git works, every
    write through the API is refused. *)
Definition world_read_only : oracle :=
  world_with (fun c => if is_github_write c then Some forbidden_error else None)
    default_response.

(** * Properties *)

#[local] Arguments Ascii.eqb : simpl never.
#[local] Arguments String.eqb : simpl never.

(** ** The model on a few inputs *)

Example exec_plain :
  labelRegExp_exec "backport release-9.2" = Some ("release-9.2", None).
Proof. reflexivity. Qed.

Example exec_head :
  labelRegExp_exec "backport release-9.2 custom-head" = Some ("release-9.2", Some "custom-head").
Proof. reflexivity. Qed.

Example exec_unanchored_start :
  labelRegExp_exec "no-backport v1 backport v2 h" = Some ("v2", Some "h").
Proof. reflexivity. Qed.

Example exec_three_words :
  labelRegExp_exec "backport a b c" = None.
Proof. reflexivity. Qed.

Example exec_leftmost :
  labelRegExp_exec "backport backport x" = Some ("backport", Some "x").
Proof. reflexivity. Qed.

Example trim_diff_output :
  trim (BETTERER_RESULTS_PATH ++ LF) = BETTERER_RESULTS_PATH
  /\ trim ("a.ts" ++ LF ++ BETTERER_RESULTS_PATH ++ LF) <> BETTERER_RESULTS_PATH.
Proof. split; [reflexivity | now vm_compute]. Qed.

Example renderTitle_sample :
  renderTitle "[{{base}}] {{originalTitle}} ({{base}})" "v9.2.x" "Fix $& panel"
  = "[v9.2.x] Fix {{originalTitle}} panel (v9.2.x)".
Proof. reflexivity. Qed.

(** ** The matcher on [labelRegExp] *)

Lemma rmatch_lit (p : string) (r : regex) :
  forall s c k,
    rmatch (lit p r) s c k =
    match strip_prefix p s with
    | Some t => rmatch r t c k
    | None => None
    end.
Proof.
  induction p as [|a p IH]; intros s c k; simpl.
  - reflexivity.
  - destruct s as [|b s]; [reflexivity|].
    destruct (Ascii.eqb a b); [apply IH | reflexivity].
Qed.

Definition rejects_words (k : cont) : Prop :=
  forall a t c, Ascii.eqb space a = false -> k (String a t) c = None.

Lemma or_else_None {A} (x : option A) : or_else x None = x.
Proof. destruct x; reflexivity. Qed.

Lemma plus_notspace (k : cont) :
  rejects_words k ->
  forall fuel s c,
    String.length s < fuel ->
    plus_loop (rmatch (NotChr space)) fuel s c k =
    match s with
    | EmptyString => None
    | String a _ => if Ascii.eqb space a then None else k (word_end s) c
    end.
Proof.
  intros Hk fuel.
  induction fuel as [|fuel IH]; intros s c Hlen; [lia|].
  destruct s as [|a t]; [reflexivity|].
  cbn [plus_loop rmatch].
  destruct (Ascii.eqb space a) eqn:Ea; [reflexivity|].
  assert (Hlt : Nat.ltb (String.length t) (String.length (String a t)) = true)
    by (apply Nat.ltb_lt; simpl; lia).
  rewrite Hlt.
  rewrite IH by (simpl in Hlen; lia).
  cbn [word_end]. rewrite Ea.
  destruct t as [|b u]; [reflexivity|].
  destruct (Ascii.eqb space b) eqn:Eb.
  - cbn [word_end]. rewrite Eb. reflexivity.
  - rewrite (Hk b u c Eb). apply or_else_None.
Qed.

Lemma word_end_head (s : string) (b : ascii) (u : string) :
  word_end s = String b u -> b = space.
Proof.
  induction s as [|a t IH]; simpl; [discriminate|].
  destruct (Ascii.eqb space a) eqn:E; [|exact IH].
  intros H; inversion H; subst. apply Ascii.eqb_eq in E. congruence.
Qed.

Lemma is_word_word_end (u : string) :
  is_word u =
  match u with
  | EmptyString => false
  | String a _ =>
      if Ascii.eqb space a then false
      else match word_end u with EmptyString => true | _ => false end
  end.
Proof.
  destruct u as [|a t]; [reflexivity|].
  unfold is_word.
  assert (H : forall s, no_space s = match word_end s with EmptyString => true | _ => false end).
  { induction s as [|b s IH]; simpl; [reflexivity|].
    destruct (Ascii.eqb space b); simpl; [reflexivity | exact IH]. }
  rewrite H. simpl. destruct (Ascii.eqb space a); reflexivity.
Qed.

Lemma substring_all (s : string) : substring 0 (String.length s) s = s.
Proof. induction s as [|a s IH]; simpl; [reflexivity | now rewrite IH]. Qed.

Definition captures_of (x : option (string * option string)) : option captures :=
  match x with
  | Some (base, None) => Some [(1, base)]
  | Some (base, Some head) => Some [(2, head); (1, base)]
  | None => None
  end.

Lemma rmatch_labelRegExp (s : string) :
  rmatch labelRegExp s [] (fun _ c => Some c) = captures_of (parse_here s).
Proof.
  unfold labelRegExp, parse_here. rewrite rmatch_lit.
  destruct (strip_prefix "backport " s) as [t|]; [|reflexivity].
  cbn [rmatch].
  rewrite plus_notspace; [| | lia].
  2:{ intros a u c Ha. cbn [rmatch]. rewrite Ha. reflexivity. }
  destruct t as [|a t']; [reflexivity|].
  replace (is_word (substring 0 1 (String a t'))) with (negb (Ascii.eqb space a))
    by (simpl; destruct t'; simpl; destruct (Ascii.eqb space a); reflexivity).
  destruct (Ascii.eqb space a) eqn:Ea; [reflexivity|]. cbn [negb].
  set (t := String a t') in *.
  destruct (word_end t) as [|b u] eqn:Er.
  - reflexivity.
  - pose proof (word_end_head _ _ _ Er) as ->.
    rewrite Ascii.eqb_refl.
    rewrite plus_notspace; [| | lia].
    2:{ intros a0 u0 c0 _. reflexivity. }
    rewrite is_word_word_end.
    destruct u as [|a1 u1]; [reflexivity|].
    destruct (Ascii.eqb space a1); [reflexivity|].
    set (u := String a1 u1) in *.
    destruct (word_end u) as [|? ?] eqn:Eu; [|reflexivity].
    cbn [String.length]. rewrite Nat.sub_0_r, substring_all. reflexivity.
Qed.

Lemma regex_exec_labelRegExp (s : string) :
  regex_exec labelRegExp s = captures_of (find_parse s).
Proof.
  induction s as [|a s IH].
  - reflexivity.
  - cbn [regex_exec find_parse]. rewrite rmatch_labelRegExp.
    destruct (parse_here (String a s)) as [[b [h|]]|]; try reflexivity.
    cbn [captures_of]. exact IH.
Qed.

Lemma labelRegExp_exec_find (s : string) : labelRegExp_exec s = find_parse s.
Proof.
  unfold labelRegExp_exec. rewrite regex_exec_labelRegExp.
  destruct (find_parse s) as [[b [h|]]|]; reflexivity.
Qed.

Lemma labelRegExp_test_exec (s : string) :
  labelRegExp_test s = match labelRegExp_exec s with Some _ => true | None => false end.
Proof.
  unfold labelRegExp_test. rewrite labelRegExp_exec_find, regex_exec_labelRegExp.
  destruct (find_parse s) as [[b [h|]]|]; reflexivity.
Qed.

(** ** The shape of the labels that [labelRegExp] accepts *)

Lemma length_app (s t : string) :
  String.length (s ++ t) = String.length s + String.length t.
Proof. induction s as [|a s IH]; simpl; [reflexivity | now rewrite IH]. Qed.

Lemma app_assoc_s (s t u : string) : (s ++ t) ++ u = s ++ t ++ u.
Proof. induction s as [|a s IH]; simpl; [reflexivity | now rewrite IH]. Qed.

Lemma app_empty_r (s : string) : s ++ "" = s.
Proof. induction s as [|a s IH]; simpl; [reflexivity | now rewrite IH]. Qed.

Lemma substring_prefix (w r : string) :
  substring 0 (String.length (w ++ r) - String.length r) (w ++ r) = w.
Proof.
  rewrite length_app, Nat.add_sub.
  induction w as [|a w IH]; simpl.
  - destruct r; reflexivity.
  - now rewrite IH.
Qed.

Lemma strip_prefix_app (p s : string) : strip_prefix p (p ++ s) = Some s.
Proof.
  induction p as [|a p IH]; simpl; [reflexivity|].
  now rewrite Ascii.eqb_refl.
Qed.

Lemma strip_prefix_inv (p s t : string) : strip_prefix p s = Some t -> s = p ++ t.
Proof.
  revert s; induction p as [|a p IH]; intros s; simpl.
  - now intros [= ->].
  - destruct s as [|b s]; [discriminate|].
    destruct (Ascii.eqb a b) eqn:E; [|discriminate].
    apply Ascii.eqb_eq in E; subst b. intros H. now rewrite (IH _ H).
Qed.

Lemma word_split (s : string) :
  exists w, s = w ++ word_end s /\ no_space w = true.
Proof.
  induction s as [|a t [w [Hs Hw]]]; cbn [word_end].
  - exists ""; split; reflexivity.
  - destruct (Ascii.eqb space a) eqn:E.
    + exists ""; split; reflexivity.
    + exists (String a w); split.
      * simpl. now rewrite <- Hs.
      * cbn [no_space]. now rewrite E, Hw.
Qed.

Lemma word_end_length (s : string) : String.length (word_end s) <= String.length s.
Proof.
  induction s as [|a t IH]; cbn [word_end]; [lia|].
  destruct (Ascii.eqb space a); simpl; lia.
Qed.

Lemma is_word_first (t : string) :
  is_word (substring 0 1 t) =
  match t with EmptyString => false | String a _ => negb (Ascii.eqb space a) end.
Proof.
  destruct t as [|a t]; [reflexivity|].
  simpl. destruct t; simpl; destruct (Ascii.eqb space a); reflexivity.
Qed.

Lemma word_end_app (w r : string) :
  no_space w = true ->
  match r with EmptyString => True | String b _ => b = space end ->
  word_end (w ++ r) = r.
Proof.
  intros Hw Hr. induction w as [|a w IH]; simpl.
  - destruct r as [|b u]; [reflexivity|]. subst b. cbn [word_end].
    now rewrite Ascii.eqb_refl.
  - cbn [no_space] in Hw. apply andb_true_iff in Hw as [Ha Hw].
    apply negb_true_iff in Ha. cbn [word_end]. rewrite Ha. now apply IH.
Qed.

Lemma is_word_head (w r : string) :
  is_word w = true -> is_word (substring 0 1 (w ++ r)) = true.
Proof.
  destruct w as [|a w]; [discriminate|]. unfold is_word at 1. cbn [no_space].
  intros H. apply andb_true_iff in H as [Ha _].
  simpl. destruct (w ++ r); simpl; now rewrite Ha.
Qed.

Definition head_is_word (head : option string) : bool :=
  match head with Some h => is_word h | None => true end.

Lemma is_word_no_space (w : string) : is_word w = true -> no_space w = true.
Proof. destruct w; [discriminate | trivial]. Qed.

Lemma parse_here_text (base : string) (head : option string) :
  is_word base = true -> head_is_word head = true ->
  parse_here (backportLabelText base head) = Some (base, head).
Proof.
  intros Hb Hh. unfold parse_here, backportLabelText.
  rewrite strip_prefix_app, is_word_head by exact Hb.
  destruct head as [h|].
  - rewrite word_end_app; [| now apply is_word_no_space | reflexivity].
    change (" " ++ h) with (String space h).
    cbn [head_is_word] in Hh. cbv iota. rewrite Hh.
    now rewrite (substring_prefix base (String space h)).
  - rewrite word_end_app; [| now apply is_word_no_space | exact I].
    now rewrite (substring_prefix base "").
Qed.

Lemma parse_here_inv (s base : string) (head : option string) :
  parse_here s = Some (base, head) ->
  s = backportLabelText base head /\ is_word base = true /\ head_is_word head = true.
Proof.
  unfold parse_here.
  destruct (strip_prefix "backport " s) as [t|] eqn:Es; [|discriminate].
  apply strip_prefix_inv in Es.
  destruct (is_word (substring 0 1 t)) eqn:Ew; [|discriminate].
  destruct (word_split t) as [w [Ht Hw]].
  assert (Hbase : substring 0 (String.length t - String.length (word_end t)) t = w).
  { rewrite Ht at 1 3. apply substring_prefix. }
  rewrite Hbase.
  assert (Hww : is_word w = true).
  { destruct w as [|a w]; [|exact Hw]. exfalso. simpl in Ht.
    rewrite is_word_first in Ew.
    destruct t as [|a t']; [discriminate|].
    apply negb_true_iff in Ew. cbn [word_end] in Ht. rewrite Ew in Ht.
    pose proof (word_end_length t') as Hle.
    rewrite <- Ht in Hle. simpl in Hle. lia. }
  destruct (word_end t) as [|b u] eqn:Er.
  - intros [= <- <-]. subst s. rewrite Ht. unfold backportLabelText.
    repeat split; trivial.
  - pose proof (word_end_head _ _ _ Er) as ->.
    destruct (is_word u) eqn:Eu; [|discriminate].
    intros [= <- <-]. subst s. rewrite Ht. unfold backportLabelText.
    repeat split; trivial.
Qed.

Lemma find_parse_inv (s base : string) (head : option string) :
  find_parse s = Some (base, head) ->
  exists pre, s = pre ++ backportLabelText base head
              /\ is_word base = true /\ head_is_word head = true.
Proof.
  induction s as [|a s IH]; cbn [find_parse].
  - destruct (parse_here "") eqn:E; [|discriminate]. intros [= ->].
    exists "". now apply parse_here_inv in E.
  - destruct (parse_here (String a s)) eqn:E.
    + intros [= ->]. exists "". now apply parse_here_inv in E.
    + intros H. destruct (IH H) as [pre [-> Hw]].
      exists (String a pre). split; [reflexivity | exact Hw].
Qed.

Lemma find_parse_suffix (pre t : string) :
  parse_here t <> None -> find_parse (pre ++ t) <> None.
Proof.
  intros Ht. induction pre as [|a pre IH].
  - simpl. destruct t; cbn [find_parse]; destruct (parse_here _); congruence.
  - change (String a pre ++ t) with (String a (pre ++ t)). cbn [find_parse].
    destruct (parse_here (String a (pre ++ t))); [discriminate | exact IH].
Qed.

Lemma find_parse_here (s : string) (x : string * option string) :
  parse_here s = Some x -> find_parse s = Some x.
Proof. intros H. destruct s; cbn [find_parse]; now rewrite H. Qed.

(** ** The object [baseToHead] *)

Lemma obj_get_set_own_same (k v : string) (o : JSObject) :
  obj_get k (set_own k v o) = Some v.
Proof.
  induction o as [|[k' v'] o IH]; cbn [set_own obj_get].
  - now rewrite String.eqb_refl.
  - destruct (String.eqb k k') eqn:E; cbn [obj_get]; rewrite ?String.eqb_refl, ?E; trivial.
Qed.

Lemma obj_get_set_own_other (k k0 v : string) (o : JSObject) :
  k0 <> k -> obj_get k0 (set_own k v o) = obj_get k0 o.
Proof.
  intros Hk. apply String.eqb_neq in Hk.
  induction o as [|[k' v'] o IH]; cbn [set_own obj_get].
  - now rewrite Hk.
  - destruct (String.eqb k k') eqn:E; cbn [obj_get].
    + apply String.eqb_eq in E; subst k'. now rewrite Hk.
    + now rewrite IH.
Qed.

Lemma set_own_keys (k v : string) (o : JSObject) :
  forall x, In x (map fst (set_own k v o)) <-> x = k \/ In x (map fst o).
Proof.
  induction o as [|[k' v'] o IH]; intros x; cbn [set_own map In fst].
  - intuition.
  - destruct (String.eqb k k') eqn:E; cbn [map In fst].
    + apply String.eqb_eq in E; subst k'. intuition.
    + rewrite IH. intuition.
Qed.

Lemma set_own_NoDup (k v : string) (o : JSObject) :
  NoDup (map fst o) -> NoDup (map fst (set_own k v o)).
Proof.
  induction o as [|[k' v'] o IH]; intros Hnd; cbn [set_own map fst].
  - constructor; [intros [] | constructor].
  - inversion Hnd as [|? ? Hnotin Hnd']; subst.
    destruct (String.eqb k k') eqn:E; cbn [map fst].
    + apply String.eqb_eq in E; subst k'. now constructor.
    + constructor; [|now apply IH].
      intros Hin. apply (set_own_keys k v o) in Hin as [->|Hin]; [|contradiction].
      now rewrite String.eqb_refl in E.
Qed.

Lemma obj_set_proto (v : string) (o : JSObject) : obj_set proto v o = o.
Proof. reflexivity. Qed.

Lemma obj_set_own (k v : string) (o : JSObject) :
  k <> proto -> obj_set k v o = set_own k v o.
Proof. intros Hk. unfold obj_set. apply String.eqb_neq in Hk. now rewrite Hk. Qed.

Lemma obj_set_cases (k v : string) (o : JSObject) :
  (k = proto /\ obj_set k v o = o) \/ (k <> proto /\ obj_set k v o = set_own k v o).
Proof.
  destruct (string_dec k proto) as [->|Hk]; [left | right]; split; trivial.
  now apply obj_set_own.
Qed.

Lemma obj_get_set_same (k v : string) (o : JSObject) :
  k <> proto -> obj_get k (obj_set k v o) = Some v.
Proof. intros Hk. rewrite obj_set_own by exact Hk. apply obj_get_set_own_same. Qed.

Lemma obj_get_set_other (k k0 v : string) (o : JSObject) :
  k0 <> k -> obj_get k0 (obj_set k v o) = obj_get k0 o.
Proof.
  intros Hk. destruct (obj_set_cases k v o) as [[_ ->]|[_ ->]]; [reflexivity|].
  now apply obj_get_set_own_other.
Qed.

Lemma obj_get_set_proto (k v : string) (o : JSObject) :
  obj_get proto (obj_set k v o) = obj_get proto o.
Proof.
  destruct (obj_set_cases k v o) as [[_ ->]|[Hk ->]]; [reflexivity|].
  apply obj_get_set_own_other. congruence.
Qed.

Lemma obj_set_NoDup (k v : string) (o : JSObject) :
  NoDup (map fst o) -> NoDup (map fst (obj_set k v o)).
Proof.
  intros H. destruct (obj_set_cases k v o) as [[_ ->]|[_ ->]]; [exact H|].
  now apply set_own_NoDup.
Qed.

(** [Object.entries] lists every own property once. *)
Lemma index_insert_perm (n : N) (e : string * string) (l : list (N * (string * string))) :
  Permutation (index_insert n e l) ((n, e) :: l).
Proof.
  induction l as [|[m e'] l IH]; cbn [index_insert]; [apply Permutation_refl|].
  destruct (N.leb n m); [apply Permutation_refl|].
  eapply perm_trans; [apply perm_skip, IH | apply perm_swap].
Qed.

Lemma Object_entries_perm (o : JSObject) : Permutation (Object_entries o) o.
Proof.
  unfold Object_entries.
  induction o as [|[k v] o IH]; cbn [index_entries string_entries]; [apply Permutation_refl|].
  destruct (array_index k) as [n|].
  - eapply perm_trans.
    + apply Permutation_app_tail, Permutation_map, index_insert_perm.
    + cbn [map snd app]. now apply perm_skip.
  - eapply perm_trans; [apply Permutation_sym, Permutation_middle|].
    now apply perm_skip.
Qed.

Lemma Object_entries_In (e : string * string) (o : JSObject) :
  In e (Object_entries o) <-> In e o.
Proof.
  split; apply Permutation_in;
    [apply Object_entries_perm | apply Permutation_sym, Object_entries_perm].
Qed.

Lemma Object_entries_length (o : JSObject) :
  List.length (Object_entries o) = List.length o.
Proof. apply Permutation_length, Object_entries_perm. Qed.

Lemma Object_keys_length (o : JSObject) :
  List.length (Object_keys o) = List.length o.
Proof. unfold Object_keys. now rewrite length_map, Object_entries_length. Qed.

Lemma Object_keys_NoDup (o : JSObject) :
  NoDup (map fst o) -> NoDup (Object_keys o).
Proof.
  unfold Object_keys. apply Permutation_NoDup, Permutation_map, Permutation_sym.
  apply Object_entries_perm.
Qed.

Lemma Object_keys_empty (o : JSObject) :
  Nat.eqb (List.length (Object_keys o)) 0 = match o with [] => true | _ => false end.
Proof. rewrite Object_keys_length. now destruct o. Qed.

Lemma Object_entries_Forall (P : string * string -> Prop) (o : JSObject) :
  Forall P o -> Forall P (Object_entries o).
Proof.
  rewrite !Forall_forall. intros H e He. apply H. now apply Object_entries_In.
Qed.

Lemma obj_get_In (k v : string) (o : JSObject) :
  obj_get k o = Some v -> In (k, v) (Object_entries o).
Proof.
  intros H. apply Object_entries_In. revert H.
  induction o as [|[k' v'] o IH]; cbn [obj_get]; [discriminate|].
  destruct (String.eqb k k') eqn:E.
  - apply String.eqb_eq in E; subst k'. intros [= ->]. now left.
  - intros H. right. now apply IH.
Qed.

(** Keys that are array indices come first, by value; a numeral with a
    leading zero, or one from 2^32 - 1 on, is an ordinary key. *)
Example Object_entries_order :
  Object_entries
    (obj_set "7" "g" (obj_set "4294967295" "f" (obj_set "v1" "e" (obj_set "07" "d"
       (obj_set "10" "c" (obj_set "main" "b" (obj_set "2" "a" [])))))))
  = [("2", "a"); ("7", "g"); ("10", "c");
     ("main", "b"); ("07", "d"); ("v1", "e"); ("4294967295", "f")].
Proof. reflexivity. Qed.

Example obj_set_overwrites_in_place :
  obj_set "v1" "c" (obj_set "v2" "b" (obj_set "v1" "a" [])) = [("v1", "c"); ("v2", "b")].
Proof. reflexivity. Qed.

(** ** [getBackportBaseToHead] *)

Lemma addLabelName_exec (n : Z) (o : JSObject) (l : string) :
  addLabelName n o l =
  match labelRegExp_exec l with
  | Some (base, head) => obj_set base (headFor n base head) o
  | None => o
  end.
Proof.
  unfold addLabelName, destructure, headFor.
  destruct (labelRegExp_exec l) as [[b [h|]]|]; reflexivity.
Qed.

Lemma destructure_headFor (n : Z) (base : string) (head : option string) :
  destructure n (base, head) = (base, headFor n base head).
Proof. destruct head; reflexivity. Qed.

Definition no_label_for (base : string) (names : list string) : Prop :=
  forall l, In l names -> forall h, labelRegExp_exec l <> Some (base, h).

Lemma fold_addLabelName_own_NoDup (n : Z) (names : list string) :
  forall o, NoDup (map fst o) ->
            NoDup (map fst (fold_left (addLabelName n) names o)).
Proof.
  induction names as [|l names IH]; intros o Ho; cbn [fold_left]; [exact Ho|].
  apply IH. rewrite addLabelName_exec.
  destruct (labelRegExp_exec l) as [[b h]|]; [now apply obj_set_NoDup | exact Ho].
Qed.

Lemma fold_addLabelName_NoDup (n : Z) (names : list string) :
  NoDup (Object_keys (fold_left (addLabelName n) names [])).
Proof. apply Object_keys_NoDup, fold_addLabelName_own_NoDup. constructor. Qed.

Lemma fold_addLabelName_absent (n : Z) (base : string) (names : list string) :
  no_label_for base names ->
  forall o, obj_get base (fold_left (addLabelName n) names o) = obj_get base o.
Proof.
  induction names as [|l names IH]; intros Hno o; cbn [fold_left]; [reflexivity|].
  rewrite IH by (intros l' Hl'; apply Hno; now right).
  rewrite addLabelName_exec.
  destruct (labelRegExp_exec l) as [[b h]|] eqn:E; [|reflexivity].
  apply obj_get_set_other. intros ->. exact (Hno l (or_introl eq_refl) h E).
Qed.

(** No label creates an own property [__proto__]. *)
Lemma fold_addLabelName_proto (n : Z) (names : list string) :
  forall o, obj_get proto (fold_left (addLabelName n) names o) = obj_get proto o.
Proof.
  induction names as [|l names IH]; intros o; cbn [fold_left]; [reflexivity|].
  rewrite IH, addLabelName_exec.
  destruct (labelRegExp_exec l) as [[b h]|]; [apply obj_get_set_proto | reflexivity].
Qed.

Lemma obj_get_not_In (k : string) (o : JSObject) :
  obj_get k o = None -> forall v, ~ In (k, v) o.
Proof.
  induction o as [|[k' v'] o IH]; cbn [obj_get]; intros H v; [intros []|].
  destruct (String.eqb k k') eqn:E; [discriminate|].
  intros [[= -> _]|Hin]; [now rewrite String.eqb_refl in E | exact (IH H v Hin)].
Qed.

Lemma fold_addLabelName_last (n : Z) (base : string) (head : option string)
    (l1 : list string) (l : string) (l2 : list string) (o : JSObject) :
  labelRegExp_exec l = Some (base, head) ->
  no_label_for base l2 ->
  base <> proto ->
  obj_get base (fold_left (addLabelName n) (l1 ++ l :: l2)%list o)
  = Some (headFor n base head).
Proof.
  intros Hl Hno Hb. rewrite fold_left_app. cbn [fold_left].
  rewrite fold_addLabelName_absent by exact Hno.
  rewrite addLabelName_exec, Hl. now apply obj_get_set_same.
Qed.

Lemma fold_addLabelName_present (n : Z) (names : list string) :
  forall o l base head,
    In l names -> labelRegExp_exec l = Some (base, head) -> base <> proto ->
    obj_get base (fold_left (addLabelName n) names o) <> None.
Proof.
  induction names as [|l0 names IH]; intros o l base head Hin Hl Hb; [destruct Hin|].
  cbn [fold_left].
  destruct (in_dec string_dec l names) as [Hin'|Hnot].
  - now apply (IH _ l base head).
  - destruct Hin as [->|Hin]; [|contradiction].
    assert (Hdec : forall names' o',
               obj_get base o' <> None ->
               obj_get base (fold_left (addLabelName n) names' o') <> None).
    { induction names' as [|x xs IHx]; intros o' Ho'; cbn [fold_left]; [exact Ho'|].
      apply IHx. rewrite addLabelName_exec.
      destruct (labelRegExp_exec x) as [[b h]|]; [|exact Ho'].
      destruct (string_dec base b) as [<-|Hne].
      - now rewrite obj_get_set_same.
      - now rewrite obj_get_set_other. }
    apply Hdec. rewrite addLabelName_exec, Hl. now rewrite obj_get_set_same.
Qed.

Lemma getBackportBaseToHead_closed (label : option string) (labels : list string) (n : Z) :
  getBackportBaseToHead "closed" label labels n
  = Ok (fold_left (addLabelName n) labels []).
Proof. reflexivity. Qed.

Lemma getBackportBaseToHead_labeled (name : string) (labels : list string) (n : Z) :
  getBackportBaseToHead "labeled" (Some name) labels n = Ok (addLabelName n [] name).
Proof. reflexivity. Qed.

Lemma getBackportBaseToHead_other (action : string) (label : option string)
    (labels : list string) (n : Z) :
  action <> "closed" -> action <> "labeled" ->
  getBackportBaseToHead action label labels n = Ok [].
Proof.
  intros Hc Hl. unfold getBackportBaseToHead, getLabelNames.
  apply String.eqb_neq in Hc, Hl. now rewrite Hc, Hl.
Qed.

Lemma labelRegExp_exec_text (base : string) (head : option string) :
  is_word base = true -> head_is_word head = true ->
  labelRegExp_exec (backportLabelText base head) = Some (base, head).
Proof.
  intros Hb Hh. rewrite labelRegExp_exec_find.
  apply find_parse_here. now apply parse_here_text.
Qed.

Lemma labelRegExp_exec_inv (l base : string) (head : option string) :
  labelRegExp_exec l = Some (base, head) ->
  exists pre, l = pre ++ backportLabelText base head
              /\ is_word base = true /\ head_is_word head = true.
Proof. rewrite labelRegExp_exec_find. apply find_parse_inv. Qed.

Lemma labelRegExp_exec_suffix (pre base : string) (head : option string) :
  is_word base = true -> head_is_word head = true ->
  labelRegExp_exec (pre ++ backportLabelText base head) <> None.
Proof.
  intros Hb Hh. rewrite labelRegExp_exec_find. apply find_parse_suffix.
  now rewrite parse_here_text.
Qed.

Example Number_toString_4711 : Number_toString 4711 = "4711".
Proof. reflexivity. Qed.

(** C1.  Label resolution.  The label [backport __proto__] is
    accepted by the pattern, with the base [__proto__], and a [closed]
    event carrying it gets no entry for it: the assignment
    [baseToHead[base] = head] reaches the [__proto__] accessor of the
    prototype, which ignores a string, and the map stays as it was.

    For every other base the code does what the claim says.  For a
    [closed] action the map has an entry for every label of the pull
    request that the pattern accepts, under the base it captures, and
    the value is the head of the last such label; keys are unique.
    For a [labeled] action the map is the one the added label alone
    would give.  For any other action the map is empty.  The labels
    the pattern accepts are those that end in [backport <base>] or
    [backport <base> <head>], both words being non-empty and free of
    spaces. *)
Theorem backport_map_resolution :
  (labelRegExp_exec "backport __proto__" = Some ("__proto__", None)
   /\ getBackportBaseToHead "closed" None ["backport __proto__"; "type/bug"] 42 = Ok []
   /\ getBackportBaseToHead "closed" None ["backport v1"; "backport __proto__ mine"] 42
      = Ok [("v1", "backport-42-to-v1")])
  /\ (forall (label : option string) (labels : list string) (n : Z),
       exists m,
         getBackportBaseToHead "closed" label labels n = Ok m
         /\ NoDup (Object_keys m)
         /\ (forall l base head,
                In l labels -> labelRegExp_exec l = Some (base, head) ->
                base <> "__proto__" ->
                exists h, obj_get base m = Some h /\ In (base, h) (Object_entries m))
         /\ (forall l1 l l2 base head,
                labels = (l1 ++ l :: l2)%list ->
                labelRegExp_exec l = Some (base, head) ->
                no_label_for base l2 ->
                base <> "__proto__" ->
                obj_get base m = Some (headFor n base head))
         /\ (forall base, no_label_for base labels -> obj_get base m = None)
         /\ (forall h, ~ In ("__proto__", h) (Object_entries m)))
  /\ (forall (labels : list string) (n : Z) (name : string),
         getBackportBaseToHead "labeled" (Some name) labels n
         = getBackportBaseToHead "closed" None [name] n)
  /\ (forall (label : option string) (labels : list string) (n : Z) (action : string),
         action <> "closed" -> action <> "labeled" ->
         getBackportBaseToHead action label labels n = Ok [])
  /\ (forall l base head,
         labelRegExp_exec l = Some (base, head) ->
         exists pre, l = pre ++ backportLabelText base head
                     /\ is_word base = true /\ head_is_word head = true)
  /\ (forall pre base head,
         is_word base = true -> head_is_word head = true ->
         labelRegExp_exec (pre ++ backportLabelText base head) <> None).
Proof.
  split; [|split; [|split; [|split; [|split]]]].
  - split; [|split]; reflexivity.
  - intros label labels n.
    exists (fold_left (addLabelName n) labels []).
    split; [reflexivity|]. split; [apply fold_addLabelName_NoDup|].
    split; [|split; [|split]].
    + intros l base head Hin Hl Hb.
      destruct (obj_get base (fold_left (addLabelName n) labels [])) as [h|] eqn:E.
      * exists h. split; [reflexivity | now apply obj_get_In].
      * exfalso. now apply (fold_addLabelName_present n labels [] l base head).
    + intros l1 l l2 base head -> Hl Hno Hb. now apply fold_addLabelName_last.
    + intros base Hno. now rewrite fold_addLabelName_absent.
    + intros h Hin. apply (proj1 (Object_entries_In _ _)) in Hin. revert Hin.
      apply (obj_get_not_In proto). exact (fold_addLabelName_proto n labels []).
  - reflexivity.
  - intros label labels n action. apply getBackportBaseToHead_other.
  - apply labelRegExp_exec_inv.
  - intros pre base head. apply labelRegExp_exec_suffix.
Qed.

(** The invocation on such an event: merged, approved, and nothing is
    cloned or cherry-picked. *)
Example proto_label_is_not_backported :
  let r := backport world_ok
             (sample_payload "closed" None ["backport __proto__"; "type/bug"] true)
             (sample_args (sample_payload "closed" None
                             ["backport __proto__"; "type/bug"] true))
             (initial_state []) in
  fst r = Ok tt /\ calls (snd r) = [].
Proof. vm_compute. split; reflexivity. Qed.

(** ** Pull-request numbers in decimal *)

(** A pull-request number: a positive integer that a number holds
    exactly. *)
Definition is_pr_number (n : Z) : Prop := (0 < n < 2 ^ 53)%Z.

Lemma digits_value_string_of_uint (u d : Decimal.uint) :
  digits_value (NilEmpty.string_of_uint u) (DecimalPos.Unsigned.of_lu d)
  = Some (DecimalPos.Unsigned.of_lu (Decimal.revapp u d)).
Proof.
  revert d. induction u as [|u IH|u IH|u IH|u IH|u IH|u IH|u IH|u IH|u IH|u IH];
    intros d; cbn [NilEmpty.string_of_uint Decimal.revapp]; [reflexivity|..];
    cbn [digits_value]; rewrite <- IH.
  all: match goal with
       | |- context [digit_value ?a] =>
           let v := eval vm_compute in (digit_value a) in
           change (digit_value a) with v
       end.
  all: cbv iota; f_equal; cbn [DecimalPos.Unsigned.of_lu]; lia.
Qed.

Lemma digits_value_to_uint (p : positive) :
  digits_value (NilEmpty.string_of_uint (Pos.to_uint p)) 0 = Some (Npos p).
Proof.
  pose proof (digits_value_string_of_uint (Pos.to_uint p) Decimal.Nil) as H.
  change (Decimal.revapp (Pos.to_uint p) Decimal.Nil)
    with (Decimal.rev (Pos.to_uint p)) in H.
  rewrite <- DecimalPos.Unsigned.of_uint_alt, DecimalPos.Unsigned.of_to in H.
  exact H.
Qed.

Lemma to_uint_no_leading_zero (p : positive) (u : Decimal.uint) :
  Pos.to_uint p <> Decimal.D0 u.
Proof.
  intros E.
  pose proof (DecimalPos.Unsigned.to_of (Pos.to_uint p)) as H.
  rewrite DecimalPos.Unsigned.of_to in H. cbn [N.to_uint] in H.
  rewrite E in H. unfold Decimal.unorm in H. cbn [Decimal.nzhead] in H.
  destruct (Decimal.nzhead u) as [|u0|u0|u0|u0|u0|u0|u0|u0|u0|u0] eqn:Eu;
    try discriminate H.
  - injection H as ->. exact (DecimalPos.Unsigned.to_uint_nonzero p E).
  - exact (DecimalFacts.nzhead_nonzero u u0 Eu).
Qed.

(** [String(n)] is the canonical numeral of [n]. *)
Lemma Number_toString_canonical (n : Z) :
  (0 < n)%Z -> canonical_numeral (Number_toString n) = Some (Z.to_N n).
Proof.
  destruct n as [|p|p]; try lia. intros _.
  unfold Number_toString. cbn [Z.to_int NilZero.string_of_int Z.to_N].
  pose proof (digits_value_to_uint p) as Hv.
  pose proof (to_uint_no_leading_zero p) as Hz.
  pose proof (DecimalPos.Unsigned.to_uint_nonnil p) as Hn.
  unfold NilZero.string_of_uint.
  destruct (Pos.to_uint p) as [|u|u|u|u|u|u|u|u|u|u];
    [congruence | exfalso; exact (Hz u eq_refl) | ..];
    cbn [NilEmpty.string_of_uint] in *; exact Hv.
Qed.

(** C6.  The head branch.  For a label [backport <base>] the callback
    derives the head [backport-<N>-to-<base>], [N] written as its
    canonical decimal numeral; for a label [backport <base> <head>]
    it derives exactly [head].  That pair is what the callback assigns
    to the map; where the base is a key that the object can hold (any
    but [__proto__]) the map of such a label is the single entry from
    the base to that head, for the [labeled] and for the [closed]
    action. *)
Theorem head_branch_name (n : Z) (base head : string) :
  is_pr_number n -> is_word base = true -> is_word head = true ->
  canonical_numeral (Number_toString n) = Some (Z.to_N n)
  /\ option_map (destructure n) (labelRegExp_exec ("backport " ++ base))
     = Some (base, "backport-" ++ Number_toString n ++ "-to-" ++ base)
  /\ option_map (destructure n) (labelRegExp_exec ("backport " ++ base ++ " " ++ head))
     = Some (base, head)
  /\ (forall o,
        addLabelName n o ("backport " ++ base)
        = obj_set base ("backport-" ++ Number_toString n ++ "-to-" ++ base) o
        /\ addLabelName n o ("backport " ++ base ++ " " ++ head) = obj_set base head o)
  /\ (base <> "__proto__" ->
      forall (label : option string) (labels : list string),
        getBackportBaseToHead "labeled" (Some ("backport " ++ base)) labels n
        = Ok [(base, "backport-" ++ Number_toString n ++ "-to-" ++ base)]
        /\ getBackportBaseToHead "labeled" (Some ("backport " ++ base ++ " " ++ head)) labels n
           = Ok [(base, head)]
        /\ getBackportBaseToHead "closed" label ["backport " ++ base] n
           = Ok [(base, "backport-" ++ Number_toString n ++ "-to-" ++ base)]
        /\ getBackportBaseToHead "closed" label ["backport " ++ base ++ " " ++ head] n
           = Ok [(base, head)]).
Proof.
  intros Hn Hb Hh.
  pose proof (labelRegExp_exec_text base None Hb eq_refl) as E1.
  pose proof (labelRegExp_exec_text base (Some head) Hb Hh) as E2.
  unfold backportLabelText in E1, E2. rewrite app_empty_r in E1.
  assert (A1 : forall o', addLabelName n o' ("backport " ++ base)
                 = obj_set base ("backport-" ++ Number_toString n ++ "-to-" ++ base) o')
    by (intros o'; now rewrite addLabelName_exec, E1).
  assert (A2 : forall o', addLabelName n o' ("backport " ++ base ++ " " ++ head)
                 = obj_set base head o')
    by (intros o'; now rewrite addLabelName_exec, E2).
  split; [apply Number_toString_canonical; apply Hn|].
  split; [now rewrite E1|]. split; [now rewrite E2|].
  split; [intros o; split; [apply A1 | apply A2]|].
  intros Hp label labels.
  rewrite !getBackportBaseToHead_labeled, !getBackportBaseToHead_closed.
  cbn [fold_left]. rewrite A1, A2, !obj_set_own by exact Hp.
  repeat split.
Qed.

Lemma head_branch_name_witness :
  option_map (destructure 4711) (labelRegExp_exec "backport release-9.2")
    = Some ("release-9.2", "backport-4711-to-release-9.2")
  /\ option_map (destructure 4711) (labelRegExp_exec "backport release-9.2 custom-head")
    = Some ("release-9.2", "custom-head")
  /\ getBackportBaseToHead "labeled" (Some "backport release-9.2") [] 4711
    = Ok [("release-9.2", "backport-4711-to-release-9.2")]
  /\ getBackportBaseToHead "labeled" (Some "backport release-9.2 custom-head") [] 4711
    = Ok [("release-9.2", "custom-head")].
Proof.
  assert (Hn : is_pr_number 4711) by (unfold is_pr_number; lia).
  pose proof (head_branch_name 4711 "release-9.2" "custom-head" Hn eq_refl eq_refl)
    as (_ & H1 & H2 & _ & H3).
  assert (Hp : "release-9.2" <> "__proto__") by discriminate.
  destruct (H3 Hp None []) as (H4 & H5 & _).
  split; [exact H1|]. split; [exact H2|]. split; [exact H4 | exact H5].
Defined.

(** ** Reasoning about the calls a computation makes *)

(** Every call that [m] adds to the history satisfies [P]. *)
Definition emits {A} (P : call -> Prop) (m : M A) : Prop :=
  forall s r s', m s = (r, s') ->
                 exists new, calls s' = (calls s ++ new)%list /\ Forall P new.

Lemma emits_nothing {A} (P : call -> Prop) (m : M A) :
  (forall s, calls (snd (m s)) = calls s) -> emits P m.
Proof.
  intros H s r s' E. exists []. split; [|constructor].
  specialize (H s). rewrite E in H. simpl in H. now rewrite app_nil_r.
Qed.

Lemma emits_ret {A} P (a : A) : emits P (ret a).
Proof. now apply emits_nothing. Qed.

Lemma emits_throw {A} P e : emits P (@throw A e).
Proof. now apply emits_nothing. Qed.

Lemma emits_lift {A} P (r : result A) : emits P (lift r).
Proof. now apply emits_nothing. Qed.

Lemma emits_log P e : emits P (log e).
Proof. now apply emits_nothing. Qed.

Lemma emits_push P xs : emits P (push_labelsToAdd xs).
Proof. now apply emits_nothing. Qed.

Lemma emits_read P : emits P read_labelsToAdd.
Proof. now apply emits_nothing. Qed.

Lemma emits_perform (w : oracle) (P : call -> Prop) (c : call) :
  P c -> emits P (perform w c).
Proof.
  intros Hc s r s' E. unfold perform in E. inversion E; subst; clear E.
  exists [c]. split; [reflexivity | now constructor].
Qed.

Lemma emits_bind {A B} P (m : M A) (f : A -> M B) :
  emits P m -> (forall a, emits P (f a)) -> emits P (bind m f).
Proof.
  intros Hm Hf s r s' E. unfold bind in E.
  destruct (m s) as [[a|e] s1] eqn:Em.
  - destruct (Hm _ _ _ Em) as [n1 [E1 F1]].
    destruct (Hf a _ _ _ E) as [n2 [E2 F2]].
    exists (n1 ++ n2)%list. split; [|now apply Forall_app].
    now rewrite E2, E1, app_assoc.
  - inversion E; subst. now apply (Hm _ _ _ Em).
Qed.

Lemma emits_try_catch {A} P (m : M A) (h : js_error -> M A) :
  emits P m -> (forall e, emits P (h e)) -> emits P (try_catch m h).
Proof.
  intros Hm Hh s r s' E. unfold try_catch in E.
  destruct (m s) as [[a|e] s1] eqn:Em.
  - inversion E; subst. now apply (Hm _ _ _ Em).
  - destruct (Hm _ _ _ Em) as [n1 [E1 F1]].
    destruct (Hh e _ _ _ E) as [n2 [E2 F2]].
    exists (n1 ++ n2)%list. split; [|now apply Forall_app].
    now rewrite E2, E1, app_assoc.
Qed.

Lemma emits_finally {A} P (m : M A) (fin : M unit) :
  emits P m -> emits P fin -> emits P (finally m fin).
Proof.
  intros Hm Hf s r s' E. unfold finally in E.
  destruct (m s) as [r1 s1] eqn:Em.
  destruct (fin s1) as [[u|e] s2] eqn:Ef; inversion E; subst; clear E;
    destruct (Hm _ _ _ Em) as [n1 [E1 F1]];
    destruct (Hf _ _ _ Ef) as [n2 [E2 F2]];
    (exists (n1 ++ n2)%list; split; [now rewrite E2, E1, app_assoc | now apply Forall_app]).
Qed.

Lemma emits_for_of {A} P (l : list A) (body : A -> M unit) :
  (forall x, In x l -> emits P (body x)) -> emits P (for_of l body).
Proof.
  induction l as [|x l IH]; intros Hb; cbn [for_of].
  - apply emits_ret.
  - apply emits_bind; [apply Hb; now left|].
    intros _. apply IH. intros y Hy. apply Hb. now right.
Qed.


Ltac emits_step :=
  first
    [ apply emits_ret | apply emits_throw | apply emits_lift | apply emits_log
    | apply emits_push | apply emits_read
    | apply emits_bind; [|intros ?]
    | apply emits_try_catch; [|intros ?]
    | apply emits_finally
    | match goal with
      | |- emits _ (perform ?w ?c) => apply (emits_perform w _ c)
      end
    | match goal with
      | |- emits _ (if ?b then _ else _) => destruct b
      | |- emits _ (match ?x with _ => _ end) => destruct x
      end ].

(** The calls of the authorization step of [backport], all on the
    original pull request. *)
Definition authorization_call (args : BackportArgs) (c : call) : Prop :=
  let n := number (pull_request (payload args)) in
  let owner := repository_owner_login (payload args) in
  let repo := repository_name (payload args) in
  c = IssuesCreateComment (missingLabelsCommentBody (sender_login args)) n owner repo
  \/ c = IssuesAddLabels n [missingLabels] owner repo
  \/ c = IssuesRemoveLabel owner repo n missingLabels.

(** The calls that make up a backport attempt: the clone, every git
    or betterer run, and the creation of the backport pull request. *)
Definition isBackportStep (c : call) : bool :=
  match c with
  | Exec _ _ _ | GetExecOutput _ _ _ | Betterer _ _ | CloneRepo _ _ _
  | PullsCreate _ _ _ _ _ _ => true
  | _ => false
  end.

Lemma authorization_call_not_step (args : BackportArgs) (c : call) :
  authorization_call args c -> isBackportStep c = false.
Proof. intros [->|[->| ->]]; reflexivity. Qed.

Lemma backport_unmerged_emits (w : oracle) (ctx : Payload) (args : BackportArgs) :
  merged (pull_request (payload args)) = false ->
  emits (authorization_call args) (backport w ctx args).
Proof.
  intros Hm. unfold backport, backportMerged. rewrite Hm. cbn [negb].
  repeat emits_step; unfold authorization_call; auto.
Qed.

(** C7.  An event whose pull request is not merged makes no backport
    attempt: whatever the labels and whatever the outside world
    answers, the invocation clones nothing, runs no git command and
    creates no pull request; the only calls it can make are those of
    the authorization step. *)
Theorem unmerged_never_backports (w : oracle) (ctx : Payload) (args : BackportArgs)
    (s : state) :
  merged (pull_request (payload args)) = false ->
  exists new,
    calls (snd (backport w ctx args s)) = (calls s ++ new)%list
    /\ Forall (authorization_call args) new
    /\ Forall (fun c => isBackportStep c = false) new.
Proof.
  intros Hm.
  destruct (backport w ctx args s) as [r s'] eqn:E.
  destruct (backport_unmerged_emits w ctx args Hm _ _ _ E) as [new [E1 F1]].
  exists new. repeat split; trivial.
  eapply Forall_impl; [|exact F1]. apply authorization_call_not_step.
Qed.

Lemma unmerged_never_backports_witness :
  exists new,
    calls (snd (backport world_ok
                  (sample_payload "closed" None ["backport v1"; "type/bug"] false)
                  (sample_args (sample_payload "closed" None ["backport v1"; "type/bug"] false))
                  (initial_state [])))
    = ([] ++ new)%list
    /\ Forall (authorization_call
                 (sample_args (sample_payload "closed" None ["backport v1"; "type/bug"] false)))
              new
    /\ Forall (fun c => isBackportStep c = false) new.
Proof.
  apply (unmerged_never_backports world_ok
           (sample_payload "closed" None ["backport v1"; "type/bug"] false)
           (sample_args (sample_payload "closed" None ["backport v1"; "type/bug"] false))
           (initial_state [])).
  reflexivity.
Defined.

(** ** The conditions of the authorization step *)

Definition has_backport_label (labels : list string) : Prop :=
  exists l, In l labels /\ labelRegExp_exec l <> None.

Definition has_approval_label (labels : list string) : Prop :=
  exists l, In l labels /\ In l backportLabels.

Lemma includes_In (l : list string) (x : string) : includes l x = true <-> In x l.
Proof.
  induction l as [|y l IH]; cbn [includes In]; [split; [discriminate | tauto]|].
  destruct (String.eqb y x) eqn:E.
  - apply String.eqb_eq in E. tauto.
  - apply String.eqb_neq in E. rewrite IH. tauto.
Qed.

Lemma includes_false (l : list string) (x : string) : includes l x = false <-> ~ In x l.
Proof. rewrite <- includes_In. destruct (includes l x); split; congruence. Qed.

Lemma anyLabelMatches_true (labels : list string) :
  anyLabelMatches labels = true <-> has_backport_label labels.
Proof.
  unfold has_backport_label.
  induction labels as [|l labels IH]; cbn [anyLabelMatches].
  - split; [discriminate | intros [l [[] _]]].
  - rewrite labelRegExp_test_exec.
    destruct (labelRegExp_exec l) as [x|] eqn:E.
    + split; [|trivial]. intros _. exists l. split; [now left | congruence].
    + rewrite IH. split.
      * intros [l' [Hin Hl']]. exists l'. split; [now right | exact Hl'].
      * intros [l' [[->|Hin] Hl']]; [congruence|]. now exists l'.
Qed.

Lemma matched_in_nil (x : string) (bl : list string) :
  matched_in x bl = [] <-> ~ In x bl.
Proof.
  induction bl as [|b bl IH]; cbn [matched_in In]; [tauto|].
  destruct (String.eqb b x) eqn:E.
  - apply String.eqb_eq in E. split; [discriminate | tauto].
  - apply String.eqb_neq in E. rewrite IH. tauto.
Qed.

Lemma getMatchedBackportLabels_nil (labels bl : list string) :
  getMatchedBackportLabels labels bl = [] <-> (forall l, In l labels -> ~ In l bl).
Proof.
  induction labels as [|x labels IH]; cbn [getMatchedBackportLabels In].
  - split; [intros _ l [] | trivial].
  - split.
    + intros H. apply app_eq_nil in H as [H1 H2].
      intros l [<-|Hin]; [now apply matched_in_nil | now apply IH].
    + intros H. rewrite (proj2 (matched_in_nil x bl)) by (apply H; now left).
      apply IH. intros l Hl. apply H. now right.
Qed.

Lemma no_approval_matched (labels : list string) :
  ~ has_approval_label labels <-> getMatchedBackportLabels labels backportLabels = [].
Proof.
  rewrite getMatchedBackportLabels_nil. unfold has_approval_label. split.
  - intros H l Hl Hb. apply H. now exists l.
  - intros H [l [Hl Hb]]. exact (H l Hl Hb).
Qed.

Lemma approval_matched (labels : list string) :
  has_approval_label labels ->
  Nat.eqb (List.length (getMatchedBackportLabels labels backportLabels)) 0 = false.
Proof.
  intros H.
  destruct (getMatchedBackportLabels labels backportLabels) eqn:E; [|reflexivity].
  exfalso. now apply no_approval_matched in E.
Qed.

(** The trigger gate lets an event through when its action is
    [closed], or when the label that triggered it is a backport label
    or an approval label. *)
Definition passes_gate (ctx : Payload) : Prop :=
  action ctx = "closed"
  \/ exists name, label ctx = Some name
                  /\ (labelRegExp_exec name <> None \/ In name backportLabels).

Lemma gateReturns_false (ctx : Payload) : gateReturns ctx = false <-> passes_gate ctx.
Proof.
  unfold gateReturns, passes_gate.
  destruct (String.eqb (action ctx) "closed") eqn:Ea.
  - apply String.eqb_eq in Ea. tauto.
  - apply String.eqb_neq in Ea. rewrite negb_false_iff, orb_true_iff.
    rewrite labelRegExp_test_exec, includes_In.
    destruct (label ctx) as [name|].
    + split.
      * intros H. right. exists name. split; [reflexivity|].
        destruct (labelRegExp_exec name); [left; congruence | destruct H; [discriminate | now right]].
      * intros [H|[name' [[= <-] H]]]; [contradiction|].
        destruct (labelRegExp_exec name); [now left | destruct H; [congruence | now right]].
    + split.
      * intros [H|H]; [discriminate H | destruct H as [H|[H|[H|[]]]]; discriminate H].
      * intros [H|[name' [H _]]]; [contradiction | discriminate H].
Qed.

(** ** The authorization step *)

Section Authorization.

Variable w : oracle.
Variable ctx : Payload.
Variable args : BackportArgs.
Variable s : state.

Let pr := pull_request (payload args).
Let owner := repository_owner_login (payload args).
Let repo := repository_name (payload args).

Definition rejectionComment : call :=
  IssuesCreateComment (missingLabelsCommentBody (sender_login args)) (number pr) owner repo.

Definition addMissingLabels : call :=
  IssuesAddLabels (number pr) [missingLabels] owner repo.

Definition removeMissingLabels : call :=
  IssuesRemoveLabel owner repo (number pr) missingLabels.

(** The invocation posts the comment, then adds the marker, and does
    nothing else; a call that rejects ends it there. *)
Definition rejected : Prop :=
  match w (calls s) rejectionComment with
  | Throw e =>
      fst (backport w ctx args s) = Throw e
      /\ calls (snd (backport w ctx args s)) = (calls s ++ [rejectionComment])%list
  | Ok _ =>
      fst (backport w ctx args s)
        = w (calls s ++ [rejectionComment])%list addMissingLabels
      /\ calls (snd (backport w ctx args s))
         = (calls s ++ [rejectionComment; addMissingLabels])%list
  end.

(** The invocation removes the marker and goes on with the merged
    test and what follows it. *)
Definition marker_removed_then_proceeds : Prop :=
  let s1 :=
    {| calls := (calls s ++ [removeMissingLabels])%list;
       output := (output s ++ [ConsoleLog ("payloadAction: " ++ action ctx)])%list;
       labelsToAdd := labelsToAdd s |} in
  match w (calls s) removeMissingLabels with
  | Throw e => backport w ctx args s = (Throw e, s1)
  | Ok _ =>
      backport w ctx args s
      = backportMerged w args (getMatchedBackportLabels (labels pr) backportLabels) s1
  end.

Definition authorization_policy : Prop :=
  has_backport_label (labels pr) ->
  (~ has_approval_label (labels pr) -> ~ In missingLabels (labels pr) -> rejected)
  /\ (has_approval_label (labels pr) -> In missingLabels (labels pr) ->
      marker_removed_then_proceeds).

(** C3, amended.  For every event that passes the trigger gate
    (its action is [closed], or the label that triggered it is a
    backport label or an approval label) and whose labels contain a
    backport label: with no approval label and no [missing-labels]
    marker, the invocation posts the explanatory comment, adds
    [missing-labels] and does nothing else; with an approval label and
    the marker set, it removes the marker and goes on. *)
Theorem authorization_policy_gated :
  passes_gate ctx -> authorization_policy.
Proof.
  intros Hgate Hbp. apply gateReturns_false in Hgate.
  apply anyLabelMatches_true in Hbp. split.
  - intros Hno Hmiss. apply no_approval_matched in Hno.
    apply includes_false in Hmiss.
    unfold rejected, backport. fold pr owner repo.
    rewrite Hgate, Hbp, Hno, Hmiss. cbn [andb negb List.length Nat.eqb].
    unfold bind, log, perform. cbn [calls output labelsToAdd].
    fold rejectionComment addMissingLabels.
    destruct (w (calls s) rejectionComment) as [u|e]; cbn [fst snd calls].
    + split; [reflexivity|]. now rewrite <- app_assoc.
    + split; reflexivity.
  - intros Hap Hmiss. apply approval_matched in Hap.
    apply includes_In in Hmiss.
    unfold marker_removed_then_proceeds, backport. fold pr owner repo.
    rewrite Hgate, Hbp, Hap, Hmiss. cbn [andb negb].
    unfold bind, log, perform. cbn [calls output labelsToAdd].
    fold removeMissingLabels.
    destruct (w (calls s) removeMissingLabels) as [u|e]; reflexivity.
Qed.

End Authorization.

Lemma authorization_policy_gated_witness :
  authorization_policy world_ok
    (sample_payload "closed" None ["backport v1"; "missing-labels"; "type/bug"] true)
    (sample_args (sample_payload "closed" None ["backport v1"; "missing-labels"; "type/bug"] true))
    (initial_state []).
Proof.
  apply (authorization_policy_gated world_ok
           (sample_payload "closed" None ["backport v1"; "missing-labels"; "type/bug"] true)).
  left. reflexivity.
Defined.

(** C3 as stated fails: a [labeled] event whose new label is neither
    a backport label nor an approval label stops at the trigger gate,
    so no comment is posted although the labels contain a backport
    label, no approval label and no marker. *)
Lemma authorization_policy_ungated_fails :
  ~ authorization_policy world_ok
      (sample_payload "labeled" (Some "needs-review") ["backport v1"; "needs-review"] true)
      (sample_args
         (sample_payload "labeled" (Some "needs-review") ["backport v1"; "needs-review"] true))
      (initial_state []).
Proof.
  intros H. destruct H as [Hrej _].
  - exists "backport v1". split; [now left | now vm_compute].
  - assert (R : rejected world_ok
             (sample_payload "labeled" (Some "needs-review") ["backport v1"; "needs-review"] true)
             (sample_args
                (sample_payload "labeled" (Some "needs-review")
                   ["backport v1"; "needs-review"] true))
             (initial_state [])).
    { apply Hrej; [apply no_approval_matched | apply includes_false]; reflexivity. }
    vm_compute in R. destruct R as [_ R]. discriminate R.
Qed.

(** ** Events whose map is empty *)

Lemma emits_bind_lift_Ok {A B} P (a : A) (f : A -> M B) :
  emits P (f a) -> emits P (bind (lift (Ok a)) f).
Proof. intros H s r s' E. exact (H s r s' E). Qed.

Lemma backport_empty_map_emits (w : oracle) (ctx : Payload) (args : BackportArgs) :
  getBackportBaseToHead (action (payload args)) (label (payload args))
    (labels (pull_request (payload args))) (number (pull_request (payload args)))
  = Ok [] ->
  emits (authorization_call args) (backport w ctx args).
Proof.
  intros Hmap.
  destruct (merged (pull_request (payload args))) eqn:Hm;
    [|now apply backport_unmerged_emits].
  unfold backport, backportMerged. rewrite Hm, Hmap. cbn [negb].
  repeat first
    [ match goal with
      | |- emits _ (bind (lift (Ok _)) _) =>
          apply emits_bind_lift_Ok;
          cbv beta iota delta [Object_keys map List.length Nat.eqb]
      end
    | emits_step ];
    unfold authorization_call; auto.
Qed.

Lemma storable_spec (l : string) :
  storable l = true <->
  exists base head, labelRegExp_exec l = Some (base, head) /\ base <> proto.
Proof.
  unfold storable. destruct (labelRegExp_exec l) as [[b h]|].
  - rewrite negb_true_iff, String.eqb_neq. split.
    + intros Hb. now exists b, h.
    + now intros (b' & h' & [= <- <-] & Hb).
  - split; [discriminate | now intros (b & h & E & _)].
Qed.

Lemma names_proto_spec (l : string) :
  names_proto l = true <-> exists head, labelRegExp_exec l = Some (proto, head).
Proof.
  unfold names_proto. destruct (labelRegExp_exec l) as [[b h]|].
  - rewrite String.eqb_eq. split.
    + intros ->. now exists h.
    + now intros (h' & [= -> _]).
  - split; [discriminate | now intros (h & E)].
Qed.

Lemma accepted_cases (l : string) :
  labelRegExp_test l = orb (storable l) (names_proto l).
Proof.
  rewrite labelRegExp_test_exec. unfold storable, names_proto.
  destruct (labelRegExp_exec l) as [[b h]|]; [|reflexivity].
  now destruct (String.eqb b proto).
Qed.

(** A [closed] map is empty exactly when no label is storable. *)
Lemma fold_addLabelName_storable (n : Z) (labels : list string) (l : string) :
  In l labels -> storable l = true -> fold_left (addLabelName n) labels [] <> [].
Proof.
  intros Hin Hs Hm. apply storable_spec in Hs as (b & h & El & Hb).
  pose proof (fold_addLabelName_present n labels [] l b h Hin El Hb) as Hp.
  rewrite Hm in Hp. now cbn in Hp.
Qed.

Lemma fold_addLabelName_none (n : Z) (names : list string) (o : JSObject) :
  (forall l, In l names -> storable l = false) ->
  fold_left (addLabelName n) names o = o.
Proof.
  induction names as [|l names IH]; intros H; cbn [fold_left]; [reflexivity|].
  rewrite addLabelName_exec.
  pose proof (H l (or_introl eq_refl)) as Hl. unfold storable in Hl.
  destruct (labelRegExp_exec l) as [[b h]|].
  - apply negb_false_iff, String.eqb_eq in Hl. subst b. rewrite obj_set_proto.
    apply IH. intros l' Hl'. apply H. now right.
  - apply IH. intros l' Hl'. apply H. now right.
Qed.

Lemma empty_map_no_match (n : Z) (labels : list string) :
  existsb names_proto labels = false ->
  fold_left (addLabelName n) labels [] = [] -> anyLabelMatches labels = false.
Proof.
  intros Hp Hm. destruct (anyLabelMatches labels) eqn:E; [|reflexivity].
  apply anyLabelMatches_true in E as [l [Hin Hl]].
  assert (Ht : labelRegExp_test l = true).
  { rewrite labelRegExp_test_exec. destruct (labelRegExp_exec l); congruence. }
  rewrite accepted_cases in Ht. apply orb_true_iff in Ht as [Hs|Hn].
  - exfalso. exact (fold_addLabelName_storable n labels l Hin Hs Hm).
  - assert (Hex : existsb names_proto labels = true)
      by (apply existsb_exists; now exists l).
    congruence.
Qed.

(** The claim of C8 as the specification states it. *)
Definition no_side_effects (w : oracle) (ctx : Payload) (args : BackportArgs)
    (s : state) : Prop :=
  calls (snd (backport w ctx args s)) = calls s.

(** C8, amended.  For every event whose resolved map is empty, the
    invocation clones nothing, runs no git command and creates no
    pull request; the only calls it can make are those of the
    authorization step (the rejection comment and the marker, or the
    removal of the marker).  When the action is [closed] and no label
    names the base [__proto__] it makes no call at all. *)
Theorem empty_map_effects (w : oracle) (ctx : Payload) (args : BackportArgs) (s : state) :
  getBackportBaseToHead (action (payload args)) (label (payload args))
    (labels (pull_request (payload args))) (number (pull_request (payload args)))
  = Ok [] ->
  (exists new,
      calls (snd (backport w ctx args s)) = (calls s ++ new)%list
      /\ Forall (authorization_call args) new
      /\ Forall (fun c => isBackportStep c = false) new)
  /\ (action (payload args) = "closed" ->
      existsb names_proto (labels (pull_request (payload args))) = false ->
      no_side_effects w ctx args s).
Proof.
  intros Hmap. split.
  - destruct (backport w ctx args s) as [r s'] eqn:E.
    destruct (backport_empty_map_emits w ctx args Hmap _ _ _ E) as [new [E1 F1]].
    exists new. repeat split; trivial.
    eapply Forall_impl; [|exact F1]. apply authorization_call_not_step.
  - intros Hclosed Hproto. unfold no_side_effects.
    assert (Hno : anyLabelMatches (labels (pull_request (payload args))) = false).
    { rewrite Hclosed, getBackportBaseToHead_closed in Hmap.
      injection Hmap as Hmap. now apply empty_map_no_match in Hmap. }
    unfold backport, backportMerged. rewrite Hno, Hmap. cbn [andb].
    destruct (gateReturns ctx); [reflexivity|].
    destruct (merged (pull_request (payload args))); reflexivity.
Qed.

Lemma empty_map_effects_witness :
  no_side_effects world_ok
    (sample_payload "closed" None ["type/bug"; "missing-labels"] true)
    (sample_args (sample_payload "closed" None ["type/bug"; "missing-labels"] true))
    (initial_state []).
Proof.
  apply (empty_map_effects world_ok
           (sample_payload "closed" None ["type/bug"; "missing-labels"] true)
           (sample_args (sample_payload "closed" None ["type/bug"; "missing-labels"] true))
           (initial_state [])); reflexivity.
Defined.

(** C8 as stated fails: on a [labeled] event that adds an approval
    label to a pull request carrying a backport label and the marker,
    the map is empty and yet the marker is removed through the API. *)
Lemma empty_map_still_removes_marker :
  getBackportBaseToHead "labeled" (Some "type/bug")
    ["backport v1"; "missing-labels"; "type/bug"] 42 = Ok []
  /\ calls (snd (backport world_ok
       (sample_payload "labeled" (Some "type/bug")
          ["backport v1"; "missing-labels"; "type/bug"] true)
       (sample_args (sample_payload "labeled" (Some "type/bug")
          ["backport v1"; "missing-labels"; "type/bug"] true))
       (initial_state [])))
     = [IssuesRemoveLabel "grafana" "grafana" 42 "missing-labels"]
  /\ ~ no_side_effects world_ok
       (sample_payload "labeled" (Some "type/bug")
          ["backport v1"; "missing-labels"; "type/bug"] true)
       (sample_args (sample_payload "labeled" (Some "type/bug")
          ["backport v1"; "missing-labels"; "type/bug"] true))
       (initial_state []).
Proof.
  split; [reflexivity|]. split; [now vm_compute|].
  unfold no_side_effects. now vm_compute.
Qed.

(** Why the [closed] clause leaves the labels that name [__proto__]
    aside: such a label counts as an intent to backport in the
    authorization step, and the map does not hold it. *)
Example proto_label_is_still_rejected :
  getBackportBaseToHead "closed" None ["backport __proto__"] 42 = Ok []
  /\ calls (snd (backport world_ok
        (sample_payload "closed" None ["backport __proto__"] true)
        (sample_args (sample_payload "closed" None ["backport __proto__"] true))
        (initial_state [])))
     = [ rejectionComment
           (sample_args (sample_payload "closed" None ["backport __proto__"] true));
         IssuesAddLabels 42 ["missing-labels"] "grafana" "grafana" ].
Proof. split; [reflexivity | now vm_compute]. Qed.

(** ** One branch after another *)

Definition is_prefix (h h' : list call) : Prop := exists rest, h' = (h ++ rest)%list.

Lemma is_prefix_refl (h : list call) : is_prefix h h.
Proof. exists []. now rewrite app_nil_r. Qed.

Lemma is_prefix_trans (h1 h2 h3 : list call) :
  is_prefix h1 h2 -> is_prefix h2 h3 -> is_prefix h1 h3.
Proof. intros [r1 ->] [r2 ->]. exists (r1 ++ r2)%list. now rewrite app_assoc. Qed.

Lemma is_prefix_app (h r : list call) : is_prefix h (h ++ r)%list.
Proof. now exists r. Qed.

Lemma emits_prefix {A} (m : M A) (s : state) :
  emits (fun _ => True) m -> is_prefix (calls s) (calls (snd (m s))).
Proof.
  intros H. destruct (m s) as [r s'] eqn:E. cbn [snd].
  destruct (H _ _ _ E) as [new [-> _]]. apply is_prefix_app.
Qed.

Section BranchLoop.

Variable w : oracle.
Variable args : BackportArgs.
Variable matchedLabels : list string.
Variable commitToBackport : string.

Let pr := pull_request (payload args).
Let owner := repository_owner_login (payload args).
Let repo := repository_name (payload args).

(** The call of [backportOnce] that the loop makes for an entry. *)
Definition attempt (entry : string * string) : M unit :=
  backportOnce w (fst entry)
    ("Backport " ++ commitToBackport ++ " from #" ++ Number_toString (number pr))
    commitToBackport (snd entry) owner repo
    (renderTitle (titleTemplate args) (fst entry) (title pr))
    (milestone pr) (merged_by pr).

Definition errorMessageOf (e : js_error) : string :=
  if instanceof_Error e then err_message e else "Unknown error while backporting".

(** The two calls that report a failed attempt on the original pull
    request. *)
Definition failureReport (entry : string * string) (e : js_error) : list call :=
  [ IssuesCreateComment
      (getFailedBackportCommentBody (fst entry) commitToBackport (errorMessageOf e)
         (snd entry))
      (number pr) owner repo;
    IssuesAddLabels (number pr) ["backport-failed"] owner repo ].

(** The world accepts the failure report whenever it is sent. *)
Definition reports_succeed : Prop :=
  forall (h : list call) (body : string),
    w h (IssuesCreateComment body (number pr) owner repo) = Ok tt
    /\ w h (IssuesAddLabels (number pr) ["backport-failed"] owner repo) = Ok tt.

(** Between the histories [h] and [h'] the entry was attempted: the
    attempt started with [git switch <base>], and if it threw, the
    failure report followed it. *)
Definition attempted (entry : string * string) (h h' : list call) : Prop :=
  exists s1 r s2 rest,
    is_prefix h (calls s1)
    /\ attempt entry s1 = (r, s2)
    /\ calls s2 = (calls s1 ++ Exec "git" ["switch"; fst entry] repo :: rest)%list
    /\ match r with
       | Ok _ => is_prefix (calls s2) h'
       | Throw e => is_prefix (calls s2 ++ failureReport entry e)%list h'
       end.

Lemma backportOnce_emits base body commit head o r t ms mb :
  emits (fun _ => True) (backportOnce w base body commit head o r t ms mb).
Proof.
  unfold backportOnce, cherryPick, publish, fixBettererConflict, isBettererConflict, git.
  repeat emits_step; exact I.
Qed.

Lemma attempt_starts (entry : string * string) (s : state) :
  exists rest,
    calls (snd (attempt entry s))
    = (calls s ++ Exec "git" ["switch"; fst entry] repo :: rest)%list.
Proof.
  unfold attempt, backportOnce. unfold bind at 1. unfold git at 1. unfold perform at 1.
  destruct (w (calls s) (Exec "git" ["switch"; fst entry] repo)) as [u|e].
  - match goal with
    | |- context [snd (?m ?st)] =>
        assert (Hp : is_prefix (calls st) (calls (snd (m st))))
    end.
    { apply emits_prefix. unfold cherryPick, publish, fixBettererConflict,
        isBettererConflict, git. repeat emits_step; exact I. }
    destruct Hp as [rest Hp]. exists rest. rewrite Hp. cbn [calls].
    now rewrite <- app_assoc.
  - exists []. reflexivity.
Qed.

Lemma backportEntry_attempt (entry : string * string) (s : state) :
  reports_succeed ->
  exists s1 r s2 s',
    calls s1 = calls s
    /\ attempt entry s1 = (r, s2)
    /\ backportEntry w args matchedLabels commitToBackport entry s = (Ok tt, s')
    /\ calls s' = (calls s2 ++ match r with
                               | Ok _ => []
                               | Throw e => failureReport entry e
                               end)%list.
Proof.
  intros Hrep. destruct entry as [base head].
  unfold backportEntry, group. fold pr owner repo.
  unfold bind at 1. cbn [push_labelsToAdd].
  unfold bind at 1. cbn [log].
  match goal with
  | |- context [finally _ _ ?st] => set (s1 := st)
  end.
  destruct (attempt (base, head) s1) as [r s2] eqn:Ea.
  exists s1, r, s2.
  pose proof Ea as Eb.
  unfold attempt in Eb. cbn [fst snd] in Eb. fold pr owner repo in Eb.
  unfold finally, try_catch. rewrite Eb.
  destruct r as [[]|e].
  - eexists. split; [reflexivity|]. split; [exact Ea|]. split; [reflexivity|].
    cbn [log calls]. now rewrite app_nil_r.
  - unfold reportFailure, bind, log, perform. cbn [calls output labelsToAdd].
    fold (errorMessageOf e).
    destruct (Hrep (calls s2)
                (getFailedBackportCommentBody base commitToBackport (errorMessageOf e) head))
      as [Hc _].
    rewrite Hc.
    destruct (Hrep (calls s2 ++
                [IssuesCreateComment
                   (getFailedBackportCommentBody base commitToBackport (errorMessageOf e) head)
                   (number pr) owner repo])%list "") as [_ Hl].
    rewrite Hl.
    eexists. split; [reflexivity|]. split; [exact Ea|]. split; [reflexivity|].
    cbn [calls]. unfold failureReport. cbn [fst snd].
    now rewrite <- app_assoc.
Qed.

Lemma backport_loop_attempts_all :
  reports_succeed ->
  forall (entries : list (string * string)) (s : state),
  exists s',
    for_of entries (backportEntry w args matchedLabels commitToBackport) s = (Ok tt, s')
    /\ is_prefix (calls s) (calls s')
    /\ forall entry, In entry entries -> attempted entry (calls s) (calls s').
Proof.
  intros Hrep entries.
  induction entries as [|entry entries IH]; intros s; cbn [for_of].
  - exists s. repeat split; [apply is_prefix_refl | intros ? []].
  - destruct (backportEntry_attempt entry s Hrep) as (s1 & r & s2 & s3 & E1 & Ea & Ee & E3).
    destruct (IH s3) as (s' & El & Hp & Hall).
    exists s'. unfold bind. rewrite Ee.
    destruct (attempt_starts entry s1) as [rest Hstart]. rewrite Ea in Hstart. cbn [snd] in Hstart.
    assert (H13 : is_prefix (calls s) (calls s3)).
    { rewrite E3, Hstart, <- E1, <- app_assoc. apply is_prefix_app. }
    repeat split; [exact El | now apply (is_prefix_trans _ (calls s3)) |].
    intros entry' [<-|Hin].
    + exists s1, r, s2, rest. repeat split; trivial.
      * rewrite E1. apply is_prefix_refl.
      * destruct r as [[]|e]; [rewrite app_nil_r in E3|]; now rewrite <- E3.
    + destruct (Hall entry' Hin) as (t1 & r' & t2 & rest' & Hp1 & Ha' & Hs' & Hr').
      exists t1, r', t2, rest'. repeat split; trivial.
      now apply (is_prefix_trans _ (calls s3)).
Qed.

(** The claim of C4: the loop over the map never throws and every
    entry is attempted, a failed attempt being followed by its report. *)
Definition every_entry_attempted (m : JSObject) (s : state) : Prop :=
  exists s',
    for_of (Object_entries m) (backportEntry w args matchedLabels commitToBackport) s
    = (Ok tt, s')
    /\ forall entry, In entry (Object_entries m) -> attempted entry (calls s) (calls s').

(** C4, amended.  Provided the world accepts the failure report, the
    loop over the entries of the map never throws: every entry is
    attempted (its [git switch <base>] is run), whatever happened to
    the entries before it, and an attempt that threw is followed by
    the failure comment, which carries the recovery script, and by the
    [backport-failed] label on the original pull request. *)
Theorem every_branch_attempted (m : JSObject) (s : state) :
  reports_succeed -> every_entry_attempted m s.
Proof.
  intros Hrep.
  destruct (backport_loop_attempts_all Hrep (Object_entries m) s) as (s' & El & _ & Hall).
  now exists s'.
Qed.

End BranchLoop.

Lemma every_branch_attempted_witness :
  every_entry_attempted world_conflict
    (sample_args (sample_payload "closed" None
                    ["backport v1"; "backport v2"; "type/bug"] true))
    ["type/bug"] "abc123"
    [("v1", "backport-42-to-v1"); ("v2", "backport-42-to-v2")]
    (initial_state []).
Proof.
  apply (every_branch_attempted world_conflict
           (sample_args (sample_payload "closed" None
                           ["backport v1"; "backport v2"; "type/bug"] true))
           ["type/bug"] "abc123"
           [("v1", "backport-42-to-v1"); ("v2", "backport-42-to-v2")]
           (initial_state [])).
  intros h body. split; reflexivity.
Defined.

(** C4 as stated fails when the report itself is refused: with a
    token that may not write, the pull request for the first entry
    cannot be created, the failure comment is refused too, its error
    leaves the loop, and the second entry is never reached. *)
Lemma refused_report_ends_the_loop :
  ~ every_entry_attempted world_read_only
      (sample_args (sample_payload "closed" None
                      ["backport v1"; "backport v2"; "type/bug"] true))
      ["type/bug"] "abc123"
      [("v1", "backport-42-to-v1"); ("v2", "backport-42-to-v2")]
      (initial_state []).
Proof.
  intros (s' & E & _). vm_compute in E. discriminate E.
Qed.

Example two_conflicts_both_reported :
  filter (fun c => negb (isBackportStep c))
    (calls (snd (backport world_conflict
       (sample_payload "closed" None ["backport v1"; "backport v2"; "type/bug"] true)
       (sample_args (sample_payload "closed" None
                       ["backport v1"; "backport v2"; "type/bug"] true))
       (initial_state []))))
  = [ IssuesCreateComment
        (getFailedBackportCommentBody "v1" "abc123" (err_message conflict_error)
           "backport-42-to-v1") 42 "grafana" "grafana";
      IssuesAddLabels 42 ["backport-failed"] "grafana" "grafana";
      IssuesCreateComment
        (getFailedBackportCommentBody "v2" "abc123" (err_message conflict_error)
           "backport-42-to-v2") 42 "grafana" "grafana";
      IssuesAddLabels 42 ["backport-failed"] "grafana" "grafana" ].
Proof. vm_compute. reflexivity. Qed.

(** ** When the listing is [.betterer.results] alone *)

Lemma trimEnd_app (f t : string) :
  no_white f = true -> trimEnd (f ++ t) = f ++ trimEnd t.
Proof.
  induction f as [|a f IH]; intros Hf; [reflexivity|].
  cbn [no_white] in Hf. apply andb_true_iff in Hf as [Ha Hf].
  apply negb_true_iff in Ha.
  change (String a f ++ t) with (String a (f ++ t)). cbn [trimEnd].
  rewrite (IH Hf), Ha.
  change (String a f ++ trimEnd t) with (String a (f ++ trimEnd t)).
  now destruct (f ++ trimEnd t).
Qed.

Lemma trimStart_path (f t : string) :
  is_path f = true -> trimStart (f ++ t) = f ++ t.
Proof.
  destruct f as [|a f]; [discriminate|]. cbn [is_path no_white].
  intros H. apply andb_true_iff in H as [Ha _]. apply negb_true_iff in Ha.
  change (String a f ++ t) with (String a (f ++ t)). cbn [trimStart]. now rewrite Ha.
Qed.

Lemma no_white_app_LF (x y : string) : no_white (x ++ LF ++ y) = false.
Proof.
  induction x as [|a x IH]; [reflexivity|].
  change (String a x ++ LF ++ y) with (String a (x ++ LF ++ y)).
  cbn [no_white]. rewrite IH. apply andb_false_r.
Qed.

Lemma trim_listing (f : string) (rest : list string) :
  is_path f = true -> Forall (fun g => is_path g = true) rest ->
  trim (listing (f :: rest))
  = match rest with
    | [] => f
    | g :: rest' => f ++ LF ++ g ++ trimEnd (LF ++ listing rest')
    end.
Proof.
  intros Hf Hrest. unfold trim. cbn [listing].
  rewrite trimStart_path by exact Hf.
  assert (Hnw : no_white f = true) by (destruct f; [discriminate | exact Hf]).
  rewrite trimEnd_app by exact Hnw.
  destruct rest as [|g rest']; cbn [listing].
  - change (trimEnd (LF ++ "")) with "". now rewrite app_empty_r.
  - inversion Hrest as [|? ? Hg _]; subst.
    assert (Hgw : no_white g = true) by (destruct g; [discriminate | exact Hg]).
    f_equal. change (LF ++ g ++ LF ++ listing rest')
      with (String (ascii_of_nat 10) (g ++ LF ++ listing rest')).
    cbn [trimEnd]. rewrite trimEnd_app by exact Hgw.
    destruct g as [|b g]; [discriminate|]. reflexivity.
Qed.

(** The test of [isBettererConflict] holds exactly when the listing
    has one path and that path is [.betterer.results]. *)
Lemma sole_betterer_conflict (files : list string) :
  Forall (fun f => is_path f = true) files ->
  (trim (listing files) = BETTERER_RESULTS_PATH <-> files = [BETTERER_RESULTS_PATH]).
Proof.
  intros Hfiles. split.
  - destruct files as [|f rest]; [intros H; discriminate H|].
    inversion Hfiles as [|? ? Hf Hrest]; subst.
    rewrite (trim_listing f rest Hf Hrest).
    destruct rest as [|g rest']; [now intros ->|].
    intros H. exfalso.
    assert (Hw : no_white BETTERER_RESULTS_PATH = true) by reflexivity.
    rewrite <- H in Hw. now rewrite no_white_app_LF in Hw.
  - intros ->. reflexivity.
Qed.

(** ** The conflict policy of the cherry-pick *)

Section ConflictPolicy.

Variable w : oracle.
Variables base body commitToBackport head owner repo title : string.
Variable milestone : option Milestone.
Variable mergedBy : option string.
Variable s : state.

Definition pickCall : call := Exec "git" ["cherry-pick"; "-x"; commitToBackport] repo.
Definition diffCall : call :=
  GetExecOutput "git" ["diff"; "--name-only"; "--diff-filter=U"] repo.
Definition abortCall : call := Exec "git" ["cherry-pick"; "--abort"] repo.
Definition bettererCall : call := Betterer true repo.
Definition addCall : call := Exec "git" ["add"; BETTERER_RESULTS_PATH] repo.
Definition continueCall : call :=
  Exec "git" ["-c"; "core.editor=true"; "cherry-pick"; "--continue"] repo.

(** [backportOnce] from the cherry-pick on. *)
Definition fromCherryPick : M unit :=
  cherryPick w repo commitToBackport ;;
  publish w base body head owner repo title milestone mergedBy.

(** The state in which the conflict is resolved or given up: the
    cherry-pick has failed and the unmerged files have been listed. *)
Definition afterDiff : state :=
  {| calls := (calls s ++ [pickCall; diffCall])%list;
     output := output s; labelsToAdd := labelsToAdd s |}.

(** The error that leaves the [catch] after the abort: the one that is
    re-thrown, unless the abort itself fails. *)
Definition rethrown (h : list call) (e : js_error) : result unit :=
  match w h abortCall with
  | Ok _ => Throw e
  | Throw e' => Throw e'
  end.

Lemma fixBettererConflict_calls :
  exists rest,
    calls (snd (fixBettererConflict w repo afterDiff))
    = (calls afterDiff ++ bettererCall :: rest)%list
    /\ Forall (fun c => c = addCall \/ c = continueCall) rest
    /\ (forall s3, fixBettererConflict w repo afterDiff = (Ok tt, s3) ->
                   rest = [addCall; continueCall]).
Proof.
  unfold fixBettererConflict, git, bind, perform. cbn [calls].
  fold bettererCall addCall continueCall.
  set (h2 := calls afterDiff).
  destruct (w h2 bettererCall) as [u|e].
  - destruct (w (h2 ++ [bettererCall])%list addCall) as [u'|e'].
    + exists [addCall; continueCall].
      split; [|split; [auto|trivial]].
      destruct (w ((h2 ++ [bettererCall]) ++ [addCall])%list continueCall);
        cbn [snd calls]; now rewrite <- !app_assoc.
    + exists [addCall]. cbn [snd calls].
      split; [now rewrite <- !app_assoc | split; [auto | discriminate]].
  - exists []. cbn [snd calls]. split; [reflexivity | split; [auto | discriminate]].
Qed.

Lemma fromCherryPick_conflict (e0 : js_error) (out : ExecOutput) :
  w (calls s) pickCall = Throw e0 ->
  w (calls s ++ [pickCall])%list diffCall = Ok out ->
  fromCherryPick s =
  if String.eqb (trim (stdout out)) BETTERER_RESULTS_PATH then
    match fixBettererConflict w repo afterDiff with
    | (Ok _, s3) => publish w base body head owner repo title milestone mergedBy s3
    | (Throw e2, s3) =>
        (rethrown (calls s3) e2,
         {| calls := (calls s3 ++ [abortCall])%list; output := output s3;
            labelsToAdd := labelsToAdd s3 |})
    end
  else
    (rethrown (calls afterDiff) e0,
     {| calls := (calls afterDiff ++ [abortCall])%list; output := output s;
        labelsToAdd := labelsToAdd s |}).
Proof.
  intros Hpick Hdiff.
  unfold fromCherryPick, cherryPick, isBettererConflict.
  unfold bind at 1. unfold try_catch at 1. unfold git at 1. unfold perform at 1.
  fold pickCall. rewrite Hpick.
  unfold bind at 1. unfold bind at 1. unfold perform at 1. cbn [calls output labelsToAdd].
  fold diffCall. rewrite Hdiff. cbn [ret].
  replace ((calls s ++ [pickCall]) ++ [diffCall])%list
    with (calls s ++ [pickCall; diffCall])%list by now rewrite <- app_assoc.
  fold afterDiff.
  destruct (String.eqb (trim (stdout out)) BETTERER_RESULTS_PATH).
  - unfold try_catch.
    destruct (fixBettererConflict w repo afterDiff) as [[[]|e2] s3]; [reflexivity|].
    unfold bind, git, perform, throw, rethrown. fold abortCall.
    destruct (w (calls s3) abortCall); reflexivity.
  - unfold bind, git, perform, throw, rethrown. cbn [calls output labelsToAdd].
    fold abortCall. destruct (w (calls afterDiff) abortCall); reflexivity.
Qed.

(** C2, amended.  After a failed cherry-pick whose unmerged files
    could be listed: the betterer tool is run (in update mode, then
    the file is staged and the cherry-pick continued without an
    editor) exactly when [.betterer.results] is the only thing
    listed; if that succeeds the branch goes on to the push.  For any
    other listing the cherry-pick is aborted and the original error is
    thrown again; when the resolution itself fails the cherry-pick is
    aborted and the error of the resolution is thrown.  In both
    failing cases the calls end with the abort: no pull request is
    created.  For a listing of one path per line, the test on the
    trimmed output holds exactly when [.betterer.results] is the sole
    path. *)
Theorem conflict_policy (e0 : js_error) (out : ExecOutput) :
  w (calls s) pickCall = Throw e0 ->
  w (calls s ++ [pickCall])%list diffCall = Ok out ->
  (trim (stdout out) <> BETTERER_RESULTS_PATH ->
     fst (fromCherryPick s) = rethrown (calls afterDiff) e0
     /\ calls (snd (fromCherryPick s)) = (calls s ++ [pickCall; diffCall; abortCall])%list)
  /\ (trim (stdout out) = BETTERER_RESULTS_PATH ->
        exists rest,
          calls (snd (fixBettererConflict w repo afterDiff))
          = (calls s ++ [pickCall; diffCall; bettererCall] ++ rest)%list
          /\ Forall (fun c => c = addCall \/ c = continueCall) rest
          /\ (forall s3,
                 fixBettererConflict w repo afterDiff = (Ok tt, s3) ->
                 rest = [addCall; continueCall]
                 /\ fromCherryPick s
                    = publish w base body head owner repo title milestone mergedBy s3)
          /\ (forall e2 s3,
                 fixBettererConflict w repo afterDiff = (Throw e2, s3) ->
                 fst (fromCherryPick s) = rethrown (calls s3) e2
                 /\ calls (snd (fromCherryPick s))
                    = (calls s ++ [pickCall; diffCall; bettererCall] ++ rest
                         ++ [abortCall])%list))
  /\ (forall files,
        Forall (fun f => is_path f = true) files -> stdout out = listing files ->
        (trim (stdout out) = BETTERER_RESULTS_PATH <-> files = [BETTERER_RESULTS_PATH])).
Proof.
  intros Hpick Hdiff.
  rewrite (fromCherryPick_conflict e0 out Hpick Hdiff). split; [|split].
  3:{ intros files Hfiles ->. now apply sole_betterer_conflict. }
  - intros Hne. apply String.eqb_neq in Hne. rewrite Hne. cbn [fst snd calls afterDiff].
    split; [reflexivity | now rewrite <- app_assoc].
  - intros Heq. apply String.eqb_eq in Heq. rewrite Heq.
    destruct fixBettererConflict_calls as (rest & Hcalls & Hrest & Hok).
    exists rest. split; [|split; [exact Hrest|split]].
    + rewrite Hcalls. cbn [calls afterDiff]. now rewrite <- app_assoc.
    + intros s3 E. rewrite E. split; [now apply (Hok s3) | reflexivity].
    + intros e2 s3 E. rewrite E in *. cbn [fst snd calls] in *.
      split; [reflexivity|]. rewrite Hcalls. cbn [calls afterDiff].
      now rewrite <- !app_assoc.
Qed.

(** The part of C2 that the code does not satisfy: that a failure of
    the resolution surfaces the error of the cherry-pick. *)
Definition surfaces_original_error : Prop :=
  forall (e0 : js_error) (out : ExecOutput) (e2 : js_error) (s3 : state),
    w (calls s) pickCall = Throw e0 ->
    w (calls s ++ [pickCall])%list diffCall = Ok out ->
    trim (stdout out) = BETTERER_RESULTS_PATH ->
    fixBettererConflict w repo afterDiff = (Throw e2, s3) ->
    w (calls s3) abortCall = Ok tt ->
    fst (fromCherryPick s) = Throw e0.

Lemma backportOnce_fromCherryPick :
  backportOnce w base body commitToBackport head owner repo title milestone mergedBy
  = (git w repo ["switch"; base] ;;
     git w repo ["switch"; "--create"; head] ;;
     fromCherryPick).
Proof. reflexivity. Qed.

End ConflictPolicy.

Lemma conflict_policy_witness :
  fst (fromCherryPick world_conflict "v1" "Backport abc123 from #42" "abc123"
         "backport-42-to-v1" "grafana" "grafana" "[v1] Fix the thing" None None
         (initial_state []))
  = Throw conflict_error
  /\ calls (snd (fromCherryPick world_conflict "v1" "Backport abc123 from #42" "abc123"
                   "backport-42-to-v1" "grafana" "grafana" "[v1] Fix the thing" None None
                   (initial_state [])))
     = [pickCall "abc123" "grafana"; diffCall "grafana"; abortCall "grafana"].
Proof.
  apply (proj1 (conflict_policy world_conflict "v1" "Backport abc123 from #42" "abc123"
                  "backport-42-to-v1" "grafana" "grafana" "[v1] Fix the thing" None None
                  (initial_state []) conflict_error {| stdout := "pkg/api/api.go" ++ LF |}
                  eq_refl eq_refl)).
  vm_compute. discriminate.
Defined.

(** C2 as stated fails where the resolution itself fails: the error
    thrown for the branch is the one of the betterer run, not the one
    of the cherry-pick. *)
Lemma resolution_failure_hides_original_error :
  ~ surfaces_original_error world_betterer_fails "v1" "Backport abc123 from #42" "abc123"
      "backport-42-to-v1" "grafana" "grafana" "[v1] Fix the thing" None None
      (initial_state []).
Proof.
  intros H.
  specialize (H conflict_error {| stdout := BETTERER_RESULTS_PATH ++ LF |} betterer_error
                (snd (fixBettererConflict world_betterer_fails "grafana"
                        (afterDiff "abc123" "grafana" (initial_state []))))
                eq_refl eq_refl eq_refl eq_refl eq_refl).
  vm_compute in H. discriminate H.
Qed.

Example betterer_conflict_resolved :
  calls (snd (fromCherryPick world_betterer_fixes "v1" "Backport abc123 from #42" "abc123"
                "backport-42-to-v1" "grafana" "grafana" "[v1] Fix the thing" None None
                (initial_state [])))
  = [ pickCall "abc123" "grafana"; diffCall "grafana"; bettererCall "grafana";
      addCall "grafana"; continueCall "grafana";
      Exec "git" ["push"; "--set-upstream"; "origin"; "backport-42-to-v1"] "grafana";
      PullsCreate "v1" "Backport abc123 from #42" "backport-42-to-v1" "grafana" "grafana"
        "[v1] Fix the thing" ].
Proof. vm_compute. reflexivity. Qed.

(** ** The enterprise check *)

Section EnterpriseSync.

Variable w : oracle.
Variable inputs : Inputs.
Variable s : state.

Definition lookupCall (branch : string) : call :=
  ReposGetBranch branch "grafana" "grafana-enterprise".

Definition createRefCall (sha : string) : call :=
  GitCreateRef "grafana" "grafana-enterprise"
    ("refs/heads/prc-" ++ pr_number inputs ++ "-" ++ source_sha inputs ++ "/"
       ++ source_branch inputs) sha.

Definition updateRefCall (sha : string) : call :=
  GitUpdateRef "grafana" "grafana-enterprise"
    ("heads/prc-" ++ pr_number inputs ++ "-" ++ source_sha inputs ++ "/"
       ++ source_branch inputs) sha true.

Definition already_exists (e : js_error) : bool :=
  instanceof_RequestError e && String.eqb (err_message e) "Reference already exists".

(** What the specification expects once the commit is known: create
    the namespaced ref; on "Reference already exists" force-update it
    to the same commit; let any other error through. *)
Definition expectedRef (h : list call) (sha : string) : result unit * list call :=
  match w h (createRefCall sha) with
  | Ok _ => (Ok tt, (h ++ [createRefCall sha])%list)
  | Throw e =>
      if already_exists e
      then (w (h ++ [createRefCall sha])%list (updateRefCall sha),
            (h ++ [createRefCall sha; updateRefCall sha])%list)
      else (Throw e, (h ++ [createRefCall sha])%list)
  end.

(** What the specification expects of the whole action: the commit of
    the branch named like the source branch if it can be fetched, else
    that of [target_branch] (or [main] when none is supplied), else
    that of [main]. *)
Definition expectedSync : result unit * list call :=
  let h := calls s in
  let src := lookupCall (source_branch inputs) in
  let tgt := lookupCall (if String.eqb (target_branch inputs) "" then "main"
                         else target_branch inputs) in
  let main := lookupCall "main" in
  match w h src with
  | Ok b => expectedRef (h ++ [src])%list (commit_sha b)
  | Throw _ =>
      match w (h ++ [src])%list tgt with
      | Ok b => expectedRef (h ++ [src; tgt])%list (commit_sha b)
      | Throw _ =>
          match w (h ++ [src; tgt])%list main with
          | Ok b => expectedRef (h ++ [src; tgt; main])%list (commit_sha b)
          | Throw _ =>
              (Throw (plainError "error retrieving main branch"),
               (h ++ [src; tgt; main])%list)
          end
      end
  end.

Definition observed {A} (x : result A * state) : result A * list call :=
  (fst x, calls (snd x)).

Lemma createOrUpdateRef_expected (sha : string) (s1 : state) :
  observed (createOrUpdateRef w (pr_number inputs) (source_branch inputs) sha
              (source_sha inputs) s1)
  = expectedRef (calls s1) sha.
Proof.
  unfold observed, createOrUpdateRef, expectedRef, try_catch, perform, throw.
  fold (createRefCall sha) (updateRefCall sha). cbn [calls].
  destruct (w (calls s1) (createRefCall sha)) as [[]|e]; [reflexivity|].
  fold (already_exists e). destruct (already_exists e); [|reflexivity].
  cbn [fst snd calls]. now rewrite <- app_assoc.
Qed.

Lemma getBranch_spec (branch : string) (s1 : state) :
  exists s2,
    calls s2 = (calls s1 ++ [lookupCall branch])%list
    /\ getBranch w branch s1
       = (Ok match w (calls s1) (lookupCall branch) with
             | Ok b => Some b
             | Throw _ => None
             end, s2).
Proof.
  unfold getBranch, try_catch, bind, perform, ret, log. fold (lookupCall branch).
  destruct (w (calls s1) (lookupCall branch)) as [b|e];
    eexists; (split; [|reflexivity]); reflexivity.
Qed.

(** C5.  With the three required inputs present, the action does what
    the specification expects: it resolves the commit from the branch
    named like the source branch, else from [target_branch] (or
    [main]), else from [main], creates the namespaced ref at that
    commit, force-updates it to the same commit when the creation
    reports "Reference already exists", and fails on any other error
    of the creation. *)
Theorem enterprise_sync :
  source_branch inputs <> "" -> pr_number inputs <> "" -> source_sha inputs <> "" ->
  observed (onTriggered w inputs s) = expectedSync.
Proof.
  intros H1 H2 H3. apply String.eqb_neq in H1, H2, H3.
  unfold onTriggered, expectedSync. rewrite H1, H2, H3.
  set (tb := if String.eqb (target_branch inputs) "" then "main" else target_branch inputs).
  destruct (getBranch_spec (source_branch inputs) s) as (s1 & E1 & G1).
  unfold bind at 1. rewrite G1.
  destruct (w (calls s) (lookupCall (source_branch inputs))) as [b|e].
  { rewrite createOrUpdateRef_expected. now rewrite E1. }
  destruct (getBranch_spec tb s1) as (s2 & E2 & G2).
  unfold bind at 1. rewrite G2. rewrite E1 in *.
  destruct (w _ (lookupCall tb)) as [b|e'].
  { rewrite createOrUpdateRef_expected. now rewrite E2, <- app_assoc. }
  destruct (getBranch_spec "main" s2) as (s3 & E3 & G3).
  unfold bind at 1. rewrite G3. rewrite E2, <- app_assoc in *. cbn [app] in *.
  destruct (w _ (lookupCall "main")) as [b|e''].
  { rewrite createOrUpdateRef_expected. now rewrite E3, <- app_assoc. }
  unfold observed, throw. cbn [fst snd]. now rewrite E3, <- app_assoc.
Qed.

End EnterpriseSync.

Lemma enterprise_sync_witness :
  observed (onTriggered world_enterprise sample_inputs (initial_state []))
  = (Ok tt,
     [ ReposGetBranch "feature-x" "grafana" "grafana-enterprise";
       ReposGetBranch "v9.2.x" "grafana" "grafana-enterprise";
       GitCreateRef "grafana" "grafana-enterprise"
         "refs/heads/prc-4711-abc123/feature-x" "c0ffee";
       GitUpdateRef "grafana" "grafana-enterprise"
         "heads/prc-4711-abc123/feature-x" "c0ffee" true ]).
Proof.
  refine (eq_trans
            (enterprise_sync world_enterprise sample_inputs (initial_state []) _ _ _) _).
  - intros H; discriminate H.
  - intros H; discriminate H.
  - intros H; discriminate H.
  - reflexivity.
Defined.

Example enterprise_sync_missing_input :
  observed (onTriggered world_ok
              {| source_branch := "feature-x"; pr_number := "";
                 source_sha := "abc123"; target_branch := "" |} (initial_state []))
  = (Throw (plainError "Missing OSS PR number"), []).
Proof. reflexivity. Qed.

(** ** Proceeding to the backport *)


Definition never_fails (w : oracle) : Prop :=
  forall (h : list call) (c : call), exists r, w h c = Ok r.

Definition snoc_call (s : state) (c : call) : state :=
  {| calls := (calls s ++ [c])%list; output := output s; labelsToAdd := labelsToAdd s |}.

Section NeverFails.

Variable w : oracle.
Hypothesis Hnf : never_fails w.

Lemma perform_nf (c : call) (s : state) :
  exists r, perform w c s = (Ok r, snoc_call s c).
Proof. unfold perform. destruct (Hnf (calls s) c) as [r ->]. now exists r. Qed.


Lemma cherryPick_nf (repo commit : string) (s : state) :
  cherryPick w repo commit s = (Ok tt, snoc_call s (pickCall commit repo)).
Proof.
  unfold cherryPick, try_catch, git. fold (pickCall commit repo).
  destruct (perform_nf (pickCall commit repo) s) as [[] ->]. reflexivity.
Qed.

Definition runs_ok (m : M unit) : Prop :=
  forall st, exists st' new, m st = (Ok tt, st') /\ calls st' = (calls st ++ new)%list.

Lemma runs_ok_ret : runs_ok (ret tt).
Proof. intros st. exists st, []. split; [reflexivity | now rewrite app_nil_r]. Qed.

Lemma runs_ok_call (c : call) (m : M unit) :
  (forall st, exists r : unit, m st = (Ok r, snoc_call st c)) -> runs_ok m.
Proof.
  intros H st. destruct (H st) as [[] E]. exists (snoc_call st c), [c].
  split; [exact E | reflexivity].
Qed.

Lemma runs_ok_bind (m k : M unit) : runs_ok m -> runs_ok k -> runs_ok (m ;; k).
Proof.
  intros Hm Hk st. destruct (Hm st) as (st1 & n1 & E1 & C1).
  destruct (Hk st1) as (st2 & n2 & E2 & C2).
  exists st2, (n1 ++ n2)%list. unfold bind. rewrite E1. split; [exact E2|].
  now rewrite C2, C1, app_assoc.
Qed.

Lemma publish_nf base body head owner repo title ms mb (s : state) :
  exists rest s',
    publish w base body head owner repo title ms mb s = (Ok tt, s')
    /\ calls s'
       = (calls s ++ Exec "git" ["push"; "--set-upstream"; "origin"; head] repo
            :: PullsCreate base body head owner repo title :: rest)%list.
Proof.
  unfold publish, git.
  unfold bind at 1.
  destruct (perform_nf (Exec "git" ["push"; "--set-upstream"; "origin"; head] repo) s)
    as [[] ->].
  unfold bind at 1.
  set (s1 := snoc_call s (Exec "git" ["push"; "--set-upstream"; "origin"; head] repo)).
  destruct (perform_nf (PullsCreate base body head owner repo title) s1) as [rsp ->].
  set (s2 := snoc_call s1 (PullsCreate base body head owner repo title)).
  assert (Hs2 : calls s2
                = (calls s ++ Exec "git" ["push"; "--set-upstream"; "origin"; head] repo
                     :: [PullsCreate base body head owner repo title])%list)
    by (unfold s2, s1; cbn [snoc_call calls]; now rewrite <- app_assoc).
  match goal with
  | |- exists rest s', ?m s2 = _ /\ _ => assert (Hm : runs_ok m)
  end.
  { repeat apply runs_ok_bind.
    - destruct ms as [m|]; [destruct (Z.eqb (milestone_id m) 0)|]; try apply runs_ok_ret.
      set (c0 := IssuesUpdate repo owner (data_number rsp) (milestone_number m)).
      apply (runs_ok_call c0). intros st0. exact (perform_nf c0 st0).
    - destruct (data_requested_reviewers rsp) as [rv|]; try apply runs_ok_ret.
      set (c0 := PullsDeleteReviewRequest (data_number rsp) repo owner rv).
      apply (runs_ok_call c0). intros st0. exact (perform_nf c0 st0).
    - destruct mb as [login|]; try apply runs_ok_ret.
      set (c0 := PullsCreateReviewRequest (data_number rsp) repo owner [login]).
      apply (runs_ok_call c0). intros st0. exact (perform_nf c0 st0).
    - intros st. unfold bind, read_labelsToAdd.
      destruct (Nat.ltb 0 (List.length (labelsToAdd st))); [|apply runs_ok_ret].
      set (c0 := IssuesAddLabels (data_number rsp) (labelsToAdd st) owner repo).
      apply (runs_ok_call c0). intros st0. exact (perform_nf c0 st0). }
  destruct (Hm s2) as (st' & new & E & Ec).
  exists new, st'. split; [exact E|]. rewrite Ec, Hs2, <- app_assoc. reflexivity.
Qed.

End NeverFails.

Section Proceeds.

Variable w : oracle.
Variable args : BackportArgs.

Let pr := pull_request (payload args).
Let owner := repository_owner_login (payload args).
Let repo := repository_name (payload args).

Definition commitOf : string :=
  match merge_commit_sha pr with Some sha => sha | None => "null" end.

Definition cloneCall : call := CloneRepo (token args) owner repo.

(** The pull request that a successful attempt opens for an entry. *)
Definition pullsCreateFor (entry : string * string) : call :=
  PullsCreate (fst entry)
    ("Backport " ++ commitOf ++ " from #" ++ Number_toString (number pr))
    (snd entry) owner repo
    (renderTitle (titleTemplate args) (fst entry) (title pr)).

Lemma loop_never_posts_rejection (matched : list string) (entries : list (string * string)) :
  emits (fun c => c <> rejectionComment args)
    (for_of entries (backportEntry w args matched commitOf)).
Proof.
  apply emits_for_of. intros [base head] _.
  unfold backportEntry, group, backportOnce, reportFailure, cherryPick, publish,
    fixBettererConflict, isBettererConflict, git.
  repeat emits_step; unfold rejectionComment; intros H; discriminate H.
Qed.

Lemma loop_never_fails (Hnf : never_fails w) (matched : list string)
    (entries : list (string * string)) :
  forall s, exists new s',
    for_of entries (backportEntry w args matched commitOf) s = (Ok tt, s')
    /\ calls s' = (calls s ++ new)%list
    /\ forall entry, In entry entries ->
         In (pickCall commitOf repo) new /\ In (pullsCreateFor entry) new.
Proof.
  induction entries as [|[base head] entries IH]; intros s; cbn [for_of].
  - exists [], s. split; [reflexivity|]. split; [now rewrite app_nil_r | intros ? []].
  - unfold bind at 1.
    assert (He : exists new1 s1,
               backportEntry w args matched commitOf (base, head) s = (Ok tt, s1)
               /\ calls s1 = (calls s ++ new1)%list
               /\ In (pickCall commitOf repo) new1
               /\ In (pullsCreateFor (base, head)) new1).
    { unfold backportEntry, group, backportOnce, git. fold pr owner repo.
      unfold bind at 1. cbn [push_labelsToAdd].
      unfold bind at 1. cbn [log].
      unfold finally, try_catch.
      unfold bind at 1.
      match goal with
      | |- context [perform w ?c ?st] => destruct (perform_nf w Hnf c st) as [[] ->]
      end.
      unfold bind at 1.
      match goal with
      | |- context [perform w ?c ?st] => destruct (perform_nf w Hnf c st) as [[] ->]
      end.
      unfold bind at 1. rewrite (cherryPick_nf w Hnf).
      match goal with
      | |- context [publish w ?b ?bd ?h ?o ?r ?t ?ms ?mb ?st] =>
          destruct (publish_nf w Hnf b bd h o r t ms mb st) as (rest & s' & -> & Ec)
      end.
      cbn [log]. eexists. eexists. split; [reflexivity|].
      cbn [calls]. rewrite Ec. cbn [snoc_call calls].
      rewrite <- !app_assoc. cbn [app].
      split; [reflexivity|]. split.
      - right. right. now left.
      - right. right. right. right. now left. }
    destruct He as (new1 & s1 & -> & Ec1 & Hp1 & Hc1).
    destruct (IH s1) as (new2 & s2 & E2 & Ec2 & Hall).
    exists (new1 ++ new2)%list, s2.
    split; [exact E2|]. split; [now rewrite Ec2, Ec1, app_assoc|].
    intros entry [<-|Hin].
    + split; apply in_or_app; now left.
    + destruct (Hall entry Hin). split; apply in_or_app; now right.
Qed.

End Proceeds.

Section ProceedsWithoutApproval.

Variable w : oracle.
Variable ctx : Payload.
Variable args : BackportArgs.
Variable s : state.

Let pr := pull_request (payload args).
Let repo := repository_name (payload args).

(** The invocation goes on to the backport: the map is not empty, the
    repository is cloned, the rejection comment is not posted, and in
    a world where no call fails every entry is cherry-picked and gets
    its pull request. *)
Definition executes_backport : Prop :=
  exists m new,
    getBackportBaseToHead (action (payload args)) (label (payload args))
      (labels pr) (number pr) = Ok m
    /\ m <> []
    /\ calls (snd (backport w ctx args s)) = (calls s ++ cloneCall args :: new)%list
    /\ Forall (fun c => c <> rejectionComment args) new
    /\ (never_fails w ->
        fst (backport w ctx args s) = Ok tt
        /\ forall entry, In entry (Object_entries m) ->
             In (pickCall (commitOf args) repo) new /\ In (pullsCreateFor args entry) new).

(** The claim of C10 as it is stated, for every event. *)
Definition proceeds_without_approval : Prop :=
  merged pr = true ->
  has_backport_label (labels pr) ->
  ~ has_approval_label (labels pr) ->
  In missingLabels (labels pr) ->
  executes_backport.

(** The events that lead to a backport: a [closed] event, or a
    [labeled] event whose new label is a backport label, where the
    labels that the map is built from (those of the pull request, or
    the new one) have a base that the object can hold as a key. *)
Definition triggers_backport : Prop :=
  (action ctx = "closed" /\ action (payload args) = "closed"
   /\ existsb storable (labels pr) = true)
  \/ (exists name,
         label ctx = Some name /\ label (payload args) = Some name
         /\ action (payload args) = "labeled" /\ storable name = true).

Lemma triggered_map_nonempty :
  triggers_backport ->
  exists e m',
    getBackportBaseToHead (action (payload args)) (label (payload args))
      (labels pr) (number pr) = Ok (e :: m').
Proof.
  intros [(_ & Hc & Hs)|(name & _ & Hl & Ha & Hx)].
  - rewrite Hc, getBackportBaseToHead_closed.
    apply existsb_exists in Hs as (l & Hin & Hl).
    pose proof (fold_addLabelName_storable (number pr) (labels pr) l Hin Hl) as Hp.
    destruct (fold_left (addLabelName (number pr)) (labels pr) []) as [|e m'];
      [congruence | now exists e, m'].
  - rewrite Ha, Hl, getBackportBaseToHead_labeled, addLabelName_exec.
    apply storable_spec in Hx as (b & h & -> & Hb).
    rewrite obj_set_own by exact Hb.
    now exists (b, headFor (number pr) b h), [].
Qed.

Lemma triggered_passes_gate : triggers_backport -> gateReturns ctx = false.
Proof.
  intros H. apply gateReturns_false.
  destruct H as [[Hc _]|(name & Hl & _ & _ & Hx)]; [now left|].
  right. exists name. split; [exact Hl | left].
  apply storable_spec in Hx as (b & h & E & _). congruence.
Qed.

(** C10, amended.  For every [closed] event, and every [labeled] event
    whose new label is a backport label, on a merged pull request
    whose labels contain a backport label, no approval label and the
    [missing-labels] marker, where a backport label that the map is
    built from (one of the pull request for [closed], the new label
    for [labeled]) has a base other than [__proto__]: the rejection
    comment is not posted again and the invocation goes on to the
    backport (clone, then for every entry the cherry-pick and the pull
    request) although no approval label is present. *)
Theorem proceeds_when_marker_present :
  triggers_backport -> proceeds_without_approval.
Proof.
  intros Htrig Hm Hbp Hno Hmiss.
  destruct (triggered_map_nonempty Htrig) as (e & m' & Hmap).
  pose proof (triggered_passes_gate Htrig) as Hgate.
  apply anyLabelMatches_true in Hbp. apply no_approval_matched in Hno.
  apply includes_In in Hmiss.
  set (s2 := {| calls := calls s;
                output := (output s
                             ++ [ConsoleLog ("payloadAction: " ++ action ctx)]
                             ++ [ConsoleLog "This is a merge action"]
                             ++ [CoreInfo ("Backporting " ++ commitOf args ++ " from #"
                                             ++ Number_toString (number pr))])%list;
                labelsToAdd := labelsToAdd s |}).
  assert (E : backport w ctx args s
              = (perform w (cloneCall args) ;;
                 for_of (Object_entries (e :: m'))
                   (backportEntry w args [] (commitOf args))) s2).
  { unfold backport, backportMerged. fold pr.
    rewrite Hgate, Hbp, Hno, Hmiss, Hm, Hmap.
    unfold s2, bind, log, ret, lift, commitOf, cloneCall. fold pr.
    rewrite Object_keys_empty.
    cbn [andb negb List.length Nat.eqb Object_keys map calls output labelsToAdd].
    rewrite <- !app_assoc. reflexivity. }
  exists (e :: m').
  unfold bind in E at 1. unfold perform in E at 1.
  change (calls s2) with (calls s) in E.
  destruct (w (calls s) (cloneCall args)) as [u|err] eqn:Ec.
  - match type of E with
    | _ = for_of ?l ?b ?st =>
        set (s3 := st) in *;
        destruct (for_of l b s3) as [r s'] eqn:El
    end.
    destruct (loop_never_posts_rejection w args [] (Object_entries (e :: m')) _ _ _ El)
      as (new & Ecalls & Hforall).
    exists new. split; [exact Hmap|]. split; [discriminate|].
    rewrite E. cbn [fst snd]. split; [|split; [exact Hforall|]].
    + rewrite Ecalls. unfold s3. cbn [calls]. now rewrite <- app_assoc.
    + intros Hnf.
      destruct (loop_never_fails w args Hnf [] (Object_entries (e :: m')) s3)
        as (new' & s'' & El' & Ecalls' & Hall).
      rewrite El in El'. injection El' as -> <-.
      rewrite Ecalls in Ecalls'. apply app_inv_head in Ecalls'. subst new'.
      split; [reflexivity | exact Hall].
  - exists []. split; [exact Hmap|]. split; [discriminate|].
    rewrite E. cbn [fst snd calls]. split; [reflexivity|]. split; [constructor|].
    intros Hnf. destruct (Hnf (calls s) (cloneCall args)) as [r Hr]. congruence.
Qed.

End ProceedsWithoutApproval.

Lemma proceeds_when_marker_present_witness :
  proceeds_without_approval world_ok
    (sample_payload "closed" None ["backport v1"; "missing-labels"] true)
    (sample_args (sample_payload "closed" None ["backport v1"; "missing-labels"] true))
    (initial_state []).
Proof.
  apply (proceeds_when_marker_present world_ok
           (sample_payload "closed" None ["backport v1"; "missing-labels"] true)
           (sample_args (sample_payload "closed" None ["backport v1"; "missing-labels"] true))
           (initial_state [])).
  left. split; [reflexivity|]. split; reflexivity.
Defined.

(** C10 as stated fails: the [labeled] event raised by the marker
    itself, on a merged pull request with a backport label and no
    approval label, stops at the trigger gate; nothing is cloned. *)
Lemma marker_event_does_not_backport :
  ~ proceeds_without_approval world_ok
      (sample_payload "labeled" (Some "missing-labels")
         ["backport v1"; "missing-labels"] true)
      (sample_args (sample_payload "labeled" (Some "missing-labels")
                      ["backport v1"; "missing-labels"] true))
      (initial_state []).
Proof.
  intros H. destruct H as (m & new & _ & _ & Hcalls & _).
  - reflexivity.
  - exists "backport v1". split; [now left | now vm_compute].
  - apply no_approval_matched. reflexivity.
  - apply includes_In. reflexivity.
  - vm_compute in Hcalls. discriminate Hcalls.
Qed.

(** Why the base [__proto__] is left aside: with the marker present
    the authorization step lets the event through, and the map, which
    does not hold that base, is empty. *)
Example proto_label_with_marker_clones_nothing :
  calls (snd (backport world_ok
     (sample_payload "closed" None ["backport __proto__"; "missing-labels"] true)
     (sample_args (sample_payload "closed" None
                     ["backport __proto__"; "missing-labels"] true))
     (initial_state [])))
  = [].
Proof. now vm_compute. Qed.

(** ** The labels put on the new pull requests *)

Definition keeps_labels {A} (m : M A) : Prop :=
  forall s r s', m s = (r, s') -> labelsToAdd s' = labelsToAdd s.

Lemma keeps_ret {A} (a : A) : keeps_labels (ret a).
Proof. intros s r s' [= _ <-]. reflexivity. Qed.

Lemma keeps_throw {A} e : keeps_labels (@throw A e).
Proof. intros s r s' [= _ <-]. reflexivity. Qed.

Lemma keeps_log e : keeps_labels (log e).
Proof. intros s r s' [= _ <-]. reflexivity. Qed.

Lemma keeps_read : keeps_labels read_labelsToAdd.
Proof. intros s r s' [= _ <-]. reflexivity. Qed.

Lemma keeps_perform (w : oracle) (c : call) : keeps_labels (perform w c).
Proof. intros s r s' [= _ <-]. reflexivity. Qed.

Lemma keeps_bind {A B} (m : M A) (f : A -> M B) :
  keeps_labels m -> (forall a, keeps_labels (f a)) -> keeps_labels (bind m f).
Proof.
  intros Hm Hf s r s' E. unfold bind in E.
  destruct (m s) as [[a|e] s1] eqn:Em.
  - rewrite (Hf a _ _ _ E). now apply (Hm _ _ _ Em).
  - inversion E; subst. now apply (Hm _ _ _ Em).
Qed.

Lemma keeps_try_catch {A} (m : M A) (h : js_error -> M A) :
  keeps_labels m -> (forall e, keeps_labels (h e)) -> keeps_labels (try_catch m h).
Proof.
  intros Hm Hh s r s' E. unfold try_catch in E.
  destruct (m s) as [[a|e] s1] eqn:Em.
  - inversion E; subst. now apply (Hm _ _ _ Em).
  - rewrite (Hh e _ _ _ E). now apply (Hm _ _ _ Em).
Qed.

Lemma keeps_finally {A} (m : M A) (fin : M unit) :
  keeps_labels m -> keeps_labels fin -> keeps_labels (finally m fin).
Proof.
  intros Hm Hf s r s' E. unfold finally in E.
  destruct (m s) as [r1 s1] eqn:Em.
  destruct (fin s1) as [[u|e] s2] eqn:Ef; inversion E; subst; clear E;
    rewrite (Hf _ _ _ Ef); now apply (Hm _ _ _ Em).
Qed.

Ltac keeps_step :=
  first
    [ apply keeps_ret | apply keeps_throw | apply keeps_log | apply keeps_read
    | apply keeps_bind; [|intros ?]
    | apply keeps_try_catch; [|intros ?]
    | apply keeps_finally
    | match goal with
      | |- keeps_labels (perform ?w ?c) => apply (keeps_perform w c)
      | |- keeps_labels (if ?b then _ else _) => destruct b
      | |- keeps_labels (match ?x with _ => _ end) => destruct x
      end ].

(** The array after [k] turns of the loop: the matched labels have
    been pushed [k] times. *)
Fixpoint pushed (k : nat) (labelsToAdd matchedLabels : list string) : list string :=
  match k with
  | O => labelsToAdd
  | S k' => (pushed k' labelsToAdd matchedLabels ++ matchedLabels)%list
  end.

Lemma pushed_shift (k : nat) (l m : list string) :
  pushed k (l ++ m)%list m = pushed (S k) l m.
Proof. induction k as [|k IH]; cbn [pushed]; [reflexivity | now rewrite IH]. Qed.

Lemma backportEntry_pushes (w : oracle) (args : BackportArgs) (matched : list string)
    (commit : string) (entry : string * string) (s : state) :
  labelsToAdd (snd (backportEntry w args matched commit entry s))
  = (labelsToAdd s ++ matched)%list.
Proof.
  destruct entry as [base head].
  unfold backportEntry. unfold bind at 1. cbn [push_labelsToAdd].
  match goal with
  | |- labelsToAdd (snd (?m ?st)) = _ => assert (Hk : keeps_labels m)
  end.
  { unfold group, backportOnce, reportFailure, cherryPick, publish,
      fixBettererConflict, isBettererConflict, git.
    repeat keeps_step. }
  match goal with
  | |- labelsToAdd (snd (?m ?st)) = _ => destruct (m st) as [r s'] eqn:E
  end.
  cbn [snd]. now rewrite (Hk _ _ _ E).
Qed.

Lemma loop_pushes_every_turn (w : oracle) (args : BackportArgs) (matched : list string)
    (commit : string) (entries : list (string * string)) :
  forall s s',
    for_of entries (backportEntry w args matched commit) s = (Ok tt, s') ->
    labelsToAdd s' = pushed (List.length entries) (labelsToAdd s) matched.
Proof.
  induction entries as [|entry entries IH]; intros s s' E; cbn [for_of] in E.
  - now inversion E.
  - unfold bind in E.
    pose proof (backportEntry_pushes w args matched commit entry s) as Hp.
    destruct (backportEntry w args matched commit entry s) as [[[]|e] s1];
      [|discriminate E].
    cbn [snd] in Hp. rewrite (IH _ _ E), Hp. cbn [List.length]. apply pushed_shift.
Qed.

Definition isAddLabels (c : call) : bool :=
  match c with IssuesAddLabels _ _ _ _ => true | _ => false end.

Lemma In_pushed (k : nat) (l m : list string) (x : string) :
  In x (pushed (S k) l m) <-> In x (l ++ m)%list.
Proof.
  induction k as [|k IH].
  - reflexivity.
  - change (pushed (S (S k)) l m) with (pushed (S k) l m ++ m)%list.
    rewrite in_app_iff, IH, !in_app_iff. tauto.
Qed.

Lemma pushed_twice_repeats (k : nat) (l m : list string) :
  m <> [] -> ~ NoDup (pushed (S (S k)) l m).
Proof.
  intros Hm Hnd. destruct m as [|x m]; [congruence|].
  change (pushed (S (S k)) l (x :: m)) with (pushed (S k) l (x :: m) ++ x :: m)%list in Hnd.
  apply NoDup_remove_2 in Hnd. apply Hnd.
  apply in_or_app. left. apply In_pushed. apply in_or_app. right. now left.
Qed.

(** C9.  The labels of the later branches.  The matched labels are
    pushed onto the caller's array at every turn of the loop and the
    array is never reset: after [k] turns it holds them [k] times, so
    from the second turn on the labels sent are, as a set, the
    caller's plus the matched ones, but the matched ones are repeated.
    At a failing input (a merged pull request with two backport labels
    and the approval label [type/bug], the caller supplying the label
    [backport]) the first new pull request receives
    [backport; type/bug] and the second one receives [type/bug]
    twice. *)
Theorem second_branch_labels_repeated :
  (forall (w : oracle) (args : BackportArgs) (matched : list string) (commit : string)
          (entries : list (string * string)) (s s' : state),
      for_of entries (backportEntry w args matched commit) s = (Ok tt, s') ->
      labelsToAdd s' = pushed (List.length entries) (labelsToAdd s) matched)
  /\ (forall (k : nat) (l m : list string) (x : string),
         In x (pushed (S k) l m) <-> In x (l ++ m)%list)
  /\ (forall (k : nat) (l m : list string),
         m <> [] -> ~ NoDup (pushed (S (S k)) l m))
  /\ filter isAddLabels
       (calls (snd (backport world_ok
          (sample_payload "closed" None ["backport v1"; "backport v2"; "type/bug"] true)
          (sample_args (sample_payload "closed" None
                          ["backport v1"; "backport v2"; "type/bug"] true))
          (initial_state ["backport"]))))
     = [ IssuesAddLabels 1005 ["backport"; "type/bug"] "grafana" "grafana";
         IssuesAddLabels 1012 ["backport"; "type/bug"; "type/bug"] "grafana" "grafana" ].
Proof.
  split; [|split; [|split]].
  - intros w args matched commit entries s s'. apply loop_pushes_every_turn.
  - apply In_pushed.
  - apply pushed_twice_repeats.
  - vm_compute. reflexivity.
Qed.

(** The whole invocation in that world: the calls stop at the refused
    comment for the first entry. *)
Example refused_report_stops_the_loop :
  observed (backport world_read_only
              (sample_payload "closed" None ["backport v1"; "backport v2"; "type/bug"] true)
              (sample_args (sample_payload "closed" None
                              ["backport v1"; "backport v2"; "type/bug"] true))
              (initial_state []))
  = (Throw forbidden_error,
     [ CloneRepo "t0ken" "grafana" "grafana";
       Exec "git" ["switch"; "v1"] "grafana";
       Exec "git" ["switch"; "--create"; "backport-42-to-v1"] "grafana";
       Exec "git" ["cherry-pick"; "-x"; "abc123"] "grafana";
       Exec "git" ["push"; "--set-upstream"; "origin"; "backport-42-to-v1"] "grafana";
       PullsCreate "v1" "Backport abc123 from #42" "backport-42-to-v1" "grafana" "grafana"
         "[v1] Fix the thing";
       IssuesCreateComment
         (getFailedBackportCommentBody "v1" "abc123" (err_message forbidden_error)
            "backport-42-to-v1") 42 "grafana" "grafana" ]).
Proof. vm_compute. reflexivity. Qed.

(** * Further properties of the code *)

(** ** [getMatchedBackportLabels] *)

Lemma In_matched_in (x y : string) (bl : list string) :
  In y (matched_in x bl) <-> y = x /\ In x bl.
Proof.
  induction bl as [|b bl IH]; cbn [matched_in In]; [tauto|].
  destruct (String.eqb b x) eqn:E.
  - apply String.eqb_eq in E; subst b. cbn [In]. rewrite IH. intuition.
  - apply String.eqb_neq in E. rewrite IH. intuition congruence.
Qed.

Lemma matched_in_NoDup (x : string) (bl : list string) :
  NoDup bl -> matched_in x bl = if includes bl x then [x] else [].
Proof.
  induction bl as [|b bl IH]; intros Hnd; cbn [matched_in includes]; [reflexivity|].
  inversion Hnd as [|? ? Hnot Hnd']; subst.
  destruct (String.eqb b x) eqn:E.
  - apply String.eqb_eq in E; subst b.
    now rewrite (proj2 (matched_in_nil x bl) Hnot).
  - now apply IH.
Qed.

(** X1.  The labels [getMatchedBackportLabels] returns are the labels
    of the pull request that are in the approval list; when the
    approval list has no repeats (as [backportLabels] has), the result
    is the pull request's labels filtered by membership, in the pull
    request's order and with its repeats. *)
Theorem getMatchedBackportLabels_filter (labelsPR bl : list string) :
  NoDup bl ->
  getMatchedBackportLabels labelsPR bl = filter (includes bl) labelsPR
  /\ forall x, In x (getMatchedBackportLabels labelsPR bl) <-> In x labelsPR /\ In x bl.
Proof.
  intros Hnd.
  assert (E : getMatchedBackportLabels labelsPR bl = filter (includes bl) labelsPR).
  { induction labelsPR as [|x l IH]; cbn [getMatchedBackportLabels filter]; [reflexivity|].
    rewrite IH, (matched_in_NoDup x bl Hnd). now destruct (includes bl x). }
  split; [exact E|].
  intros x. rewrite E, filter_In, includes_In. tauto.
Qed.

Lemma getMatchedBackportLabels_filter_witness :
  getMatchedBackportLabels ["type/bug"; "backport v1"; "type/docs"; "type/bug"] backportLabels
  = ["type/bug"; "type/docs"; "type/bug"].
Proof.
  refine (eq_trans
            (proj1 (getMatchedBackportLabels_filter
                      ["type/bug"; "backport v1"; "type/docs"; "type/bug"] backportLabels _))
            eq_refl).
  repeat constructor; cbn [In]; intuition discriminate.
Defined.

(** ** The map and the intent to backport *)

Lemma anyLabelMatches_cases (labels : list string) :
  anyLabelMatches labels = existsb storable labels || existsb names_proto labels.
Proof.
  induction labels as [|l labels IH]; cbn [anyLabelMatches existsb]; [reflexivity|].
  rewrite accepted_cases, IH.
  destruct (storable l), (names_proto l), (existsb storable labels),
    (existsb names_proto labels); reflexivity.
Qed.

(** X2.  On a [closed] event the map is empty exactly when no label of
    the pull request is a backport label whose base the object can
    hold as a key.  The loop that sets [matches] ends with [true]
    exactly when some label is such a label or a backport label with
    the base [__proto__]: the two readings of the labels agree except
    on the labels that name [__proto__], which the loop counts and the
    map does not hold. *)
Theorem closed_map_empty_iff (label : option string) (labels : list string) (n : Z) :
  (getBackportBaseToHead "closed" label labels n = Ok [] <-> existsb storable labels = false)
  /\ anyLabelMatches labels = existsb storable labels || existsb names_proto labels
  /\ (anyLabelMatches labels = false -> getBackportBaseToHead "closed" label labels n = Ok [])
  /\ (anyLabelMatches labels = false <-> ~ has_backport_label labels).
Proof.
  assert (E : getBackportBaseToHead "closed" label labels n = Ok []
              <-> existsb storable labels = false).
  { rewrite getBackportBaseToHead_closed. split.
    - intros [= H]. destruct (existsb storable labels) eqn:Ex; [|reflexivity].
      apply existsb_exists in Ex as (l & Hin & Hl).
      now destruct (fold_addLabelName_storable n labels l Hin Hl).
    - intros H. f_equal. apply fold_addLabelName_none. intros l Hl.
      destruct (storable l) eqn:Es; [|reflexivity].
      assert (Hex : existsb storable labels = true)
        by (apply existsb_exists; now exists l).
      congruence. }
  split; [exact E|]. split; [apply anyLabelMatches_cases|]. split.
  - intros H. apply E. rewrite anyLabelMatches_cases in H.
    now apply orb_false_iff in H.
  - rewrite <- anyLabelMatches_true. destruct (anyLabelMatches labels); split; congruence.
Qed.

(** ** The entries of the map are branch names *)

Lemma no_space_app (a b : string) : no_space (a ++ b) = no_space a && no_space b.
Proof.
  induction a as [|c a IH]; [reflexivity|].
  change (String c a ++ b) with (String c (a ++ b)). cbn [no_space].
  now rewrite IH, andb_assoc.
Qed.

Lemma no_space_uint (d : Decimal.uint) : no_space (NilEmpty.string_of_uint d) = true.
Proof. induction d; cbn [NilEmpty.string_of_uint no_space]; trivial. Qed.

Lemma no_space_Number_toString (n : Z) : no_space (Number_toString n) = true.
Proof.
  unfold Number_toString, NilZero.string_of_int, NilZero.string_of_uint.
  destruct (Z.to_int n) as [d|d]; destruct d; try reflexivity;
    cbn [no_space]; rewrite ?no_space_uint; reflexivity.
Qed.

Lemma is_word_headFor (n : Z) (base : string) (head : option string) :
  is_word base = true -> head_is_word head = true -> is_word (headFor n base head) = true.
Proof.
  intros Hb Hh. destruct head as [h|]; [exact Hh|].
  cbn [headFor]. change ("backport-" ++ Number_toString n ++ "-to-" ++ base)
    with (String "b" ("ackport-" ++ Number_toString n ++ "-to-" ++ base)).
  cbn [is_word]. change (String "b" ("ackport-" ++ Number_toString n ++ "-to-" ++ base))
    with ("backport-" ++ Number_toString n ++ "-to-" ++ base).
  rewrite !no_space_app, no_space_Number_toString, (is_word_no_space base Hb). reflexivity.
Qed.

Definition branch_pair (e : string * string) : Prop :=
  is_word (fst e) = true /\ is_word (snd e) = true.

Lemma obj_set_Forall (P : string * string -> Prop) (k v : string) (o : JSObject) :
  P (k, v) -> Forall P o -> Forall P (obj_set k v o).
Proof.
  intros Hkv Ho. destruct (obj_set_cases k v o) as [[_ ->]|[_ ->]]; [exact Ho|].
  induction o as [|[k' v'] o IH]; cbn [set_own].
  - now constructor.
  - inversion Ho; subst. destruct (String.eqb k k'); constructor; auto.
Qed.

Lemma fold_addLabelName_branch_pairs (n : Z) (names : list string) :
  forall o, Forall branch_pair o -> Forall branch_pair (fold_left (addLabelName n) names o).
Proof.
  induction names as [|l names IH]; intros o Ho; cbn [fold_left]; [exact Ho|].
  apply IH. rewrite addLabelName_exec.
  destruct (labelRegExp_exec l) as [[b h]|] eqn:E; [|exact Ho].
  apply labelRegExp_exec_inv in E as (pre & _ & Hb & Hh).
  apply obj_set_Forall; [|exact Ho].
  split; [exact Hb | now apply is_word_headFor].
Qed.

Lemma obj_set_length (k v : string) (o : JSObject) :
  List.length (obj_set k v o) <= S (List.length o).
Proof.
  destruct (obj_set_cases k v o) as [[_ ->]|[_ ->]]; [lia|].
  induction o as [|[k' v'] o IH]; cbn [set_own List.length]; [lia|].
  destruct (String.eqb k k'); cbn [List.length]; lia.
Qed.

Lemma fold_addLabelName_length (n : Z) (names : list string) :
  forall o, List.length (fold_left (addLabelName n) names o)
            <= List.length names + List.length o.
Proof.
  induction names as [|l names IH]; intros o; cbn [fold_left List.length]; [lia|].
  specialize (IH (addLabelName n o l)). rewrite addLabelName_exec in *.
  destruct (labelRegExp_exec l) as [[b h]|]; [|lia].
  pose proof (obj_set_length b (headFor n b h) o). lia.
Qed.

(** X3.  Whatever the action and the labels, when the map is built its
    keys are distinct and every base and every head in it is a
    non-empty name free of spaces (the derived heads included), so
    each is a single argument for the git commands that receive it;
    the map has at most as many entries as the pull request has
    labels on a [closed] event, at most one on a [labeled] event. *)
Theorem map_entries_are_branch_names (action : string) (label : option string)
    (labels : list string) (n : Z) (m : JSObject) :
  getBackportBaseToHead action label labels n = Ok m ->
  NoDup (Object_keys m) /\ Forall branch_pair (Object_entries m)
  /\ (action = "closed" -> List.length (Object_entries m) <= List.length labels)
  /\ (action = "labeled" -> List.length (Object_entries m) <= 1).
Proof.
  unfold getBackportBaseToHead.
  destruct (getLabelNames action label labels) as [names|e] eqn:En; [|discriminate].
  intros [= <-]. split; [|split; [|split]].
  - apply fold_addLabelName_NoDup.
  - apply Object_entries_Forall, fold_addLabelName_branch_pairs. constructor.
  - intros ->. cbn in En. injection En as <-.
    pose proof (fold_addLabelName_length n labels []) as H. cbn [List.length] in H.
    rewrite Object_entries_length. lia.
  - intros ->. cbn in En. destruct label as [name|]; [|discriminate].
    injection En as <-.
    pose proof (fold_addLabelName_length n [name] []) as H. cbn [List.length] in H.
    rewrite Object_entries_length. lia.
Qed.

Lemma map_entries_are_branch_names_witness :
  NoDup (Object_keys [("v1", "mine"); ("v2", "backport-7-to-v2")])
  /\ Forall branch_pair (Object_entries [("v1", "mine"); ("v2", "backport-7-to-v2")])
  /\ ("closed" = "closed" ->
      List.length (Object_entries [("v1", "mine"); ("v2", "backport-7-to-v2")])
      <= List.length ["backport v1"; "x"; "backport v2"; "backport v1 mine"])
  /\ ("closed" = "labeled" ->
      List.length (Object_entries [("v1", "mine"); ("v2", "backport-7-to-v2")]) <= 1).
Proof.
  apply (map_entries_are_branch_names "closed" None
           ["backport v1"; "x"; "backport v2"; "backport v1 mine"] 7).
  reflexivity.
Defined.

(** ** The trigger gate *)

(** X4.  An event that does not pass the trigger gate (its action is
    not [closed] and the label that came with it, if any, is neither a
    backport label nor an approval label) ends the invocation at once:
    it returns normally, makes no call and leaves the caller's array
    alone, whatever the labels, the merge state and the outside world. *)
Theorem gate_stops_invocation (w : oracle) (ctx : Payload) (args : BackportArgs)
    (s : state) :
  ~ passes_gate ctx ->
  fst (backport w ctx args s) = Ok tt
  /\ calls (snd (backport w ctx args s)) = calls s
  /\ labelsToAdd (snd (backport w ctx args s)) = labelsToAdd s.
Proof.
  intros Hg. rewrite <- gateReturns_false in Hg.
  destruct (gateReturns ctx) eqn:E; [|congruence].
  unfold backport, bind, log. rewrite E. repeat split.
Qed.

Lemma gate_stops_invocation_witness :
  fst (backport world_ok
         (sample_payload "edited" None ["backport v1"; "type/bug"] true)
         (sample_args (sample_payload "edited" None ["backport v1"; "type/bug"] true))
         (initial_state ["backport"])) = Ok tt
  /\ calls (snd (backport world_ok
         (sample_payload "edited" None ["backport v1"; "type/bug"] true)
         (sample_args (sample_payload "edited" None ["backport v1"; "type/bug"] true))
         (initial_state ["backport"]))) = []
  /\ labelsToAdd (snd (backport world_ok
         (sample_payload "edited" None ["backport v1"; "type/bug"] true)
         (sample_args (sample_payload "edited" None ["backport v1"; "type/bug"] true))
         (initial_state ["backport"]))) = ["backport"].
Proof.
  apply (gate_stops_invocation world_ok
           (sample_payload "edited" None ["backport v1"; "type/bug"] true)
           (sample_args (sample_payload "edited" None ["backport v1"; "type/bug"] true))
           (initial_state ["backport"])).
  intros [H|(name & H & _)]; discriminate H.
Defined.

(** Building the map can only throw for a [labeled] event without a
    label, and such an event never passes the gate. *)
Lemma label_assertion_is_guarded (p : Payload) (labels : list string) (n : Z)
    (e : js_error) :
  getBackportBaseToHead (action p) (label p) labels n = Throw e ->
  action p = "labeled" /\ label p = None /\ gateReturns p = true.
Proof.
  unfold getBackportBaseToHead, getLabelNames, gateReturns.
  destruct (String.eqb (action p) "closed") eqn:Ec; [discriminate|].
  destruct (String.eqb (action p) "labeled") eqn:El; [|discriminate].
  destruct (label p) as [name|]; [discriminate|].
  intros _. apply String.eqb_eq in El. repeat split; trivial.
Qed.

(** ** Where the errors of [backport] come from *)

(** Every error that [m] throws satisfies [E]. *)
Definition throws_only {A} (E : js_error -> Prop) (m : M A) : Prop :=
  forall s e s', m s = (Throw e, s') -> E e.

(** The error was the answer of the outside world to some call. *)
Definition from_world (w : oracle) (e : js_error) : Prop :=
  exists h c, w h c = Throw e.

Lemma throws_ret {A} E (a : A) : throws_only E (ret a).
Proof. intros s e s' H; discriminate H. Qed.

Lemma throws_log E ev : throws_only E (log ev).
Proof. intros s e s' H; discriminate H. Qed.

Lemma throws_push E xs : throws_only E (push_labelsToAdd xs).
Proof. intros s e s' H; discriminate H. Qed.

Lemma throws_read E : throws_only E read_labelsToAdd.
Proof. intros s e s' H; discriminate H. Qed.

Lemma throws_lift_Ok {A} E (a : A) : throws_only E (lift (Ok a)).
Proof. intros s e s' H; discriminate H. Qed.

Lemma throws_throw {A} (E : js_error -> Prop) e : E e -> throws_only E (@throw A e).
Proof. intros He s e' s' [= <- _]. exact He. Qed.

Lemma throws_perform (w : oracle) (c : call) : throws_only (from_world w) (perform w c).
Proof.
  intros s e s' H. unfold perform in H. injection H as H _.
  now exists (calls s), c.
Qed.

Lemma throws_bind {A B} E (m : M A) (f : A -> M B) :
  throws_only E m -> (forall a, throws_only E (f a)) -> throws_only E (bind m f).
Proof.
  intros Hm Hf s e s' H. unfold bind in H.
  destruct (m s) as [[a|e0] s1] eqn:Em.
  - exact (Hf a _ _ _ H).
  - injection H as <- _. exact (Hm _ _ _ Em).
Qed.

Lemma throws_try_catch {A} E (m : M A) (h : js_error -> M A) :
  throws_only E m -> (forall e, E e -> throws_only E (h e)) ->
  throws_only E (try_catch m h).
Proof.
  intros Hm Hh s e s' H. unfold try_catch in H.
  destruct (m s) as [[a|e0] s1] eqn:Em; [discriminate H|].
  exact (Hh e0 (Hm _ _ _ Em) _ _ _ H).
Qed.

Lemma throws_finally {A} E (m : M A) (fin : M unit) :
  throws_only E m -> throws_only E fin -> throws_only E (finally m fin).
Proof.
  intros Hm Hf s e s' H. unfold finally in H.
  destruct (m s) as [r s1] eqn:Em. destruct (fin s1) as [[u|e1] s2] eqn:Ef.
  - injection H as -> _. exact (Hm _ _ _ Em).
  - injection H as <- _. exact (Hf _ _ _ Ef).
Qed.

Lemma throws_for_of {A} E (l : list A) (body : A -> M unit) :
  (forall x, throws_only E (body x)) -> throws_only E (for_of l body).
Proof.
  intros Hb. induction l as [|x l IH]; cbn [for_of].
  - apply throws_ret.
  - apply throws_bind; [apply Hb | intros _; exact IH].
Qed.

Ltac throws_step :=
  first
    [ apply throws_ret | apply throws_log | apply throws_push | apply throws_read
    | apply throws_lift_Ok
    | apply throws_throw; assumption
    | apply throws_bind; [|intros ?]
    | apply throws_try_catch; [|intros ? ?]
    | apply throws_finally
    | apply throws_for_of; intros ?
    | match goal with
      | |- throws_only _ (perform ?w ?c) => apply (throws_perform w c)
      | |- throws_only _ (if ?b then _ else _) => destruct b
      | |- throws_only _ (match ?x with _ => _ end) => destruct x
      end ].

(** X5.  Called with the context's own payload, [backport] throws
    nothing of its own: every error that leaves it was thrown by one of
    its external calls.  In particular the read of [label.name] behind
    the non-null assertion never fails, because a [labeled] event
    without a label does not pass the gate. *)
Theorem backport_errors_come_from_calls (w : oracle) (args : BackportArgs)
    (s s' : state) (e : js_error) :
  backport w (payload args) args s = (Throw e, s') -> from_world w e.
Proof.
  revert s e s'. change (throws_only (from_world w) (backport w (payload args) args)).
  unfold backport, backportMerged.
  destruct (gateReturns (payload args)) eqn:G.
  - repeat throws_step.
  - destruct (getBackportBaseToHead (action (payload args)) (label (payload args))
                (labels (pull_request (payload args)))
                (number (pull_request (payload args)))) as [m|e0] eqn:Em.
    2:{ apply label_assertion_is_guarded in Em. destruct Em as (_ & _ & Em). congruence. }
    unfold backportEntry, group, backportOnce, reportFailure, cherryPick, publish,
      fixBettererConflict, isBettererConflict, git.
    repeat throws_step.
Qed.

Lemma backport_errors_come_from_calls_witness :
  from_world world_read_only forbidden_error.
Proof.
  apply (backport_errors_come_from_calls world_read_only
           (sample_args (sample_payload "closed" None
                           ["backport v1"; "backport v2"; "type/bug"] true))
           (initial_state [])
           (snd (backport world_read_only
                   (sample_payload "closed" None ["backport v1"; "backport v2"; "type/bug"] true)
                   (sample_args (sample_payload "closed" None
                                   ["backport v1"; "backport v2"; "type/bug"] true))
                   (initial_state [])))).
  vm_compute. reflexivity.
Defined.

(** ** The caller's array *)

Lemma loop_pushes_at_most (w : oracle) (args : BackportArgs) (matched : list string)
    (commit : string) (entries : list (string * string)) :
  forall s r s',
    for_of entries (backportEntry w args matched commit) s = (r, s') ->
    exists k, k <= List.length entries
              /\ labelsToAdd s' = pushed k (labelsToAdd s) matched.
Proof.
  induction entries as [|entry entries IH]; intros s r s' E; cbn [for_of] in E.
  - injection E as _ <-. exists 0. split; [lia | reflexivity].
  - unfold bind in E.
    pose proof (backportEntry_pushes w args matched commit entry s) as Hp.
    destruct (backportEntry w args matched commit entry s) as [[[]|e] s1]; cbn [snd] in Hp.
    + destruct (IH _ _ _ E) as (k & Hk & El).
      exists (S k). split; [cbn [List.length]; lia|].
      now rewrite El, Hp, pushed_shift.
    + injection E as _ <-. exists 1. split; [cbn [List.length]; lia | exact Hp].
Qed.

Section CallersArray.

Variable w : oracle.
Variable ctx : Payload.
Variable args : BackportArgs.

Let pr := pull_request (payload args).
Let matched := getMatchedBackportLabels (labels pr) backportLabels.

(** How many copies of the matched labels the invocation may push. *)
Definition copies_allowed (k : nat) : Prop :=
  (merged pr = false -> k = 0)
  /\ (~ passes_gate ctx -> k = 0)
  /\ (forall m, getBackportBaseToHead (action (payload args)) (label (payload args))
                  (labels pr) (number pr) = Ok m ->
                k <= List.length (Object_entries m)).

Definition grows {A} (m : M A) : Prop :=
  forall s r s', m s = (r, s') ->
    exists k, copies_allowed k /\ labelsToAdd s' = pushed k (labelsToAdd s) matched.

Lemma copies_allowed_0 : copies_allowed 0.
Proof. repeat split; intros; lia. Qed.

Lemma grows_keeps {A} (m : M A) : keeps_labels m -> grows m.
Proof.
  intros Hk s r s' E. exists 0. split; [apply copies_allowed_0|]. exact (Hk _ _ _ E).
Qed.

Lemma grows_bind {A B} (m : M A) (f : A -> M B) :
  keeps_labels m -> (forall a, grows (f a)) -> grows (bind m f).
Proof.
  intros Hm Hf s r s' E. unfold bind in E.
  destruct (m s) as [[a|e] s1] eqn:Em.
  - destruct (Hf a _ _ _ E) as (k & Hk & El). exists k. split; [exact Hk|].
    now rewrite El, (Hm _ _ _ Em).
  - injection E as _ <-. exists 0. split; [apply copies_allowed_0 | exact (Hm _ _ _ Em)].
Qed.

(** X6.  The only change [backport] makes to the caller's
    [labelsToAdd] array is to append whole copies of the approval
    labels matched on the pull request, one per turn of the loop it
    reached: none when the event stops at the gate, when the pull
    request is not merged or when the map is empty, and never more
    than the map has entries. *)
Theorem labelsToAdd_grows_by_copies (s : state) :
  exists k,
    copies_allowed k
    /\ labelsToAdd (snd (backport w ctx args s)) = pushed k (labelsToAdd s) matched.
Proof.
  assert (H : grows (backport w ctx args)).
  { unfold backport, backportMerged. fold pr matched.
    apply grows_bind; [apply keeps_log|]. intros _.
    destruct (gateReturns ctx) eqn:G; [apply grows_keeps, keeps_ret|].
    match goal with |- grows (if ?b then _ else _) => destruct b end.
    { apply grows_keeps. repeat keeps_step. }
    apply grows_bind; [repeat keeps_step|]. intros _.
    destruct (merged pr) eqn:Hm; cbn [negb]; [|apply grows_keeps, keeps_log].
    apply grows_bind; [apply keeps_log|]. intros _.
    destruct (getBackportBaseToHead (action (payload args)) (label (payload args))
                (labels pr) (number pr)) as [m|e] eqn:Em.
    2:{ apply grows_keeps. intros s0 r s1 [= _ <-]. reflexivity. }
    intros s0 r s1 E. unfold bind at 1 in E. cbn [lift] in E.
    destruct (Nat.eqb (List.length (Object_keys m)) 0).
    { injection E as _ <-. exists 0. split; [apply copies_allowed_0 | reflexivity]. }
    unfold bind at 1 in E. cbn [log] in E.
    unfold bind at 1, perform at 1 in E. cbn [calls output labelsToAdd] in E.
    match type of E with
    | match ?x with _ => _ end = _ => destruct x
    end.
    - apply loop_pushes_at_most in E. destruct E as (k & Hk & El).
      exists k. split; [|exact El].
      split; [congruence|]. split.
      + intros Hng. apply gateReturns_false in G. contradiction.
      + intros m' Hm'. rewrite Em in Hm'. injection Hm' as <-. exact Hk.
    - injection E as _ <-. exists 0. split; [apply copies_allowed_0 | reflexivity]. }
  destruct (backport w ctx args s) as [r s'] eqn:E. exact (H _ _ _ E).
Qed.

End CallersArray.

(** ** The calls stay in the repository of the event *)

(** A call of [backport] on the repository [owner]/[repo]: a git
    command run in the clone, the betterer tool run there in update
    mode, or a request on that repository; labels are never sent as an
    empty list, and the branch and ref requests are not used. *)
Definition in_repository (owner repo : string) (c : call) : Prop :=
  match c with
  | Exec commandLine _ cwd => commandLine = "git" /\ cwd = repo
  | GetExecOutput commandLine _ cwd => commandLine = "git" /\ cwd = repo
  | Betterer update cwd => update = true /\ cwd = repo
  | CloneRepo _ o r => o = owner /\ r = repo
  | PullsCreate _ _ _ o r _ => o = owner /\ r = repo
  | IssuesUpdate r o _ _ => o = owner /\ r = repo
  | PullsDeleteReviewRequest _ r o _ => o = owner /\ r = repo
  | PullsCreateReviewRequest _ r o reviewers =>
      o = owner /\ r = repo /\ List.length reviewers = 1
  | IssuesAddLabels _ l o r => o = owner /\ r = repo /\ l <> []
  | IssuesCreateComment _ _ o r => o = owner /\ r = repo
  | IssuesRemoveLabel o r _ _ => o = owner /\ r = repo
  | ReposGetBranch _ _ _ | GitCreateRef _ _ _ _ | GitUpdateRef _ _ _ _ _ => False
  end.

Lemma emits_add_labels (w : oracle) (P : call -> Prop) (n : Z) (owner repo : string) :
  (forall l, l <> [] -> P (IssuesAddLabels n l owner repo)) ->
  emits P (labelsToAdd <- read_labelsToAdd ;;
           if Nat.ltb 0 (List.length labelsToAdd)
           then perform w (IssuesAddLabels n labelsToAdd owner repo)
           else ret tt).
Proof.
  intros HP s r s' E. unfold bind, read_labelsToAdd in E.
  destruct (labelsToAdd s) as [|x l] eqn:El; cbn [List.length Nat.ltb Nat.leb] in E.
  - exact (emits_ret P tt s r s' E).
  - refine (emits_perform w P (IssuesAddLabels n (x :: l) owner repo) _ s r s' E).
    apply HP. discriminate.
Qed.

(** X7.  Every call [backport] makes concerns the repository named in
    the payload: git and betterer run in the clone of that repository,
    every request goes to that owner and repository, labels are never
    added as an empty list, a review is requested from exactly one
    user, and no branch or ref request is made. *)
Theorem backport_stays_in_repository (w : oracle) (ctx : Payload) (args : BackportArgs)
    (s : state) :
  exists new,
    calls (snd (backport w ctx args s)) = (calls s ++ new)%list
    /\ Forall (in_repository (repository_owner_login (payload args))
                 (repository_name (payload args))) new.
Proof.
  assert (H : emits (in_repository (repository_owner_login (payload args))
                       (repository_name (payload args))) (backport w ctx args)).
  { unfold backport, backportMerged, backportEntry, group, backportOnce, reportFailure,
      cherryPick, publish, fixBettererConflict, isBettererConflict, git.
    repeat first
      [ match goal with
        | |- emits _ (bind read_labelsToAdd _) =>
            apply emits_add_labels; intros l Hl; cbn [in_repository]; auto
        | |- emits _ (for_of _ _) => apply emits_for_of; intros [base head] _
        end
      | emits_step ];
      cbn [in_repository]; repeat split; auto; discriminate. }
  destruct (backport w ctx args s) as [r s'] eqn:E. exact (H _ _ _ E).
Qed.

(** ** The steps of [backportOnce] *)

Definition notPullsCreate (c : call) : Prop :=
  match c with PullsCreate _ _ _ _ _ _ => False | _ => True end.

Section Steps.

Variable w : oracle.
Variables base body commitToBackport head owner repo title : string.
Variable milestone : option Milestone.
Variable mergedBy : option string.
Variable s : state.

Definition switchBase : call := Exec "git" ["switch"; base] repo.
Definition switchCreate : call := Exec "git" ["switch"; "--create"; head] repo.
Definition pushCall : call := Exec "git" ["push"; "--set-upstream"; "origin"; head] repo.
Definition createCall : call := PullsCreate base body head owner repo title.

Let once := backportOnce w base body commitToBackport head owner repo title milestone mergedBy.

(** X8.  When the cherry-pick fails and the listing of the unmerged
    files fails too, [backportOnce] throws the error of the listing
    and does not abort the cherry-pick: the last command run is the
    [git diff], and the clone is left in the middle of the
    cherry-pick. *)
Theorem failed_listing_skips_abort (e0 e1 : js_error) :
  w (calls s) (pickCall commitToBackport repo) = Throw e0 ->
  w (calls s ++ [pickCall commitToBackport repo])%list (diffCall repo) = Throw e1 ->
  fst (fromCherryPick w base body commitToBackport head owner repo title milestone mergedBy s)
  = Throw e1
  /\ calls (snd (fromCherryPick w base body commitToBackport head owner repo title
                   milestone mergedBy s))
     = (calls s ++ [pickCall commitToBackport repo; diffCall repo])%list.
Proof.
  intros Hpick Hdiff.
  assert (E : fromCherryPick w base body commitToBackport head owner repo title
                milestone mergedBy s
              = (Throw e1,
                 {| calls := ((calls s ++ [pickCall commitToBackport repo])
                                ++ [diffCall repo])%list;
                    output := output s; labelsToAdd := labelsToAdd s |})).
  { unfold fromCherryPick, cherryPick, isBettererConflict.
    unfold bind at 1. unfold try_catch at 1. unfold git at 1. unfold perform at 1.
    fold (pickCall commitToBackport repo). rewrite Hpick.
    unfold bind at 1. unfold bind at 1. unfold perform at 1.
    cbn [calls output labelsToAdd].
    fold (diffCall repo). rewrite Hdiff. reflexivity. }
  rewrite E. cbn [fst snd calls].
  split; [reflexivity | now rewrite <- app_assoc].
Qed.

(** X9.  [backportOnce] stops at the first of the two [git switch]
    commands that fails (the base branch is missing, or the head
    branch exists already): it throws that error and runs nothing
    after it, so nothing is cherry-picked, pushed or opened. *)
Theorem failed_switch_stops (e : js_error) :
  (w (calls s) switchBase = Throw e
   \/ (w (calls s) switchBase = Ok tt
       /\ w (calls s ++ [switchBase])%list switchCreate = Throw e)) ->
  fst (once s) = Throw e
  /\ exists new,
       calls (snd (once s)) = (calls s ++ new)%list
       /\ (new = [switchBase] \/ new = [switchBase; switchCreate]).
Proof.
  intros H.
  assert (E : exists new st,
             once s = (Throw e, st) /\ calls st = (calls s ++ new)%list
             /\ (new = [switchBase] \/ new = [switchBase; switchCreate])).
  { unfold once, backportOnce, git. fold switchBase switchCreate.
    destruct H as [H1|[H1 H2]]; unfold bind at 1, perform at 1; rewrite H1.
    - exists [switchBase]. eexists. split; [reflexivity|]. split; [reflexivity | now left].
    - unfold bind at 1, perform at 1. cbn [calls output labelsToAdd]. rewrite H2.
      exists [switchBase; switchCreate]. eexists. split; [reflexivity|].
      split; [cbn [calls]; now rewrite <- app_assoc | now right]. }
  destruct E as (new & st & -> & Hc & Hn). cbn [fst snd].
  split; [reflexivity|]. now exists new.
Qed.

Lemma cherryPick_emits_no_create :
  emits notPullsCreate (cherryPick w repo commitToBackport).
Proof.
  unfold cherryPick, fixBettererConflict, isBettererConflict, git.
  repeat emits_step; exact I.
Qed.

(** X10.  [backportOnce] opens a pull request only for a branch it has
    pushed: either it makes no [pulls.create] call at all, or that
    call comes right after a [git push] of the head branch that
    succeeded, and no [pulls.create] precedes it. *)
Theorem pull_request_only_after_push :
  exists new,
    calls (snd (once s)) = (calls s ++ new)%list
    /\ (Forall notPullsCreate new
        \/ exists pre post,
             new = (pre ++ pushCall :: createCall :: post)%list
             /\ Forall notPullsCreate pre
             /\ w (calls s ++ pre)%list pushCall = Ok tt).
Proof.
  unfold once, backportOnce, git. fold switchBase switchCreate.
  unfold bind at 1, perform at 1.
  destruct (w (calls s) switchBase) as [[]|e1].
  2:{ exists [switchBase]. split; [reflexivity|]. left. repeat constructor. }
  unfold bind at 1, perform at 1. cbn [calls output labelsToAdd].
  destruct (w (calls s ++ [switchBase])%list switchCreate) as [[]|e2].
  2:{ exists [switchBase; switchCreate].
      split; [cbn [snd calls]; now rewrite <- app_assoc|]. left. repeat constructor. }
  unfold bind at 1.
  match goal with
  | |- context [cherryPick w repo commitToBackport ?st] =>
      set (s2 := st); destruct (cherryPick w repo commitToBackport s2) as [r3 s3] eqn:E3
  end.
  destruct (cherryPick_emits_no_create _ _ _ E3) as (n3 & C3 & F3).
  assert (C3' : calls s3 = (calls s ++ [switchBase; switchCreate] ++ n3)%list).
  { rewrite C3. unfold s2. cbn [calls]. now rewrite <- !app_assoc. }
  assert (Fpre : Forall notPullsCreate ([switchBase; switchCreate] ++ n3)%list).
  { apply Forall_app. split; [repeat constructor | exact F3]. }
  destruct r3 as [[]|e3].
  2:{ exists ([switchBase; switchCreate] ++ n3)%list. split; [exact C3' | now left]. }
  unfold publish, git. fold pushCall createCall.
  unfold bind at 1, perform at 1.
  destruct (w (calls s3) pushCall) as [[]|e4] eqn:E4.
  2:{ exists (([switchBase; switchCreate] ++ n3) ++ [pushCall])%list.
      split; [cbn [snd calls]; now rewrite C3', <- !app_assoc|].
      left. apply Forall_app. split; [exact Fpre | repeat constructor]. }
  unfold bind at 1, perform at 1. cbn [calls output labelsToAdd].
  destruct (w (calls s3 ++ [pushCall])%list createCall) as [rsp|e5].
  2:{ exists (([switchBase; switchCreate] ++ n3) ++ pushCall :: createCall :: [])%list.
      split; [cbn [snd calls]; now rewrite C3', <- !app_assoc|].
      right. exists ([switchBase; switchCreate] ++ n3)%list, [].
      split; [reflexivity|]. split; [exact Fpre | now rewrite <- C3']. }
  match goal with
  | |- context [snd (?m ?st)] =>
      assert (Hp : is_prefix (calls st) (calls (snd (m st))))
  end.
  { apply emits_prefix. repeat emits_step; exact I. }
  destruct Hp as [post Hp].
  exists (([switchBase; switchCreate] ++ n3) ++ pushCall :: createCall :: post)%list.
  split.
  - rewrite Hp. cbn [calls]. rewrite C3', <- !app_assoc. reflexivity.
  - right. exists ([switchBase; switchCreate] ++ n3)%list, post.
    split; [reflexivity|]. split; [exact Fpre | now rewrite <- C3'].
Qed.

End Steps.

Lemma failed_listing_skips_abort_witness :
  fst (fromCherryPick
         (world_with (fun c => match c with
                               | PullsCreate _ _ _ _ _ _ => None
                               | _ => Some conflict_error
                               end) default_response)
         "v1" "b" "abc123" "h" "grafana" "grafana" "t" None None (initial_state []))
  = Throw conflict_error
  /\ calls (snd (fromCherryPick
         (world_with (fun c => match c with
                               | PullsCreate _ _ _ _ _ _ => None
                               | _ => Some conflict_error
                               end) default_response)
         "v1" "b" "abc123" "h" "grafana" "grafana" "t" None None (initial_state [])))
     = [pickCall "abc123" "grafana"; diffCall "grafana"].
Proof.
  apply (failed_listing_skips_abort
           (world_with (fun c => match c with
                                 | PullsCreate _ _ _ _ _ _ => None
                                 | _ => Some conflict_error
                                 end) default_response)
           "v1" "b" "abc123" "h" "grafana" "grafana" "t" None None (initial_state [])
           conflict_error conflict_error); reflexivity.
Defined.

Lemma failed_switch_stops_witness :
  fst (backportOnce
         (world_with (fun c => match c with
                               | Exec _ ("switch" :: "--create" :: _) _ => Some conflict_error
                               | _ => None
                               end) default_response)
         "v1" "b" "abc123" "h" "grafana" "grafana" "t" None None (initial_state []))
  = Throw conflict_error
  /\ exists new,
       calls (snd (backportOnce
         (world_with (fun c => match c with
                               | Exec _ ("switch" :: "--create" :: _) _ => Some conflict_error
                               | _ => None
                               end) default_response)
         "v1" "b" "abc123" "h" "grafana" "grafana" "t" None None (initial_state [])))
       = ([] ++ new)%list
       /\ (new = [switchBase "v1" "grafana"]
           \/ new = [switchBase "v1" "grafana"; switchCreate "h" "grafana"]).
Proof.
  apply (failed_switch_stops
           (world_with (fun c => match c with
                                 | Exec _ ("switch" :: "--create" :: _) _ => Some conflict_error
                                 | _ => None
                                 end) default_response)
           "v1" "b" "abc123" "h" "grafana" "grafana" "t" None None (initial_state [])
           conflict_error).
  right. split; reflexivity.
Defined.

(** ** One clone, before any git command *)

Definition notCloneRepo (c : call) : Prop :=
  match c with CloneRepo _ _ _ => False | _ => True end.

Section CloneOnce.

Variable w : oracle.
Variable ctx : Payload.
Variable args : BackportArgs.

(** What follows the authorization step: nothing, or the clone
    followed by calls none of which is a clone. *)
Definition after_authorization (t : list call) : Prop :=
  t = [] \/ exists loop, t = cloneCall args :: loop /\ Forall notCloneRepo loop.

Definition phased {A} (m : M A) : Prop :=
  forall s r s', m s = (r, s') ->
    exists auth t,
      calls s' = (calls s ++ auth ++ t)%list
      /\ Forall (authorization_call args) auth /\ after_authorization t.

Lemma phased_emits {A} (m : M A) : emits (authorization_call args) m -> phased m.
Proof.
  intros H s r s' E. destruct (H _ _ _ E) as (new & C & F).
  exists new, []. split; [now rewrite app_nil_r|]. split; [exact F | now left].
Qed.

Lemma phased_bind {A B} (m : M A) (f : A -> M B) :
  emits (authorization_call args) m -> (forall a, phased (f a)) -> phased (bind m f).
Proof.
  intros Hm Hf s r s' E. unfold bind in E.
  destruct (m s) as [[a|e] s1] eqn:Em; destruct (Hm _ _ _ Em) as (n1 & C1 & F1).
  - destruct (Hf a _ _ _ E) as (auth & t & C & F & T).
    exists (n1 ++ auth)%list, t. split; [now rewrite C, C1, <- !app_assoc|].
    split; [now apply Forall_app | exact T].
  - injection E as _ <-. exists n1, [].
    split; [now rewrite app_nil_r|]. split; [exact F1 | now left].
Qed.

Lemma loop_never_clones (matched : list string) (commit : string)
    (entries : list (string * string)) :
  emits notCloneRepo (for_of entries (backportEntry w args matched commit)).
Proof.
  apply emits_for_of. intros [base head] _.
  unfold backportEntry, group, backportOnce, reportFailure, cherryPick, publish,
    fixBettererConflict, isBettererConflict, git.
  repeat emits_step; exact I.
Qed.

(** X11.  The calls of an invocation come in two phases: first those
    of the authorization step, on the original pull request; then
    either nothing, or the clone followed by the work on the branches,
    which never clones again.  So the repository is cloned at most
    once, and every git command, betterer run and new pull request
    comes after the clone. *)
Theorem clone_once_then_branches (s : state) :
  exists auth t,
    calls (snd (backport w ctx args s)) = (calls s ++ auth ++ t)%list
    /\ Forall (authorization_call args) auth /\ after_authorization t.
Proof.
  assert (H : phased (backport w ctx args)).
  { unfold backport, backportMerged.
    apply phased_bind; [apply emits_log|]. intros _.
    destruct (gateReturns ctx); [apply phased_emits, emits_ret|].
    match goal with |- phased (if ?b then _ else _) => destruct b end.
    { apply phased_emits. repeat emits_step; unfold authorization_call; auto. }
    apply phased_bind; [repeat emits_step; unfold authorization_call; auto|]. intros _.
    destruct (merged (pull_request (payload args))); cbn [negb];
      [|apply phased_emits, emits_log].
    apply phased_bind; [apply emits_log|]. intros _.
    apply phased_bind; [apply emits_lift|]. intros m.
    destruct (Nat.eqb (List.length (Object_keys m)) 0); [apply phased_emits, emits_ret|].
    apply phased_bind; [apply emits_log|]. intros _.
    intros s0 r s1 E. exists []. cbn [app].
    unfold bind at 1, perform at 1 in E.
    fold (cloneCall args) in E.
    destruct (w (calls s0) (cloneCall args)) as [u|e].
    - destruct (loop_never_clones _ _ _ _ _ _ E) as (loop & C & F).
      exists (cloneCall args :: loop). split; [|split; [constructor|]].
      + rewrite C. cbn [calls]. now rewrite <- app_assoc.
      + right. now exists loop.
    - injection E as _ <-. exists [cloneCall args].
      split; [reflexivity|]. split; [constructor|]. right. exists []. now split. }
  destruct (backport w ctx args s) as [r s'] eqn:E. exact (H _ _ _ E).
Qed.

End CloneOnce.

(** ** The enterprise check: inputs, lookups and refs *)

(** X12.  When one of the three required inputs is empty,
    [onTriggered] throws the message of the first one missing (source
    branch, then PR number, then source SHA) before any request is
    made: the history of calls is unchanged. *)
Theorem missing_input_fails_first (w : oracle) (inputs : Inputs) (s : state) :
  source_branch inputs = "" \/ pr_number inputs = "" \/ source_sha inputs = "" ->
  onTriggered w inputs s
  = (Throw (plainError
              (if String.eqb (source_branch inputs) "" then "Missing source branch"
               else if String.eqb (pr_number inputs) "" then "Missing OSS PR number"
               else "Missing OSS source SHA")), s).
Proof.
  intros H. unfold onTriggered.
  destruct (String.eqb (source_branch inputs) "") eqn:E1; [reflexivity|].
  destruct (String.eqb (pr_number inputs) "") eqn:E2; [reflexivity|].
  destruct (String.eqb (source_sha inputs) "") eqn:E3; [reflexivity|].
  apply String.eqb_neq in E1, E2, E3. tauto.
Qed.

Lemma missing_input_fails_first_witness :
  onTriggered world_ok
    {| source_branch := "feature-x"; pr_number := "4711"; source_sha := "";
       target_branch := "" |} (initial_state [])
  = (Throw (plainError "Missing OSS source SHA"), initial_state []).
Proof.
  apply (missing_input_fails_first world_ok
           {| source_branch := "feature-x"; pr_number := "4711"; source_sha := "";
              target_branch := "" |} (initial_state [])).
  right. right. reflexivity.
Defined.

(** X13.  [getBranch] never throws: it makes exactly one request, and
    whatever error that request is rejected with (a missing branch, but
    also a refused token or a network failure) it answers that there
    is no branch. *)
Theorem getBranch_never_throws (w : oracle) (branch : string) (s : state) :
  exists found s',
    getBranch w branch s = (Ok found, s')
    /\ calls s' = (calls s ++ [lookupCall branch])%list
    /\ (found = None <-> exists e, w (calls s) (lookupCall branch) = Throw e)
    /\ (forall b, found = Some b <-> w (calls s) (lookupCall branch) = Ok b).
Proof.
  destruct (getBranch_spec w branch s) as (s' & C & E).
  eexists. exists s'. split; [exact E|]. split; [exact C|].
  destruct (w (calls s) (lookupCall branch)) as [b|e]; split.
  - split; [discriminate | intros [e H]; discriminate H].
  - intros b'. split; [intros [= ->]; reflexivity | intros H; injection H as ->; reflexivity].
  - split; [intros _; now exists e | trivial].
  - intros b'. split; discriminate.
Qed.

(** A request of the enterprise check: a branch lookup, the creation
    of a ref under [refs/heads/prc-], or the forced update of the
    matching ref under [heads/prc-], all on [grafana/grafana-enterprise]. *)
Definition enterprise_call (inputs : Inputs) (c : call) : Prop :=
  match c with
  | ReposGetBranch _ o r => o = "grafana" /\ r = "grafana-enterprise"
  | GitCreateRef o r ref _ =>
      o = "grafana" /\ r = "grafana-enterprise"
      /\ ref = "refs/heads/prc-" ++ pr_number inputs ++ "-" ++ source_sha inputs ++ "/"
                 ++ source_branch inputs
  | GitUpdateRef o r ref _ force =>
      o = "grafana" /\ r = "grafana-enterprise" /\ force = true
      /\ "refs/" ++ ref
         = "refs/heads/prc-" ++ pr_number inputs ++ "-" ++ source_sha inputs ++ "/"
             ++ source_branch inputs
  | _ => False
  end.

(** X14.  Whatever the inputs and the answers, [onTriggered] only
    looks up branches and creates or force-updates the one namespaced
    ref of its inputs in [grafana/grafana-enterprise] (the update names
    the created ref without its [refs/] prefix, and the ref is always
    named after the source branch, also when the commit comes from a
    fall-back branch); it makes at most five requests. *)
Theorem onTriggered_calls (w : oracle) (inputs : Inputs) (s : state) :
  exists new,
    calls (snd (onTriggered w inputs s)) = (calls s ++ new)%list
    /\ Forall (enterprise_call inputs) new
    /\ List.length new <= 5.
Proof.
  assert (Href : forall sha st,
             exists n, calls (snd (createOrUpdateRef w (pr_number inputs)
                                     (source_branch inputs) sha (source_sha inputs) st))
                       = (calls st ++ n)%list
                       /\ Forall (enterprise_call inputs) n /\ List.length n <= 2).
  { intros sha st.
    pose proof (createOrUpdateRef_expected w inputs sha st) as H.
    unfold observed in H. apply (f_equal snd) in H.
    change (calls (snd (createOrUpdateRef w (pr_number inputs) (source_branch inputs) sha
                          (source_sha inputs) st))
            = snd (expectedRef w inputs (calls st) sha)) in H.
    rewrite H. unfold expectedRef.
    destruct (w (calls st) (createRefCall inputs sha)) as [u|e].
    - exists [createRefCall inputs sha]. cbn [snd]. split; [reflexivity|].
      split; [|cbn; lia]. repeat constructor.
    - destruct (already_exists e); cbn [snd].
      + exists [createRefCall inputs sha; updateRefCall inputs sha].
        split; [reflexivity|]. split; [|cbn; lia]. repeat constructor.
      + exists [createRefCall inputs sha]. split; [reflexivity|].
        split; [|cbn; lia]. repeat constructor. }
  assert (Hlk : forall b, enterprise_call inputs (lookupCall b))
    by (intros b; split; reflexivity).
  assert (Hnone : forall e, exists new,
             calls (snd (@throw unit e s)) = (calls s ++ new)%list
             /\ Forall (enterprise_call inputs) new /\ List.length new <= 5).
  { intros e. exists []. cbn [snd throw]. rewrite app_nil_r.
    split; [reflexivity|]. split; [constructor | cbn; lia]. }
  unfold onTriggered.
  destruct (String.eqb (source_branch inputs) ""); [apply Hnone|].
  destruct (String.eqb (pr_number inputs) ""); [apply Hnone|].
  destruct (String.eqb (source_sha inputs) ""); [apply Hnone|].
  destruct (getBranch_spec w (source_branch inputs) s) as (s1 & C1 & G1).
  unfold bind at 1. rewrite G1.
  destruct (w (calls s) (lookupCall (source_branch inputs))) as [b|e].
  { destruct (Href (commit_sha b) s1) as (n & C & F & L).
    exists (lookupCall (source_branch inputs) :: n).
    rewrite C, C1, <- app_assoc. split; [reflexivity|].
    split; [constructor; auto | cbn [List.length]; lia]. }
  set (tb := if String.eqb (target_branch inputs) "" then "main" else target_branch inputs).
  destruct (getBranch_spec w tb s1) as (s2 & C2 & G2).
  unfold bind at 1. rewrite G2.
  destruct (w (calls s1) (lookupCall tb)) as [b|e'].
  { destruct (Href (commit_sha b) s2) as (n & C & F & L).
    exists (lookupCall (source_branch inputs) :: lookupCall tb :: n).
    rewrite C, C2, C1, <- !app_assoc. split; [reflexivity|].
    split; [repeat constructor; auto | cbn [List.length]; lia]. }
  destruct (getBranch_spec w "main" s2) as (s3 & C3 & G3).
  unfold bind at 1. rewrite G3.
  destruct (w (calls s2) (lookupCall "main")) as [b|e''].
  { destruct (Href (commit_sha b) s3) as (n & C & F & L).
    exists (lookupCall (source_branch inputs) :: lookupCall tb :: lookupCall "main" :: n).
    rewrite C, C3, C2, C1, <- !app_assoc. split; [reflexivity|].
    split; [repeat constructor; auto | cbn [List.length]; lia]. }
  exists [lookupCall (source_branch inputs); lookupCall tb; lookupCall "main"].
  unfold throw. cbn [snd]. rewrite C3, C2, C1, <- !app_assoc.
  split; [reflexivity|]. split; [repeat constructor; auto | cbn; lia].
Qed.

(** ** The title of the new pull request *)

Fixpoint lacks (a : ascii) (s : string) : bool :=
  match s with
  | EmptyString => true
  | String b t => negb (Ascii.eqb a b) && lacks a t
  end.

Lemma lacks_app (a : ascii) (x y : string) : lacks a (x ++ y) = lacks a x && lacks a y.
Proof.
  induction x as [|b x IH]; [reflexivity|].
  change (String b x ++ y) with (String b (x ++ y)). cbn [lacks].
  now rewrite IH, andb_assoc.
Qed.

Lemma expand_replacement_plain (value matched before after : string) :
  lacks "$" value = true -> expand_replacement value matched before after = value.
Proof.
  induction value as [|a r IH]; [reflexivity|].
  cbn [lacks]. intros H. apply andb_true_iff in H as [Ha Hr].
  apply negb_true_iff in Ha. rewrite Ascii.eqb_sym in Ha.
  cbn [expand_replacement]. rewrite Ha. now rewrite IH.
Qed.

Lemma replace_from_plain_any (p value : string) :
  lacks "$" value = true ->
  forall s whole pos whole' pos' skip,
    replace_from p value whole pos skip s = replace_from p value whole' pos' skip s.
Proof.
  intros Hv. induction s as [|a t IH]; intros whole pos whole' pos' skip; [reflexivity|].
  cbn [replace_from]. destruct skip as [|k].
  - destruct (strip_prefix p (String a t)) as [after|].
    + rewrite !(expand_replacement_plain value) by exact Hv.
      now rewrite (IH whole (S pos) whole' (S pos')).
    + now rewrite (IH whole (S pos) whole' (S pos')).
  - now rewrite (IH whole (S pos) whole' (S pos')).
Qed.

Lemma replace_from_plain (p value whole : string) :
  lacks "$" value = true ->
  forall s pos skip,
    replace_from p value whole pos skip s = replace_from p value "" 0 skip s.
Proof. intros Hv s pos skip. now apply replace_from_plain_any. Qed.

Lemma replace_from_lacks (c : ascii) (p value whole : string) (x y : string) :
  lacks c x = true ->
  forall pos,
    replace_from (String c p) value whole pos 0 (x ++ y)
    = x ++ replace_from (String c p) value whole (pos + String.length x) 0 y.
Proof.
  induction x as [|a x IH]; intros Hx pos.
  - cbn [append String.length]. now rewrite Nat.add_0_r.
  - cbn [lacks] in Hx. apply andb_true_iff in Hx as [Ha Hx].
    apply negb_true_iff in Ha.
    change (String a x ++ y) with (String a (x ++ y)).
    cbn [replace_from strip_prefix]. rewrite Ha.
    rewrite (IH Hx (S pos)). cbn [String.length append].
    now rewrite Nat.add_succ_r.
Qed.

Lemma replace_from_skip (p value whole : string) (x y : string) :
  forall pos,
    replace_from p value whole pos (String.length x) (x ++ y)
    = replace_from p value whole (pos + String.length x) 0 y.
Proof.
  induction x as [|a x IH]; intros pos.
  - cbn [append String.length]. now rewrite Nat.add_0_r.
  - change (String a x ++ y) with (String a (x ++ y)).
    cbn [String.length replace_from]. rewrite (IH (S pos)).
    now rewrite Nat.add_succ_r.
Qed.

Lemma replace_from_match (c : ascii) (p value : string) (z : string) :
  lacks "$" value = true ->
  replace_from (String c p) value "" 0 0 (String c p ++ z)
  = value ++ replace_from (String c p) value "" 0 0 z.
Proof.
  intros Hv.
  change (String c p ++ z) with (String c (p ++ z)).
  cbn [replace_from].
  change (String c (p ++ z)) with (String c p ++ z).
  rewrite strip_prefix_app, expand_replacement_plain by exact Hv.
  cbn [String.length].
  replace (S (String.length p) - 1) with (String.length p) by lia.
  rewrite replace_from_skip. now rewrite (replace_from_plain _ _ _ Hv z).
Qed.

Lemma rf_lacks (c : ascii) (p value whole : string) (pos : nat) (x y : string) :
  lacks "$" value = true -> lacks c x = true ->
  replace_from (String c p) value whole pos 0 (x ++ y)
  = x ++ replace_from (String c p) value "" 0 0 y.
Proof.
  intros Hv Hx. rewrite (replace_from_lacks c p value whole x y Hx pos).
  f_equal. now apply replace_from_plain_any.
Qed.

Lemma rf_match (c : ascii) (p value whole : string) (pos : nat) (z : string) :
  lacks "$" value = true ->
  replace_from (String c p) value whole pos 0 (String c p ++ z)
  = value ++ replace_from (String c p) value "" 0 0 z.
Proof.
  intros Hv. rewrite (replace_from_plain_any _ _ Hv _ whole pos "" 0).
  now apply replace_from_match.
Qed.

Lemma rf_no_match (p value whole : string) (pos : nat) (a : ascii) (t : string) :
  lacks "$" value = true -> strip_prefix p (String a t) = None ->
  replace_from p value whole pos 0 (String a t)
  = String a (replace_from p value "" 0 0 t).
Proof.
  intros Hv Hn. cbn [replace_from]. rewrite Hn. f_equal.
  now apply replace_from_plain_any.
Qed.

Lemma rf_end (c : ascii) (p value whole : string) (pos : nat) (x : string) :
  lacks c x = true -> replace_from (String c p) value whole pos 0 x = x.
Proof.
  intros Hx. rewrite <- (app_empty_r x) at 1.
  rewrite (replace_from_lacks c p value whole x "" Hx pos).
  cbn [replace_from]. apply app_empty_r.
Qed.

Lemma replace_all_lacks (c : ascii) (p value x : string) :
  lacks c x = true -> replace_all (String c p) value x = x.
Proof. intros Hx. unfold replace_all. now apply rf_end. Qed.

Lemma replace_all_once (c : ascii) (p value a z : string) :
  lacks "$" value = true -> lacks c a = true -> lacks c z = true ->
  replace_all (String c p) value (a ++ String c p ++ z) = a ++ value ++ z.
Proof.
  intros Hv Ha Hz. unfold replace_all.
  rewrite rf_lacks, rf_match by assumption.
  now rewrite rf_end.
Qed.

(** X15.  For a template with one [{{base}}] and, after it, one
    [{{originalTitle}}], and no other brace, the title is the template
    with the two placeholders filled in, provided the branch name has
    no brace and neither value contains a dollar sign (which the
    replacement would interpret).  A template without any brace is
    used as it is, whatever the values. *)
Theorem renderTitle_fills_placeholders (a b c base originalTitle : string) :
  lacks "{" a = true -> lacks "{" b = true -> lacks "{" c = true ->
  lacks "{" base = true -> lacks "$" base = true -> lacks "$" originalTitle = true ->
  renderTitle (a ++ "{{base}}" ++ b ++ "{{originalTitle}}" ++ c) base originalTitle
  = a ++ base ++ b ++ originalTitle ++ c
  /\ forall base' originalTitle',
       renderTitle (a ++ b ++ c) base' originalTitle' = a ++ b ++ c.
Proof.
  intros Ha Hb Hc Hbase Hbd Htd. unfold renderTitle. split.
  - assert (E1 : replace_all "{{base}}" base
                   (a ++ "{{base}}" ++ b ++ "{{originalTitle}}" ++ c)
                 = a ++ base ++ b ++ "{{originalTitle}}" ++ c).
    { unfold replace_all.
      rewrite (rf_lacks "{" "{base}}") by assumption.
      rewrite (rf_match "{" "{base}}") by assumption.
      rewrite (rf_lacks "{" "{base}}") by assumption.
      change ("{{originalTitle}}" ++ c)
        with (String "{" (String "{" ("originalTitle}}" ++ c))).
      rewrite rf_no_match by (trivial; reflexivity).
      rewrite rf_no_match by (trivial; reflexivity).
      rewrite (rf_end "{" "{base}}") by (now rewrite lacks_app, Hc).
      reflexivity. }
    rewrite E1.
    replace (a ++ base ++ b ++ "{{originalTitle}}" ++ c)
      with ((a ++ base ++ b) ++ "{{originalTitle}}" ++ c)
      by now rewrite !app_assoc_s.
    rewrite (replace_all_once "{" "{originalTitle}}" originalTitle (a ++ base ++ b) c Htd).
    + now rewrite !app_assoc_s.
    + now rewrite !lacks_app, Ha, Hbase, Hb.
    + exact Hc.
  - intros base' originalTitle'.
    rewrite (replace_all_lacks "{" "{base}}" base' (a ++ b ++ c))
      by now rewrite !lacks_app, Ha, Hb, Hc.
    apply (replace_all_lacks "{" "{originalTitle}}").
    now rewrite !lacks_app, Ha, Hb, Hc.
Qed.

Lemma renderTitle_fills_placeholders_witness :
  renderTitle ("[" ++ "{{base}}" ++ "] " ++ "{{originalTitle}}" ++ "") "v9.2.x" "Fix the thing"
  = "[" ++ "v9.2.x" ++ "] " ++ "Fix the thing" ++ ""
  /\ forall base' originalTitle',
       renderTitle ("[" ++ "] " ++ "") base' originalTitle' = "[" ++ "] " ++ "".
Proof.
  apply (renderTitle_fills_placeholders "[" "] " "" "v9.2.x" "Fix the thing"); reflexivity.
Defined.

(** ** The outcomes of the authorization step *)

Section AuthorizationOutcomes.

Variable w : oracle.
Variable ctx : Payload.
Variable args : BackportArgs.

Lemma loop_quiet (matched : list string) (commit : string)
    (entries : list (string * string)) :
  emits (fun c => c <> rejectionComment args)
    (for_of entries (backportEntry w args matched commit)).
Proof.
  apply emits_for_of. intros [base head] _.
  unfold backportEntry, group, backportOnce, reportFailure, cherryPick, publish,
    fixBettererConflict, isBettererConflict, git.
  repeat emits_step; unfold rejectionComment; intros H; discriminate H.
Qed.

Lemma backportMerged_quiet (matched : list string) :
  emits (fun c => c <> rejectionComment args) (backportMerged w args matched).
Proof.
  unfold backportMerged.
  repeat first
    [ match goal with
      | |- emits _ (for_of _ _) => apply loop_quiet
      end
    | emits_step ];
    unfold rejectionComment; intros H; discriminate H.
Qed.

(** X16.  The authorization step has four outcomes, told apart by the
    calls it makes: none; the removal of the marker; the rejection
    comment alone (when the comment is refused); the rejection comment
    followed by the marker.  After a rejection nothing else is called,
    in any world and for any event, and the rejection comment is never
    posted later in the invocation. *)
Theorem authorization_outcomes (s : state) :
  exists auth t,
    calls (snd (backport w ctx args s)) = (calls s ++ auth ++ t)%list
    /\ (auth = [] \/ auth = [removeMissingLabels args]
        \/ ((auth = [rejectionComment args]
             \/ auth = [rejectionComment args; addMissingLabels args]) /\ t = []))
    /\ Forall (fun c => c <> rejectionComment args) t.
Proof.
  assert (Hm : forall matched st,
             exists t, calls (snd (backportMerged w args matched st)) = (calls st ++ t)%list
                       /\ Forall (fun c => c <> rejectionComment args) t).
  { intros matched st.
    destruct (backportMerged w args matched st) as [r st'] eqn:E.
    exact (backportMerged_quiet matched _ _ _ E). }
  unfold backport. unfold bind at 1. cbn [log].
  destruct (gateReturns ctx).
  { exists [], []. cbn [snd calls ret app]. rewrite app_nil_r. auto. }
  match goal with |- context [if ?b then _ else _] => destruct b end.
  - unfold bind at 1. cbn [log].
    unfold bind at 1, perform at 1. cbn [calls output labelsToAdd].
    fold (rejectionComment args).
    destruct (w (calls s) (rejectionComment args)) as [u|e].
    + unfold perform. cbn [snd calls]. fold (addMissingLabels args).
      exists [rejectionComment args; addMissingLabels args], [].
      rewrite app_nil_r, <- app_assoc. split; [reflexivity|]. split; [|constructor].
      right. right. split; [now right | reflexivity].
    + exists [rejectionComment args], []. cbn [snd calls]. rewrite app_nil_r.
      split; [reflexivity|]. split; [|constructor].
      right. right. split; [now left | reflexivity].
  - match goal with |- context [if ?b then _ else _] => destruct b end.
    + unfold bind at 1, perform at 1. cbn [calls output labelsToAdd].
      fold (removeMissingLabels args).
      destruct (w (calls s) (removeMissingLabels args)) as [u|e].
      * match goal with
        | |- context [backportMerged w args ?ml ?st] =>
            destruct (Hm ml st) as (t & C & F)
        end.
        exists [removeMissingLabels args], t. rewrite C. cbn [calls].
        rewrite <- app_assoc. split; [reflexivity|]. split; [|exact F].
        right. now left.
      * exists [removeMissingLabels args], []. cbn [snd calls]. rewrite app_nil_r.
        split; [reflexivity|]. split; [|constructor]. right. now left.
    + unfold bind at 1. cbn [ret].
      match goal with
      | |- context [backportMerged w args ?ml ?st] =>
          destruct (Hm ml st) as (t & C & F)
      end.
      exists [], t. rewrite C. cbn [calls app]. split; [reflexivity|].
      split; [now left | exact F].
Qed.

End AuthorizationOutcomes.

(** ** At most one pull request per entry *)

Definition isPullsCreate (c : call) : bool :=
  match c with PullsCreate _ _ _ _ _ _ => true | _ => false end.

Definition creations (l : list call) : nat := List.length (filter isPullsCreate l).

Lemma creations_app (l l' : list call) : creations (l ++ l') = creations l + creations l'.
Proof. unfold creations. now rewrite filter_app, List.length_app. Qed.

(** [m] adds at most [k] calls of [pulls.create]. *)
Definition creates_at_most {A} (k : nat) (m : M A) : Prop :=
  forall s r s', m s = (r, s') ->
    exists new, calls s' = (calls s ++ new)%list /\ creations new <= k.

Lemma creates_none {A} (m : M A) :
  emits (fun c => isPullsCreate c = false) m -> creates_at_most 0 m.
Proof.
  intros H s r s' E. destruct (H _ _ _ E) as (new & C & F).
  exists new. split; [exact C|].
  unfold creations. clear C. induction F as [|c l Hc F IH]; cbn [filter].
  - cbn; lia.
  - rewrite Hc. exact IH.
Qed.

Lemma creates_more {A} (j k : nat) (m : M A) :
  j <= k -> creates_at_most j m -> creates_at_most k m.
Proof.
  intros Hjk H s r s' E. destruct (H _ _ _ E) as (new & C & L).
  exists new. split; [exact C | lia].
Qed.

Lemma creates_bind {A B} (j k : nat) (m : M A) (f : A -> M B) :
  creates_at_most j m -> (forall a, creates_at_most k (f a)) ->
  creates_at_most (j + k) (bind m f).
Proof.
  intros Hm Hf s r s' E. unfold bind in E.
  destruct (m s) as [[a|e] s1] eqn:Em; destruct (Hm _ _ _ Em) as (n1 & C1 & L1).
  - destruct (Hf a _ _ _ E) as (n2 & C2 & L2).
    exists (n1 ++ n2)%list. split; [now rewrite C2, C1, app_assoc|].
    rewrite creations_app. lia.
  - injection E as _ <-. exists n1. split; [exact C1 | lia].
Qed.

Lemma creates_try_catch {A} (j k : nat) (m : M A) (h : js_error -> M A) :
  creates_at_most j m -> (forall e, creates_at_most k (h e)) ->
  creates_at_most (j + k) (try_catch m h).
Proof.
  intros Hm Hh s r s' E. unfold try_catch in E.
  destruct (m s) as [[a|e] s1] eqn:Em; destruct (Hm _ _ _ Em) as (n1 & C1 & L1).
  - injection E as _ <-. exists n1. split; [exact C1 | lia].
  - destruct (Hh e _ _ _ E) as (n2 & C2 & L2).
    exists (n1 ++ n2)%list. split; [now rewrite C2, C1, app_assoc|].
    rewrite creations_app. lia.
Qed.

Lemma creates_finally_log {A} (k : nat) (m : M A) (ev : out_event) :
  creates_at_most k m -> creates_at_most k (finally m (log ev)).
Proof.
  intros Hm s r s' E. unfold finally in E.
  destruct (m s) as [r1 s1] eqn:Em. destruct (Hm _ _ _ Em) as (n1 & C1 & L1).
  cbn [log] in E. injection E as _ <-. exists n1. split; [exact C1 | exact L1].
Qed.

Lemma creates_for_of {A} (l : list A) (body : A -> M unit) :
  (forall x, creates_at_most 1 (body x)) ->
  creates_at_most (List.length l) (for_of l body).
Proof.
  intros Hb. induction l as [|x l IH]; cbn [for_of List.length].
  - apply creates_none, emits_ret.
  - apply (creates_bind 1 (List.length l)); [apply Hb | intros _; exact IH].
Qed.

Section Creations.

Variable w : oracle.

Lemma backportOnce_creates_once base body commit head owner repo title ms mb :
  creates_at_most 1 (backportOnce w base body commit head owner repo title ms mb).
Proof.
  unfold backportOnce.
  apply (creates_bind 0 1);
    [apply creates_none; unfold git; repeat emits_step; reflexivity|]. intros _.
  apply (creates_bind 0 1);
    [apply creates_none; unfold git; repeat emits_step; reflexivity|]. intros _.
  apply (creates_bind 0 1).
  { apply creates_none.
    unfold cherryPick, fixBettererConflict, isBettererConflict, git.
    repeat emits_step; reflexivity. }
  intros _. unfold publish.
  apply (creates_bind 0 1);
    [apply creates_none; unfold git; repeat emits_step; reflexivity|]. intros _.
  apply (creates_bind 1 0).
  { intros s r s' E. unfold perform in E. injection E as _ <-.
    exists [PullsCreate base body head owner repo title]. split; [reflexivity | cbn; lia]. }
  intros rsp. apply creates_none. repeat emits_step; reflexivity.
Qed.

Lemma backportEntry_creates_once (args : BackportArgs) (matched : list string)
    (commit : string) (entry : string * string) :
  creates_at_most 1 (backportEntry w args matched commit entry).
Proof.
  destruct entry as [base head]. unfold backportEntry, group.
  apply (creates_bind 0 1); [apply creates_none, emits_push|]. intros _.
  apply (creates_bind 0 1); [apply creates_none, emits_log|]. intros _.
  apply creates_finally_log.
  apply (creates_try_catch 1 0); [apply backportOnce_creates_once|].
  intros e. apply creates_none. unfold reportFailure. repeat emits_step; reflexivity.
Qed.

(** X17.  An invocation opens at most one pull request per entry of
    the map, whatever fails on the way: the number of [pulls.create]
    calls never exceeds the number of entries, and is zero when the
    map could not be built. *)
Theorem pull_requests_bounded_by_map (ctx : Payload) (args : BackportArgs) (s : state) :
  exists new,
    calls (snd (backport w ctx args s)) = (calls s ++ new)%list
    /\ creations new
       <= match getBackportBaseToHead (action (payload args)) (label (payload args))
                  (labels (pull_request (payload args)))
                  (number (pull_request (payload args))) with
          | Ok m => List.length (Object_entries m)
          | Throw _ => 0
          end.
Proof.
  match goal with
  | |- exists new, _ /\ creations new <= ?k =>
      assert (H : creates_at_most k (backport w ctx args))
  end.
  { unfold backport, backportMerged.
    apply (creates_bind 0); [apply creates_none, emits_log|]. intros _.
    destruct (gateReturns ctx);
      [eapply creates_more; [apply Nat.le_0_l | apply creates_none, emits_ret]|].
    match goal with |- creates_at_most _ (if ?b then _ else _) => destruct b end.
    { eapply creates_more; [apply Nat.le_0_l|].
      apply creates_none. repeat emits_step; reflexivity. }
    apply (creates_bind 0);
      [apply creates_none; repeat emits_step; reflexivity|]. intros _.
    destruct (merged (pull_request (payload args))); cbn [negb];
      [|eapply creates_more; [apply Nat.le_0_l | apply creates_none, emits_log]].
    apply (creates_bind 0); [apply creates_none, emits_log|]. intros _.
    destruct (getBackportBaseToHead (action (payload args)) (label (payload args))
                (labels (pull_request (payload args)))
                (number (pull_request (payload args)))) as [m|e].
    2:{ apply creates_none. intros st r st' [= _ <-]. exists []. split; [|constructor].
        now rewrite app_nil_r. }
    intros st r st' E. unfold bind at 1 in E. cbn [lift] in E. revert st r st' E.
    change (creates_at_most (List.length (Object_entries m))
              (if Nat.eqb (List.length (Object_keys m)) 0 then ret tt
               else
                 log (CoreInfo ("Backporting "
                    ++ match merge_commit_sha (pull_request (payload args)) with
                       | Some sha => sha
                       | None => "null"
                       end ++ " from #"
                    ++ Number_toString (number (pull_request (payload args))))) ;;
                 perform w (CloneRepo (token args) (repository_owner_login (payload args))
                              (repository_name (payload args))) ;;
                 for_of (Object_entries m)
                   (backportEntry w args
                      (getMatchedBackportLabels (labels (pull_request (payload args)))
                         backportLabels)
                      match merge_commit_sha (pull_request (payload args)) with
                      | Some sha => sha
                      | None => "null"
                      end))).
    destruct (Nat.eqb (List.length (Object_keys m)) 0);
      [eapply creates_more; [apply Nat.le_0_l | apply creates_none, emits_ret]|].
    apply (creates_bind 0); [apply creates_none, emits_log|]. intros _.
    apply (creates_bind 0);
      [apply creates_none; repeat emits_step; reflexivity|]. intros _.
    apply creates_for_of. intros entry. apply backportEntry_creates_once. }
  destruct (backport w ctx args s) as [r s'] eqn:E. exact (H _ _ _ E).
Qed.

End Creations.

(** ** Adding the approval label after the merge *)

Lemma approval_label_not_backport (name : string) :
  In name backportLabels -> labelRegExp_exec name = None.
Proof. intros [<-|[<-|[<-|[]]]]; reflexivity. Qed.

(** X18.  A [labeled] event whose new label is an approval label never
    backports, even on a merged pull request that carries backport
    labels: the map is built from the new label alone and is empty.
    The invocation can only remove the marker (or, when the labels of
    the pull request do not contain the approval label, reject). *)
Theorem approval_label_event_does_not_backport (w : oracle) (ctx : Payload)
    (args : BackportArgs) (s : state) (name : string) :
  action (payload args) = "labeled" ->
  label (payload args) = Some name ->
  In name backportLabels ->
  exists new,
    calls (snd (backport w ctx args s)) = (calls s ++ new)%list
    /\ Forall (authorization_call args) new
    /\ Forall (fun c => isBackportStep c = false) new.
Proof.
  intros Ha Hl Hin.
  assert (Hmap : getBackportBaseToHead (action (payload args)) (label (payload args))
                   (labels (pull_request (payload args)))
                   (number (pull_request (payload args))) = Ok []).
  { rewrite Ha, Hl, getBackportBaseToHead_labeled, addLabelName_exec.
    now rewrite (approval_label_not_backport name Hin). }
  destruct (backport w ctx args s) as [r s'] eqn:E.
  destruct (backport_empty_map_emits w ctx args Hmap _ _ _ E) as (new & C & F).
  exists new. split; [exact C|]. split; [exact F|].
  eapply Forall_impl; [|exact F]. apply authorization_call_not_step.
Qed.

Lemma approval_label_event_does_not_backport_witness :
  exists new,
    calls (snd (backport world_ok
       (sample_payload "labeled" (Some "type/bug")
          ["backport v1"; "missing-labels"; "type/bug"] true)
       (sample_args (sample_payload "labeled" (Some "type/bug")
          ["backport v1"; "missing-labels"; "type/bug"] true))
       (initial_state [])))
    = ([] ++ new)%list
    /\ Forall (authorization_call
                 (sample_args (sample_payload "labeled" (Some "type/bug")
                    ["backport v1"; "missing-labels"; "type/bug"] true))) new
    /\ Forall (fun c => isBackportStep c = false) new.
Proof.
  apply (approval_label_event_does_not_backport world_ok
           (sample_payload "labeled" (Some "type/bug")
              ["backport v1"; "missing-labels"; "type/bug"] true)
           (sample_args (sample_payload "labeled" (Some "type/bug")
              ["backport v1"; "missing-labels"; "type/bug"] true))
           (initial_state []) "type/bug").
  - reflexivity.
  - reflexivity.
  - right. left. reflexivity.
Defined.
